(** * del: the Desktop Entry Launcher (utilities/del.c)

    A shallow embedding of the refresh and launch halves of [del.c]:
    the C library string functions the program calls, the [$PATH] lookup
    ([command_path]), the desktop-entry parser ([parse_desktop_entry]), the
    list loader ([load_commands_from_file]), the refresh operation with its
    write-to-temporary-then-rename persistence ([refresh_command_list]),
    the menu orchestrator ([menu]) and the entry point ([main]).

    Conventions.
    - A [cstr] holds the bytes of a C string before its terminating NUL.
      Text read by getline(3) may contain NUL bytes; [c_str] gives the
      string the program sees through a [char *].
    - C [int]s are in [Z], sizes and indexes in [nat].
    - Global variables ([commands], [max_commands], [malloc_failed]) and
      the two output streams live in a state record threaded by a small
      state monad; what the operating system answers (file contents, fork
      and malloc results, wait statuses) is read from oracle records. *)

From Stdlib Require Import Ascii String.
From Stdlib Require Import List ZArith NArith Lia Bool.
From Stdlib Require Import Sorted Permutation.
From Equations Require Import Equations.
Import ListNotations.

Set Implicit Arguments.
Local Open Scope Z_scope.

(* ===================================================================== *)
(** * Part I: the program                                                 *)
(* ===================================================================== *)

(** ** C strings and the libc functions del.c calls *)

Definition cstr := list ascii.

Definition str (s : string) : cstr := list_ascii_of_string s.
Arguments str s%_string.

Definition NUL : ascii := "000"%char.
Definition LF : ascii := "010"%char.

(** The value of a [char] converted to [unsigned char]. *)
Definition uchar (c : ascii) : Z := Z.of_N (N_of_ascii c).

(** The string a [char *] designates in a byte array: up to the first NUL. *)
Fixpoint c_str (bytes : list ascii) : cstr :=
  match bytes with
  | [] => []
  | c :: rest => if Ascii.eqb c NUL then [] else c :: c_str rest
  end.

Definition strlen (s : cstr) : nat := length s.

(** isspace(3) in the "C" locale (del never calls setlocale). *)
Definition isspace (c : ascii) : bool :=
  let n := uchar c in (n =? 32) || ((9 <=? n) && (n <=? 13)).

(** tolower(3) in the "C" locale. *)
Definition tolower (c : ascii) : ascii :=
  let n := uchar c in
  if (65 <=? n) && (n <=? 90) then ascii_of_N (N_of_ascii c + 32) else c.

(** strcmp(3): the difference of the first two bytes that differ, the
    terminator counting as 0; the comparison stops at a NUL. *)
Fixpoint strcmp (a b : cstr) : Z :=
  match a, b with
  | [], [] => 0
  | [], d :: _ => - uchar d
  | c :: _, [] => uchar c
  | c :: a', d :: b' =>
      if uchar c =? uchar d
      then (if uchar c =? 0 then 0 else strcmp a' b')
      else uchar c - uchar d
  end.

(** strcasecmp(3): strcmp on the lower-cased bytes. *)
Fixpoint strcasecmp (a b : cstr) : Z :=
  match a, b with
  | [], [] => 0
  | [], d :: _ => - uchar (tolower d)
  | c :: _, [] => uchar (tolower c)
  | c :: a', d :: b' =>
      let x := uchar (tolower c) in
      let y := uchar (tolower d) in
      if x =? y
      then (if x =? 0 then 0 else strcasecmp a' b')
      else x - y
  end.

(** [strchr(s, c) != NULL]. *)
Definition strchr (s : cstr) (c : ascii) : bool := existsb (Ascii.eqb c) s.

(** basename(3) of <libgen.h> (POSIX): trailing slashes are dropped and the
    last component is returned; an empty string gives ".", a string of
    slashes gives "/". *)
Fixpoint strip_trailing_slashes (s : cstr) : cstr :=
  match s with
  | [] => []
  | c :: s' =>
      match strip_trailing_slashes s' with
      | [] => if Ascii.eqb c "/" then [] else [c]
      | t => c :: t
      end
  end.

Fixpoint last_component (s : cstr) : cstr :=
  match s with
  | [] => []
  | c :: s' => if strchr s' "/" then last_component s' else
               if Ascii.eqb c "/" then s' else s
  end.

Definition basename (s : cstr) : cstr :=
  match s with
  | [] => str "."
  | _ => match strip_trailing_slashes s with
         | [] => str "/"
         | t => last_component t
         end
  end.

(** *** sscanf(3) directives *)

(** A white-space directive: skips any amount of white space. *)
Fixpoint skip_space (s : cstr) : cstr :=
  match s with
  | c :: s' => if isspace c then skip_space s' else s
  | [] => []
  end.

(** Ordinary characters of the format must match the input exactly. *)
Fixpoint match_literal (lit s : cstr) : option cstr :=
  match lit, s with
  | [], _ => Some s
  | c :: lit', d :: s' => if Ascii.eqb c d then match_literal lit' s' else None
  | _ :: _, [] => None
  end.

(** The body of a [%<width>s] conversion once leading white space is gone:
    at most [width] bytes that are not white space. *)
Fixpoint scan_field (width : nat) (s : cstr) : cstr * cstr :=
  match width, s with
  | S w, c :: s' =>
      if isspace c then ([], s)
      else let (t, r) := scan_field w s' in (c :: t, r)
  | _, _ => ([], s)
  end.

(** [%<width>s]: [None] when the input ends before a byte is stored. *)
Definition scan_string (width : nat) (s : cstr) : option (cstr * cstr) :=
  match scan_field width (skip_space s) with
  | ([], _) => None
  | (t, r) => Some (t, r)
  end.

(** [sscanf(line, "<key> = %<width>s", buf) > 0]: the stored string and
    the input left after it. *)
Definition sscanf_key (key : cstr) (width : nat) (line : cstr)
  : option (cstr * cstr) :=
  match match_literal key line with
  | None => None
  | Some r1 =>
      match match_literal (str "=") (skip_space r1) with
      | None => None
      | Some r2 => scan_string width r2
      end
  end.

(** The width of the [%4095s] conversions that fill [char command[4096]]. *)
Definition command_width : nat := 4095.

(** [sscanf(s, "%4095s %n", command, &len) > 0]: the stored token and the
    input from [s + len] on. *)
Definition sscanf_token (s : cstr) : option (cstr * cstr) :=
  match scan_string command_width s with
  | Some (t, r) => Some (t, skip_space r)
  | None => None
  end.

(** [sscanf(line, "Exec = %4095s %n", command, &offset) > 0]: the stored
    token and the input from [line + offset] on. *)
Definition sscanf_exec (line : cstr) : option (cstr * cstr) :=
  match sscanf_key (str "Exec") command_width line with
  | Some (t, r) => Some (t, skip_space r)
  | None => None
  end.

(** ** The environment of the process *)

Inductive file_type := S_IFREG | S_IFDIR | S_IFOTHER.

Definition S_ISREG (m : file_type) : bool :=
  match m with S_IFREG => true | _ => false end.

(** What the system answers to the lookups of [command_path]. [PATH_MAX]
    comes from <limits.h>. The answers are those of one instant: the
    source itself calls the lookup inherently racy. *)
Record environ := {
  PATH_MAX : nat;
  getenv_PATH : option cstr;          (* getenv("PATH") *)
  access_X_OK : cstr -> bool;         (* access(p, X_OK) == 0 *)
  stat : cstr -> option file_type     (* stat(p, &st) == 0 and st.st_mode *)
}.

(** ** can_execute (del.c:249) *)

Definition can_execute (env : environ) (command : cstr) : bool :=
  if access_X_OK env command then
    match stat env command with
    | Some mode => S_ISREG mode
    | None => false
    end
  else false.

(** ** command_path (del.c:271) *)

Inductive path_result :=
| Found (path : cstr)     (* a pointer to the resolved path *)
| NotFound                (* NULL *)
| NameTooLong             (* NULL with errno = ENAMETOOLONG *)
| BufferOverrun.          (* a store past path[PATH_MAX - 1]: undefined *)

(** [*dest++ = c] into the static [path] buffer; [dest] is the content of
    [path] up to the write position. *)
Definition store (env : environ) (dest : cstr) (c : ascii) : option cstr :=
  if (length dest <? PATH_MAX env)%nat then Some (dest ++ [c]) else None.

(** Lines 299-306: complete the directory prefix held in the buffer. *)
Definition close_prefix (env : environ) (dest : cstr) : option cstr :=
  match dest with
  | [] =>
      match store env [] "." with
      | Some d => store env d "/"
      | None => None
      end
  | _ => if Ascii.eqb (last dest NUL) "/" then Some dest else store env dest "/"
  end.

(** Lines 299-319, run when [*src] is ':' or the terminator: [inl] is the
    value returned, [inr tt] means that the loop goes on with the next
    component. *)
Definition try_prefix (env : environ) (command dest : cstr) (at_end : bool)
  : path_result + unit :=
  match close_prefix env dest with
  | None => inl BufferOverrun
  | Some d =>
      if (PATH_MAX env <=? length d + strlen command)%nat then inl NameTooLong
      else if can_execute env (d ++ command) then inl (Found (d ++ command))
      else if at_end then inl NotFound
      else inr tt
  end.

(** The [while (1)] loop of lines 293-323; [src] is the unread part of
    [$PATH]. *)
Fixpoint path_loop (env : environ) (command src dest : cstr) : path_result :=
  match src with
  | [] =>
      match try_prefix env command dest true with
      | inl r => r
      | inr _ => NotFound
      end
  | c :: src' =>
      if Ascii.eqb c ":" then
        match try_prefix env command dest false with
        | inl r => r
        | inr _ => path_loop env command src' []
        end
      else
        match store env dest c with
        | Some d => path_loop env command src' d
        | None => BufferOverrun
        end
  end.

Definition command_path (env : environ) (command : cstr) : path_result :=
  if strchr command "/" then
    (if can_execute env command then Found command else NotFound)
  else
    match getenv_PATH env with
    | None => NotFound
    | Some env_value => path_loop env command env_value []
    end.

(** The callers only test the pointer against NULL. A call that stores
    past the buffer has no defined behaviour: what the program does from
    there on is no function of the state modelled here, and the [false]
    given for it below stands for nothing that the program does. The
    callers are a model of the program in the systems in which no call
    overruns the buffer ([lookups_defined]); every property that reads what
    a caller returns, registers or prints after a lookup assumes it. *)
Definition resolves (env : environ) (command : cstr) : bool :=
  match command_path env command with
  | Found _ => true
  | _ => false
  end.

Definition lookups_defined (env : environ) : Prop :=
  forall command, command_path env command <> BufferOverrun.

(** ** Program state and what the program prints *)

(** One constructor per [perror], [verror] and [fmterr] call of the source;
    the text of [strerror(errno)] is left out. *)
Inductive diagnostic :=
| ErrResize                              (* could not resize command list *)
| ErrUpdate                              (* could not update command list *)
| ErrAllocName                           (* could not allocate memory for command name *)
| ErrLoadStdin                           (* could not load commands from stdin *)
| ErrLoad (path : cstr)                  (* could not load commands from '%s' *)
| ErrWalk (dir : cstr)                   (* unable to walk '%s' *)
| ErrNoCommands                          (* no commands found *)
| ErrFlush (tempname : cstr)             (* unable to flush changes to '%s' *)
| ErrRename (tempname path : cstr)       (* unable to rename '%s' to '%s' *)
| ErrMkstemp (tempname : cstr)           (* mkstemp: %s *)
| ErrTemp (tempname : cstr)              (* del: %s *)
| ErrUnlink (tempname : cstr)            (* could not delete temporary file '%s' *)
| ErrPipe                                (* could not create pipes ... *)
| ErrForkMenu                            (* could not fork to launch %s *)
| ErrClosePipe                           (* could not close unused write-end of pipe *)
| ErrFdopen                              (* could not execute fdopen on %s pipe *)
| ErrForkCommand                         (* could not fork to execute command *)
| ErrMissingNewline (command : cstr)     (* missing newline after '%s' *)
| ErrRead                                (* could not read %s output *)
| ErrCloseOutput                         (* unable to close %s output file *)
| ErrWait                                (* error waiting on %s *)
| ErrExitStatus (status : Z)             (* %s died with exit status %d *)
| ErrSignal (signum : Z).                (* %s received signal %d *)

Inductive event :=
| Added (name fpath : cstr)              (* printf("+ %s (%s)\n", ...) *)
| Dropped (entry : cstr)                 (* printf("- %s\n", entry) *)
| Stderr (d : diagnostic)
| Launch (command : cstr)                (* fork(); the child runs execlp(command, command, NULL) *)
| Kill (signum : Z)                      (* kill(menu_pid, signum) *)
| Waitpid.                               (* waitpid(menu_pid, &wait_status, 0) *)

Inductive errno :=
| E0 | EINVAL | ENOENT | EBADF | ENOTTY | EIO | EACCES | ENOMEM.

Definition errno_eqb (a b : errno) : bool :=
  match a, b with
  | E0, E0 | EINVAL, EINVAL | ENOENT, ENOENT | EBADF, EBADF
  | ENOTTY, ENOTTY | EIO, EIO | EACCES, EACCES | ENOMEM, ENOMEM => true
  | _, _ => false
  end.

(** The files of interest: a path names a file with these bytes, or none. *)
Definition filesystem := cstr -> option (list ascii).

Definition cstr_eqb (a b : cstr) : bool :=
  if list_eq_dec ascii_dec a b then true else false.

Definition fs_set (d : filesystem) (p : cstr) (v : option (list ascii))
  : filesystem :=
  fun q => if cstr_eqb q p then v else d q.

Record state := {
  commands : list cstr;        (* commands[0 .. command_count) *)
  max_commands : nat;
  malloc_failed : bool;
  heap : list bool;            (* answers to the coming malloc, realloc and
                                  strdup calls; when exhausted they succeed *)
  disk : filesystem;
  past : list filesystem;      (* the earlier contents of [disk], latest first *)
  out : list event             (* what has been printed, oldest first *)
}.

Definition command_count (s : state) : nat := length (commands s).

Definition M (A : Type) : Type := state -> A * state.

Definition ret {A} (a : A) : M A := fun s => (a, s).

Definition bind {A B} (m : M A) (k : A -> M B) : M B :=
  fun s => let (a, s') := m s in k a s'.

Declare Scope del_scope.
Delimit Scope del_scope with del.
Notation "x <- m ;; k" := (bind m (fun x => k))
  (at level 61, m at next level, right associativity) : del_scope.
Notation "m ;; k" := (bind m (fun _ => k))
  (at level 61, right associativity) : del_scope.
Local Open Scope del_scope.

Definition get : M state := fun s => (s, s).

Definition emit (e : event) : M unit := fun s =>
  (tt, {| commands := commands s; max_commands := max_commands s;
          malloc_failed := malloc_failed s; heap := heap s;
          disk := disk s; past := past s; out := out s ++ [e] |}).

Definition perror (d : diagnostic) : M unit := emit (Stderr d).

(** One allocation request. *)
Definition allocate : M bool := fun s =>
  match heap s with
  | [] => (true, s)
  | ok :: h =>
      (ok, {| commands := commands s; max_commands := max_commands s;
              malloc_failed := malloc_failed s; heap := h;
              disk := disk s; past := past s; out := out s |})
  end.

Definition set_max_commands (n : nat) : M unit := fun s =>
  (tt, {| commands := commands s; max_commands := n;
          malloc_failed := malloc_failed s; heap := heap s;
          disk := disk s; past := past s; out := out s |}).

Definition set_malloc_failed : M unit := fun s =>
  (tt, {| commands := commands s; max_commands := max_commands s;
          malloc_failed := true; heap := heap s;
          disk := disk s; past := past s; out := out s |}).

Definition set_commands (l : list cstr) : M unit := fun s =>
  (tt, {| commands := l; max_commands := max_commands s;
          malloc_failed := malloc_failed s; heap := heap s;
          disk := disk s; past := past s; out := out s |}).

(** A system call that changes the files: the old contents are kept in
    [past]. *)
Definition set_disk (d : filesystem) : M unit := fun s =>
  (tt, {| commands := commands s; max_commands := max_commands s;
          malloc_failed := malloc_failed s; heap := heap s;
          disk := d; past := disk s :: past s; out := out s |}).

(** ** stringcomparator (del.c:173) *)

Definition stringcomparator (a b : cstr) : Z := strcasecmp a b.

(** ** command_list_contains (del.c:188) *)

Definition command_list_contains (s : state) (needle : cstr) : bool :=
  existsb (fun c => strcasecmp c needle =? 0) (commands s).

(** ** add_command_to_list (del.c:211) *)

Definition INCREMENTAL_ALLOCATION_SIZE : nat := 64.

Definition add_command_to_list (command : cstr) : M Z :=
  s <- get ;;
  grown <-
    (if (max_commands s <=? command_count s)%nat then
       set_max_commands (max_commands s + INCREMENTAL_ALLOCATION_SIZE) ;;
       ok <- allocate ;;                                   (* realloc *)
       if ok then ret true
       else
         set_max_commands (max_commands s) ;;
         perror ErrResize ;;
         set_malloc_failed ;;
         ret false
     else ret true) ;;
  if negb grown then ret 1
  else
    ok <- allocate ;;                                      (* strdup *)
    if ok then
      set_commands (commands s ++ [command]) ;;
      ret 0
    else
      perror ErrUpdate ;;
      set_malloc_failed ;;
      ret 1.

(** ** parse_desktop_entry (del.c:336) *)

(** The locals of the getline loop that outlive one line. [command] is the
    string held in the [command] buffer. [command_basename] points into that
    buffer; it is held here by value, which is the same as long as it is
    read only while [command[0]] is not NUL: each store of a token is
    followed by a new call of basename, and the only other store is
    [command[0] = '\0']. [None] is the NULL pointer. *)
Record entry_scan := {
  inside_desktop_entry : bool;
  command : cstr;
  command_basename : option cstr
}.

Definition entry_scan_init : entry_scan :=
  {| inside_desktop_entry := false; command := []; command_basename := None |}.

(** [!strchr(command + 1, '=') && command[0] != '-'] (line 385). *)
Definition is_command_word (token : cstr) : bool :=
  negb (strchr (tl token) "=") && negb (Ascii.eqb (hd NUL token) "-").

Definition inspect {A} (a : A) : {b : A | a = b} := exist _ a eq_refl.

(** The [while] loop of lines 384-392 over the input at [line + offset]:
    the [command] buffer and [command_basename] when it ends. *)
Equations? env_loop (rest : cstr) (cmd : cstr) (base : option cstr)
  : cstr * option cstr by wf (length rest) lt :=
  env_loop rest cmd base with inspect (sscanf_token rest) := {
    | exist _ None _ => (cmd, base);
    | exist _ (Some (token, rest')) _ =>
        if is_command_word token then (token, Some (basename token))
        else env_loop rest' [] base }.
Proof.
  clear env_loop.
  unfold sscanf_token, scan_string in *.
  assert (Hskip : forall s, (length (skip_space s) <= length s)%nat).
  { induction s as [|c s IH]; simpl; [lia|].
    destruct (isspace c); simpl; lia. }
  assert (Hfield : forall w s t r, scan_field w s = (t, r) ->
                     (length t + length r = length s)%nat).
  { induction w as [|w IH]; intros s t r H; simpl in H.
    - inversion H; reflexivity.
    - destruct s as [|c s]; [inversion H; reflexivity|].
      destruct (isspace c); [inversion H; reflexivity|].
      destruct (scan_field w s) as [t' r'] eqn:E.
      inversion H; subst. specialize (IH _ _ _ E). simpl; lia. }
  destruct (scan_field command_width (skip_space rest)) as [t r] eqn:E.
  destruct t as [|c t]; [discriminate|].
  match goal with H : Some _ = Some _ |- _ => inversion H; subst end.
  specialize (Hfield _ _ _ _ E).
  pose proof (Hskip rest). pose proof (Hskip r). simpl in Hfield. lia.
Qed.

(** One turn of the getline loop (lines 369-394) on the string [line]:
    the locals after it and whether the loop was left by [break]. *)
Definition scan_line (st : entry_scan) (line : cstr) : entry_scan * bool :=
  if negb (inside_desktop_entry st) then
    ({| inside_desktop_entry :=
          strcasecmp (str "[Desktop Entry]" ++ [LF]) line =? 0;
        command := command st;
        command_basename := command_basename st |}, false)
  else
    match
      match sscanf_key (str "NoDisplay") 5 line with
      | Some v => Some v
      | None => sscanf_key (str "Terminal") 5 line
      end
    with
    | Some (boolean_value_string, _) =>
        if strcasecmp (str "true") boolean_value_string =? 0 then
          ({| inside_desktop_entry := true;
              command := [];
              command_basename := command_basename st |}, true)
        else (st, false)
    | None =>
        match sscanf_exec line with
        | Some (token, rest) =>
            let base := basename token in
            let (cmd, base') :=
              if strcmp base (str "env") =? 0
              then env_loop rest token (Some base)
              else (token, Some base) in
            ({| inside_desktop_entry := true;
                command := cmd;
                command_basename := base' |}, false)
        | None => (st, false)
        end
    end.

(** The getline loop over the lines of the file. *)
Fixpoint scan_lines (st : entry_scan) (lines : list (list ascii))
  : entry_scan :=
  match lines with
  | [] => st
  | line :: rest =>
      let (st', stop) := scan_line st (c_str line) in
      if stop then st' else scan_lines st' rest
  end.

(** getline(3) cuts a stream after each newline. *)
Fixpoint getlines (bytes : list ascii) : list (list ascii) :=
  match bytes with
  | [] => []
  | c :: rest =>
      if Ascii.eqb c LF then [c] :: getlines rest
      else match getlines rest with
           | l :: ls => (c :: l) :: ls
           | [] => [[c]]
           end
  end.

(** Lines 362-363: the file name ends with ".desktop". *)
Definition has_extension (fpath : cstr) : bool :=
  (8 <=? strlen fpath)%nat &&
  (strcmp (skipn (strlen fpath - 8) fpath) (str ".desktop") =? 0).

(** Lines 407-412. *)
Definition is_upper (c : ascii) : bool := (65 <=? uchar c) && (uchar c <=? 90).

Definition lower (c : ascii) : ascii :=
  if is_upper c then ascii_of_N (N_of_ascii c + 32) else c.

(** A file met by nftw(3): its path and what fopen(fpath, "r") and the
    reads give ([None]: the file cannot be opened). *)
Record visit := {
  fpath : cstr;
  opened : option (list ascii)
}.

Definition parse_desktop_entry (env : environ) (v : visit) : M Z :=
  if negb (has_extension (fpath v)) then ret 0
  else
    match opened v with
    | None => ret 0
    | Some bytes =>
        let st := scan_lines entry_scan_init (getlines bytes) in
        s <- get ;;
        match command st, command_basename st with
        | [], _ => ret 0
        | _, None => ret 0                    (* not reached, see above *)
        | _ :: _, Some base =>
            if command_list_contains s base then ret 0
            else
              ok <- allocate ;;                          (* strdup *)
              if negb ok then perror ErrAllocName ;; ret 1
              else
                let lowercase_basename := map lower base in
                let case_changed := existsb is_upper base in
                (if resolves env lowercase_basename then
                   emit (Added lowercase_basename (fpath v)) ;;
                   r <- add_command_to_list lowercase_basename ;; ret tt
                 else if case_changed && resolves env base then
                   emit (Added base (fpath v)) ;;
                   r <- add_command_to_list base ;; ret tt
                 else ret tt) ;;
                s' <- get ;;
                ret (if malloc_failed s' then 1 else 0)
        end
    end.

(** ** load_commands_from_file (del.c:440) *)

(** An open [FILE *]: the bytes the reads deliver, and how the stream ends:
    [None] at end of file, [Some e] when getline returns -1 on a read error
    that sets errno to [e]. *)
Record stream := {
  text : list ascii;
  read_error : option errno
}.

(** [line_length >= 1 && line[line_length - 1] == '\n'], the test of lines
    457 and 667 on what getline has read. *)
Definition complete (line : list ascii) : bool :=
  (1 <=? length line)%nat && Ascii.eqb (last line NUL) LF.

(** Lines 457-459: one final newline is replaced by the terminator. *)
Definition chomp (entry : list ascii) : list ascii :=
  if complete entry then removelast entry else entry.

(** The getline loop of lines 456-467; the value is [failed]. *)
Fixpoint load_loop (env : environ) (lines : list (list ascii)) : M Z :=
  match lines with
  | [] => ret 0
  | line :: rest =>
      let entry := c_str (chomp line) in
      if resolves env entry then
        failed <- add_command_to_list entry ;;
        if failed =? 0 then load_loop env rest else ret failed
      else
        emit (Dropped entry) ;;
        load_loop env rest
  end.

(** What fopen(path, "r") gives. *)
Inductive fopen_result :=
| Opened (f : stream)
| OpenFailed (e : errno).

(** How reading the files goes wrong, beyond a missing file. *)
Record faults := {
  fopen_fault : cstr -> option errno;   (* fopen fails although the file exists *)
  read_fault : cstr -> option errno     (* a read error at the end of the text *)
}.

Definition fopen_r (fl : faults) (d : filesystem) (path : cstr) : fopen_result :=
  match fopen_fault fl path with
  | Some e => OpenFailed e
  | None =>
      match d path with
      | None => OpenFailed ENOENT
      | Some bytes => Opened {| text := bytes; read_error := read_fault fl path |}
      end
  end.

(** The value is the [int] returned and errno at the return. *)
Definition load_commands_from_file (env : environ) (fl : faults)
  (path : option cstr) (file : option stream) : M (Z * errno) :=
  s <- get ;;
  match path, file with
  | Some _, Some _ | None, None => ret (1, EINVAL)
  | _, _ =>
      match
        match path, file with
        | Some p, _ => fopen_r fl (disk s) p
        | None, Some f => Opened f
        | None, None => OpenFailed EINVAL
        end
      with
      | OpenFailed e => ret (1, e)
      | Opened f =>
          failed <- load_loop env (getlines (text f)) ;;
          match failed, read_error f with
          | 0, Some e => ret (1, e)           (* !failed && !feof(file) *)
          | _, _ => ret (failed, E0)
          end
      end
  end.

(** ** refresh_command_list (del.c:508) *)

(** Standard input as isatty(3) sees it. *)
Inductive stdin_state :=
| StdinTty                       (* isatty(0) == 1 *)
| StdinClosed                    (* isatty(0) == 0, errno == EBADF *)
| StdinFile (f : stream).        (* isatty(0) == 0, errno == ENOTTY *)

(** nftw(3) on one directory: the files it meets, in order, and the value
    it returns when no call of the function stops it (0, or -1). *)
Record walk := {
  visits : list visit;
  walk_status : Z
}.

(** What the system answers during a refresh. *)
Record refresh_oracle := {
  stdin : stdin_state;
  io_faults : faults;
  nftw_walk : cstr -> walk;
  mkstemp_suffix : option cstr;  (* the bytes mkstemp puts for "XXXXXX";
                                    [None]: mkstemp returns -1 *)
  mkstemp_left : cstr;           (* the bytes that a failing mkstemp leaves
                                    in the place of "XXXXXX" *)
  fdopen_ok : bool;
  fprintf_ok : nat -> bool;      (* does the fprintf of turn [i] succeed *)
  fflush_ok : bool;
  fsync_ok : bool;
  fclose_ok : bool;
  rename_ok : bool;
  unlink_ok : bool
}.

(** nftw(3) calls the function on each file and stops at the first call that
    does not return 0. *)
Fixpoint nftw_visits (env : environ) (vs : list visit) : M Z :=
  match vs with
  | [] => ret 0
  | v :: rest =>
      r <- parse_desktop_entry env v ;;
      if r =? 0 then nftw_visits env rest else ret r
  end.

Definition nftw (env : environ) (o : refresh_oracle) (dir : cstr) : M Z :=
  r <- nftw_visits env (visits (nftw_walk o dir)) ;;
  if r =? 0 then ret (walk_status (nftw_walk o dir)) else ret r.

(** The [for] loop of lines 535-542; the value is 1 when the function
    returns from inside the loop. *)
Fixpoint walk_dirs (env : environ) (o : refresh_oracle) (dirs : list cstr)
  : M Z :=
  match dirs with
  | [] => ret 0
  | dir :: rest =>
      r <- nftw env o dir ;;
      if r =? 0 then walk_dirs env o rest
      else
        s <- get ;;
        (if malloc_failed s then ret tt else perror (ErrWalk dir)) ;;
        ret 1
  end.

(** Lines 517-548: the three sources of commands. The value is 1 when the
    function returns from there. *)
Definition gather (env : environ) (o : refresh_oracle) (path : cstr)
  (dirs : list cstr) : M Z :=
  r1 <- match stdin o with
        | StdinFile f =>
            r <- load_commands_from_file env (io_faults o) None (Some f) ;;
            if fst r =? 0 then ret 0 else perror ErrLoadStdin ;; ret 1
        | _ => ret 0
        end ;;
  if negb (r1 =? 0) then ret 1
  else
    r <- load_commands_from_file env (io_faults o) (Some path) None ;;
    if negb (fst r =? 0) && negb (errno_eqb (snd r) ENOENT)
    then perror (ErrLoad path) ;; ret 1
    else
      match dirs with
      | [] => walk_dirs env o [str "/"]
      | _ => walk_dirs env o dirs
      end.

(** The [for] loop of lines 565-571 from turn [i] on: [prev] is
    [commands[i - 1]], [written] what the file holds. The value tells
    whether every fprintf succeeded, with the bytes written. *)
Fixpoint write_commands (o : refresh_oracle) (i : nat) (prev : option cstr)
  (sorted : list cstr) (written : list ascii) : bool * list ascii :=
  match sorted with
  | [] => (true, written)
  | c :: rest =>
      if match prev with
         | None => true
         | Some p => negb (strcmp p c =? 0)
         end
      then
        if fprintf_ok o i
        then write_commands o (S i) (Some c) rest (written ++ c ++ [LF])
        else (false, written)
      else write_commands o (S i) (Some c) rest written
  end.

(** The label [error:] (lines 581-591). *)
Definition persist_error (o : refresh_oracle) (created : bool)
  (tempname : cstr) : M Z :=
  (if negb created then perror (ErrMkstemp tempname)
   else
     perror (ErrTemp tempname) ;;
     if unlink_ok o then
       s <- get ;; set_disk (fs_set (disk s) tempname None)
     else perror (ErrUnlink tempname)) ;;
  ret 1.

(** Lines 555-591. [qsort] stands for qsort(3) with [stringcomparator].
    When mkstemp fails, the message of line 583 prints [tempname] as
    mkstemp left it, which need not be the template any more.
    A [path] of [PATH_MAX] bytes or more, which [tempname] has no room for,
    is not given a case: no file of such a name can be opened. *)
Definition persist (qsort : list cstr -> list cstr) (o : refresh_oracle)
  (path : cstr) : M Z :=
  match mkstemp_suffix o with
  | None => persist_error o false (path ++ mkstemp_left o)
  | Some suffix =>
      let tempname := path ++ suffix in
      s <- get ;;
      set_disk (fs_set (disk s) tempname (Some [])) ;;
      if negb (fdopen_ok o) then persist_error o true tempname
      else
        let sorted := qsort (commands s) in
        set_commands sorted ;;
        let (ok, written) := write_commands o 0 None sorted [] in
        s1 <- get ;;
        set_disk (fs_set (disk s1) tempname (Some written)) ;;
        if negb ok then persist_error o true tempname
        else if negb (fflush_ok o && fsync_ok o && fclose_ok o) then
          perror (ErrFlush tempname) ;;
          persist_error o true tempname
        else if negb (rename_ok o) then
          perror (ErrRename tempname path) ;;
          persist_error o true tempname
        else
          s2 <- get ;;
          set_disk (fs_set (fs_set (disk s2) path (disk s2 tempname))
                           tempname None) ;;
          ret 0
  end.

Definition refresh_command_list (qsort : list cstr -> list cstr)
  (env : environ) (o : refresh_oracle) (path : cstr) (dirs : list cstr)
  : M Z :=
  r <- gather env o path dirs ;;
  if negb (r =? 0) then ret 1
  else
    s <- get ;;
    if (command_count s =? 0)%nat then
      perror ErrNoCommands ;;
      ret 1
    else persist qsort o path.

(** ** menu (del.c:613) *)

(** What waitpid(menu_pid, &wait_status, 0) reports. *)
Inductive wait_result :=
| WaitFailed                     (* waitpid returns -1 *)
| WExited (status : Z)           (* WIFEXITED, with WEXITSTATUS *)
| WSignaled (signum : Z)         (* WIFSIGNALED, with WTERMSIG *)
| WOther.                        (* neither: the loop calls waitpid again *)

(** What the system answers to the parent process during [menu]. The
    children are processes of their own: of the menu the parent sees the
    bytes that arrive on the pipe and the wait status, of a launched
    command nothing. *)
Record menu_oracle := {
  pipe_ok : bool;                (* pipe(pipefds) == 0 *)
  fork_menu_ok : bool;           (* the first fork() does not return -1 *)
  close_pipe_ok : bool;          (* close(pipefds[1]) == 0 *)
  fdopen_pipe_ok : bool;         (* fdopen(pipefds[0], "r") != NULL *)
  menu_output : stream;          (* what the menu writes to the pipe *)
  forks : list bool;             (* answers to the coming fork() calls of the
                                    loop; when exhausted they succeed *)
  fclose_output_ok : bool;       (* fclose(menu_output) == 0 *)
  waits : list wait_result       (* answers to the coming waitpid calls *)
}.

Definition SIGHUP : Z := 1.

(** The [while] loop of lines 665-689: [failure] when it ends and what the
    parent did. *)
Fixpoint selection_loop (lines : list (list ascii)) (forks : list bool)
  : Z * list event :=
  match lines with
  | [] => (0, [])
  | line :: rest =>
      if complete line then
        let command := c_str (removelast line) in
        match forks with
        | false :: _ => (1, [Stderr ErrForkCommand])
        | _ =>
            let (failure, evs) := selection_loop rest (tl forks) in
            (failure, Launch command :: evs)
        end
      else
        let (failure, evs) := selection_loop rest forks in
        (failure, Stderr (ErrMissingNewline (c_str line)) :: evs)
  end.

(** Lines 659-700: [failure] after the pipe has been read and closed. *)
Definition read_selections (o : menu_oracle) : Z * list event :=
  if negb (close_pipe_ok o) then (1, [Stderr ErrClosePipe])
  else if negb (fdopen_pipe_ok o) then (1, [Stderr ErrFdopen])
  else
    let (failure, evs) :=
      selection_loop (getlines (text (menu_output o))) (forks o) in
    let (failure', evs') :=
      match failure, read_error (menu_output o) with
      | 0, Some _ => (1, [Stderr ErrRead])           (* !feof(menu_output) *)
      | _, _ => (failure, [])
      end in
    (failure',
     evs ++ evs' ++
     (if fclose_output_ok o then [] else [Stderr ErrCloseOutput])).

(** The [while (1)] loop of lines 706-725; [None] when no answer of
    waitpid ends it. *)
Fixpoint wait_loop (ws : list wait_result) (failure menu_kill_signal : Z)
  : option (Z * list event) :=
  match ws with
  | [] => None
  | WaitFailed :: _ =>
      Some (if failure =? 0 then 2 else failure, [Waitpid; Stderr ErrWait])
  | WExited status :: _ =>
      if (failure =? 0) && negb (status =? 0)
      then Some (status, [Waitpid; Stderr (ErrExitStatus status)])
      else Some (failure, [Waitpid])
  | WSignaled signum :: _ =>
      if negb (signum =? menu_kill_signal)
      then Some (if failure =? 0 then 128 + signum else failure,
                 [Waitpid; Stderr (ErrSignal signum)])
      else Some (failure, [Waitpid])
  | WOther :: rest =>
      match wait_loop rest failure menu_kill_signal with
      | Some (r, evs) => Some (r, Waitpid :: evs)
      | None => None
      end
  end.

Definition menu (o : menu_oracle) : option (Z * list event) :=
  if negb (pipe_ok o) then Some (1, [Stderr ErrPipe])
  else if negb (fork_menu_ok o) then Some (1, [Stderr ErrForkMenu])
  else
    let (failure, evs) := read_selections o in
    let (menu_kill_signal, kill) :=
      if failure =? 1 then (SIGHUP, [Kill SIGHUP]) else (0, []) in
    match wait_loop (waits o) failure menu_kill_signal with
    | Some (r, evs') => Some (r, evs ++ kill ++ evs')
    | None => None
    end.

(** ** main (del.c:730)

    getopt(3) is not modelled: the values that it returns and where it
    leaves [optind] are read from an oracle. What main prints itself is
    returned as a list of messages. *)

Definition DEFAULT_COMMAND_LIST_BASENAME : cstr := str ".del".

Definition DEFAULT_MENU_COMMAND : cstr := str "dmenu".

Inductive action_et := REFRESH_COMMAND_LIST | LAUNCH_MENU.

(** What getopt(argc, argv, "+hf:r") returns before it returns -1. *)
Inductive getopt_result :=
| OptH                         (* 'h' *)
| OptF (optarg : cstr)         (* 'f' and its argument *)
| OptR                         (* 'r' *)
| OptPlus                      (* '+', from a getopt for which it is no flag *)
| OptOther.                    (* '?' or any other value *)

(** What main itself prints. *)
Inductive main_message :=
| Usage (self : option cstr)   (* usage(argv[0]) *)
| ErrInvalidOption             (* invalid option -- '+' *)
| ErrHomeUnset                 (* HOME is unset; use "-f" to specify list path *)
| ErrAllocPath.                (* could not allocate memory for filename *)

(** The [while] loop of lines 743-765: [inl] is a return from inside the
    loop, [inr] the two locals when getopt returns -1. *)
Fixpoint option_loop (self : option cstr) (results : list getopt_result)
  (command_list_path : option cstr) (action : action_et)
  : Z * list main_message + option cstr * action_et :=
  match results with
  | [] => inr (command_list_path, action)
  | OptH :: _ => inl (0, [Usage self])
  | OptF optarg :: rest => option_loop self rest (Some optarg) action
  | OptR :: rest => option_loop self rest command_list_path REFRESH_COMMAND_LIST
  | OptPlus :: _ => inl (1, [ErrInvalidOption])
  | OptOther :: _ => inl (1, [])
  end.

(** The bytes of an allocated block. An access is [None] when it falls
    outside the block. *)
Definition block := list ascii.

(** [buf[i] = c]. *)
Definition poke (buf : block) (i : nat) (c : ascii) : option block :=
  if (i <? length buf)%nat
  then Some (firstn i buf ++ c :: skipn (S i) buf)
  else None.

(** strcpy(buf + off, src): the bytes of [src] and the terminator. *)
Definition strcpy_at (buf : block) (off : nat) (src : cstr) : option block :=
  if (off + strlen src + 1 <=? length buf)%nat
  then Some (firstn off buf ++ src ++ NUL :: skipn (off + strlen src + 1) buf)
  else None.

(** The length of the string that starts the bytes; [None] when no
    terminator follows inside the block. *)
Fixpoint strlen_in (bytes : list ascii) : option nat :=
  match bytes with
  | [] => None
  | c :: rest =>
      if Ascii.eqb c NUL then Some 0%nat else option_map S (strlen_in rest)
  end.

(** strcat(buf + off, src). *)
Definition strcat_at (buf : block) (off : nat) (src : cstr) : option block :=
  match strlen_in (skipn off buf) with
  | Some len => strcpy_at buf (off + len) src
  | None => None
  end.

(** Lines 774-789 on the block that malloc returned, of
    [sizeof(".del") + strlen_home + 1] bytes. *)
Definition default_command_list_path (home : cstr) (fresh : block)
  : option block :=
  let strlen_home := strlen home in
  match strcpy_at fresh 0 home with
  | None => None
  | Some b1 =>
      match strlen_home with
      | O => None              (* command_list_path[strlen_home - 1] *)
      | S before_last =>
          match nth_error b1 before_last with
          | None => None
          | Some c =>
              if negb (Ascii.eqb c "/") then
                match poke b1 strlen_home "/" with
                | None => None
                | Some b2 =>
                    match poke b2 (strlen_home + 1) NUL with
                    | None => None
                    | Some b3 =>
                        strcat_at b3 (strlen_home + 1)
                          DEFAULT_COMMAND_LIST_BASENAME
                    end
                end
              else strcat_at b1 strlen_home DEFAULT_COMMAND_LIST_BASENAME
          end
      end
  end.

(** Lines 799-802: the argument vector that [menu] is given. [None] is an
    access outside [argv], which holds [argc] strings and a final NULL. *)
Definition menu_argv (argv : list cstr) (optind : nat)
  : option (list cstr) :=
  if (length argv <? optind)%nat then None
  else if match nth_error argv optind with
          | None => true                          (* !menu_argv0 *)
          | Some menu_argv0 => Ascii.eqb (hd NUL menu_argv0) "-"
          end
  then match optind with
       | O => None                                (* argv[-1] = "dmenu" *)
       | S _ => Some (DEFAULT_MENU_COMMAND :: skipn optind argv)
       end
  else Some (skipn optind argv).

(** What the system answers to main. getopt(3) is an oracle: the values it
    returns before -1, and [optind] after that. *)
Record main_oracle := {
  getopt_results : list getopt_result;
  optind : nat;
  getenv_HOME : option cstr;           (* getenv("HOME") *)
  uninitialised : nat -> ascii         (* the bytes of a fresh block *)
}.

(** Lines 743-805 up to the call of the action. *)
Inductive dispatch :=
| Return (status : Z) (messages : list main_message)
| Refresh (path : cstr) (dirs : list cstr)
| Menu (path : cstr) (argv : list cstr)
| OutOfBounds.

Definition main_dispatch (mo : main_oracle) (argv : list cstr) : M dispatch :=
  match option_loop (hd_error argv) (getopt_results mo) None LAUNCH_MENU with
  | inl (status, messages) => ret (Return status messages)
  | inr (command_list_path, action) =>
      found <-
        match command_list_path with
        | Some path => ret (inr path)
        | None =>
            match getenv_HOME mo with
            | None => ret (inl (Return 1 [ErrHomeUnset]))
            | Some home =>
                let size :=
                  (S (strlen DEFAULT_COMMAND_LIST_BASENAME) + strlen home + 1)%nat in
                ok <- allocate ;;                           (* malloc *)
                if negb ok then ret (inl (Return 1 [ErrAllocPath]))
                else
                  match default_command_list_path home
                          (map (uninitialised mo) (seq 0 size)) with
                  | None => ret (inl OutOfBounds)
                  | Some b => ret (inr (c_str b))
                  end
            end
        end ;;
      match found with
      | inl d => ret d
      | inr path =>
          if (length argv <? optind mo)%nat then ret OutOfBounds
          else
            match action with
            | REFRESH_COMMAND_LIST =>
                ret (Refresh path (skipn (optind mo) argv))
            | LAUNCH_MENU =>
                match menu_argv argv (optind mo) with
                | Some a => ret (Menu path a)
                | None => ret OutOfBounds
                end
            end
      end
  end.

Inductive main_result :=
| Exit (status : Z)            (* the value that main returns *)
| Undefined                    (* an access outside an object *)
| Hang.                        (* no answer of waitpid ends the wait *)

Definition main (qsort : list cstr -> list cstr) (env : environ)
  (mo : main_oracle) (ro : refresh_oracle) (uo : menu_oracle)
  (argv : list cstr) : M main_result :=
  d <- main_dispatch mo argv ;;
  match d with
  | Return status _ => ret (Exit status)
  | Refresh path dirs =>
      r <- refresh_command_list qsort env ro path dirs ;;
      ret (Exit r)
  | Menu _ _ =>
      ret (match menu uo with
           | Some (r, _) => Exit r
           | None => Hang
           end)
  | OutOfBounds => ret Undefined
  end.

(** ** Definitions for stating the properties *)

(** qsort(3) leaves the order of elements that compare equal open: it gives
    some arrangement of the array in which no element compares greater
    than its successor. *)
Definition ci_le (a b : cstr) : Prop := stringcomparator a b <= 0.

Definition qsort_spec (qsort : list cstr -> list cstr) : Prop :=
  forall l, Permutation l (qsort l) /\ Sorted ci_le (qsort l).

(** One qsort: insertion sort. *)
Fixpoint insert_command (x : cstr) (l : list cstr) : list cstr :=
  match l with
  | [] => [x]
  | y :: l' =>
      if stringcomparator x y <=? 0 then x :: l else y :: insert_command x l'
  end.

Definition insertion_sort (l : list cstr) : list cstr :=
  fold_right insert_command [] l.

(** The key that strcasecmp compares: the lower-cased string. *)
Definition casefold (s : cstr) : cstr := map tolower (c_str s).

(** No two entries of the registry are equal under strcasecmp. *)
Definition registry_unique (cmds : list cstr) : Prop :=
  forall i j a b,
    i <> j -> nth_error cmds i = Some a -> nth_error cmds j = Some b ->
    strcasecmp a b <> 0.

(** The lines of a list file. *)
Definition file_of (names : list cstr) : list ascii :=
  concat (map (fun c => c ++ [LF]) names).

(** The entries that the loop of lines 565-571 prints when every fprintf
    succeeds: those that strcmp tells from the entry before. *)
Fixpoint printed (prev : option cstr) (sorted : list cstr) : list cstr :=
  match sorted with
  | [] => []
  | c :: rest =>
      if match prev with
         | None => true
         | Some p => negb (strcmp p c =? 0)
         end
      then c :: printed (Some c) rest
      else printed (Some c) rest
  end.

(** The colon-separated components of a search path. *)
Fixpoint split_colon (s : cstr) : list cstr :=
  match s with
  | [] => [[]]
  | c :: s' =>
      if Ascii.eqb c ":" then [] :: split_colon s'
      else match split_colon s' with
           | h :: t => (c :: h) :: t
           | [] => [[c]]
           end
  end.

(** The directory prefix that a component stands for: "./" for the empty
    one, else the component followed by a '/' unless it ends with one. *)
Definition prefix_of (component : cstr) : cstr :=
  match component with
  | [] => str "./"
  | _ => if Ascii.eqb (last component NUL) "/" then component
         else component ++ str "/"
  end.

(** Does the static buffer hold the prefix of a component. *)
Definition fits (env : environ) (component : cstr) : bool :=
  (length (prefix_of component) <=? PATH_MAX env)%nat.

(** The buffer holds the prefix of every component of [$PATH]. *)
Definition path_fits (env : environ) : bool :=
  match getenv_PATH env with
  | None => true
  | Some value => forallb (fits env) (split_colon value)
  end.

(** The search in the words of the description: the components in order,
    the first executable join wins, a join of [PATH_MAX] bytes or more
    fails the search with the length error. *)
Fixpoint first_match (env : environ) (command : cstr) (components : list cstr)
  : path_result :=
  match components with
  | [] => NotFound
  | comp :: rest =>
      let candidate := prefix_of comp ++ command in
      if (PATH_MAX env <=? length candidate)%nat then NameTooLong
      else if can_execute env candidate then Found candidate
      else first_match env command rest
  end.

(** The same search with the bound of the static buffer: a prefix that the
    buffer cannot hold is stored all the same, before the length is
    looked at. *)
Fixpoint search (env : environ) (command : cstr) (components : list cstr)
  : path_result :=
  match components with
  | [] => NotFound
  | comp :: rest =>
      let candidate := prefix_of comp ++ command in
      if negb (fits env comp) then BufferOverrun
      else if (PATH_MAX env <=? length candidate)%nat then NameTooLong
      else if can_execute env candidate then Found candidate
      else search env command rest
  end.

(** The white-space separated words of a string. A word starts at each
    byte that is not white space and follows white space or the start. *)
Fixpoint word (s : cstr) : cstr :=
  match s with
  | c :: s' => if isspace c then [] else c :: word s'
  | [] => []
  end.

Fixpoint words_from (at_start : bool) (s : cstr) : list cstr :=
  match s with
  | [] => []
  | c :: s' =>
      if isspace c then words_from true s'
      else if at_start then word s :: words_from false s'
      else words_from false s'
  end.

Definition words (s : cstr) : list cstr := words_from true s.

(** The candidate command of an Exec value, from its words: the first word,
    or if its base name is "env" the first later word that is neither an
    assignment nor an option. [Some []] is the emptied buffer: no
    command. *)
Definition candidate (ws : list cstr) : option cstr :=
  match ws with
  | [] => None
  | first :: later =>
      if strcmp (basename first) (str "env") =? 0 then
        match later with
        | [] => Some first
        | _ => match find is_command_word later with
               | Some w => Some w
               | None => Some []
               end
        end
      else Some first
  end.

(** The entry that the loader makes of a line, and the lines that a call
    of [load_commands_from_file] reads. *)
Definition entry_of (line : list ascii) : cstr := c_str (chomp line).

Definition source_lines (fl : faults) (d : filesystem) (path : option cstr)
  (file : option stream) : list (list ascii) :=
  match path, file with
  | Some p, None =>
      match fopen_r fl d p with
      | Opened f => getlines (text f)
      | OpenFailed _ => []
      end
  | None, Some f => getlines (text f)
  | _, _ => []
  end.

(** The line is a NoDisplay or Terminal key whose value is "true" in any
    case: the test of lines 371-373. *)
Definition disqualifying (line : cstr) : bool :=
  match
    match sscanf_key (str "NoDisplay") 5 line with
    | Some v => Some v
    | None => sscanf_key (str "Terminal") 5 line
    end
  with
  | Some (value, _) => strcasecmp (str "true") value =? 0
  | None => false
  end.

(** What is left of a string after its first word. *)
Fixpoint after_word (s : cstr) : cstr :=
  match s with
  | c :: s' => if isspace c then s else after_word s'
  | [] => []
  end.

Definition no_newline (s : list ascii) : Prop := ~ In LF s.

(** A fatal error during the setup or the reading of the selections: one of
    the four set-up calls fails, or the fork for one of the selections
    does, or the stream ends on a read error. *)
Definition fork_fails (o : menu_oracle) : bool :=
  existsb negb
    (firstn (length (filter complete (getlines (text (menu_output o)))))
       (forks o)).

Definition fatal_error (o : menu_oracle) : bool :=
  negb (pipe_ok o) || negb (fork_menu_ok o) ||
  negb (close_pipe_ok o) || negb (fdopen_pipe_ok o) ||
  fork_fails o ||
  match read_error (menu_output o) with Some _ => true | None => false end.

(** The status that [menu] returns, from whether a fatal error occurred and
    from what waitpid reports of the menu. *)
Definition reconcile (fatal : bool) (w : wait_result) : Z :=
  if fatal then 1
  else match w with
       | WaitFailed => 2
       | WExited status => status
       | WSignaled signum => 128 + signum
       | WOther => 0
       end.

(** The steps of the persistence and the first of them that fails. *)
Inductive persist_step :=
| StepMkstemp | StepFdopen | StepWrite | StepFlush | StepRename.

Definition first_failure (o : refresh_oracle) (sorted : list cstr)
  : option persist_step :=
  match mkstemp_suffix o with
  | None => Some StepMkstemp
  | Some _ =>
      if negb (fdopen_ok o) then Some StepFdopen
      else if negb (fst (write_commands o 0 None sorted [])) then Some StepWrite
      else if negb (fflush_ok o && fsync_ok o && fclose_ok o) then Some StepFlush
      else if negb (rename_ok o) then Some StepRename
      else None
  end.

(** What is printed about a failing step. *)
Definition reports (step : persist_step) (tempname path : cstr)
  : list event :=
  match step with
  | StepMkstemp => [Stderr (ErrMkstemp tempname)]
  | StepFdopen | StepWrite => [Stderr (ErrTemp tempname)]
  | StepFlush => [Stderr (ErrFlush tempname); Stderr (ErrTemp tempname)]
  | StepRename => [Stderr (ErrRename tempname path); Stderr (ErrTemp tempname)]
  end.

(** The name of the temporary file. *)
Definition tempname_of (o : refresh_oracle) (path : cstr) : cstr :=
  match mkstemp_suffix o with
  | Some suffix => path ++ suffix
  | None => path ++ mkstemp_left o
  end.

(** ** More definitions for stating the properties *)

(** The same system with another value of [$PATH]. *)
Definition with_PATH (env : environ) (value : cstr) : environ :=
  {| PATH_MAX := PATH_MAX env; getenv_PATH := Some value;
     access_X_OK := access_X_OK env; stat := stat env |}.

(** The line that opens the section of a desktop entry: the test of line
    370 on what getline has read. *)
Definition is_header (line : list ascii) : bool :=
  strcasecmp (str "[Desktop Entry]" ++ [LF]) (c_str line) =? 0.

(** A relation between the states before and after a computation that
    every run of the computation satisfies, and a property of the value
    that every run returns. *)
Definition preserves (R : state -> state -> Prop) {A} (m : M A) : Prop :=
  forall s, R s (snd (m s)).

Definition returns {A} (P : A -> Prop) (m : M A) : Prop :=
  forall s, P (fst (m s)).

(** The registry has grown at its end, by names that resolve. *)
Definition appends_resolving (env : environ) (s s' : state) : Prop :=
  exists added,
    commands s' = commands s ++ added /\
    Forall (fun c => resolves env c = true) added.

(** The array of line 99 has room for its entries, at most one chunk of
    slack, and a size that is a number of chunks. *)
Definition capacity_ok (s : state) : Prop :=
  (command_count s <= max_commands s)%nat /\
  (max_commands s <= command_count s + INCREMENTAL_ALLOCATION_SIZE)%nat /\
  exists k, max_commands s = (k * INCREMENTAL_ALLOCATION_SIZE)%nat.

Definition keeps_capacity (s s' : state) : Prop :=
  capacity_ok s -> capacity_ok s'.

(** Between [s] and [s'] the files were changed step by step, and no step
    changed a file that [keep] names: [mids] are the contents after each
    step, latest first. *)
Definition frame (keep : cstr -> Prop) (s s' : state) : Prop :=
  exists mids,
    disk s' :: past s' = mids ++ disk s :: past s /\
    Forall (fun d : filesystem => forall q, keep q -> d q = disk s q) mids.

(** A name that a line of a list file can hold. *)
Definition clean (c : cstr) : Prop := ~ In NUL c /\ no_newline c.

(** The kinds of events of the two phases of [menu]. *)
Definition reading_event (e : event) : Prop :=
  match e with Launch _ | Stderr _ => True | _ => False end.

Definition waiting_event (e : event) : Prop :=
  match e with Waitpid | Stderr _ => True | _ => False end.

(** The commands launched, in order. *)
Fixpoint launched (evs : list event) : list cstr :=
  match evs with
  | [] => []
  | Launch c :: rest => c :: launched rest
  | _ :: rest => launched rest
  end.

(** What the macros of <sys/wait.h> can give: an exit status is one byte,
    a signal number is positive. *)
Definition valid_wait (w : wait_result) : Prop :=
  match w with
  | WExited status => 0 <= status < 256
  | WSignaled signum => 0 < signum
  | _ => True
  end.

(** The lines of the menu's output that end with a newline, without it. *)
Definition selections (o : menu_oracle) : list cstr :=
  map entry_of (filter complete (getlines (text (menu_output o)))).

(** The options that only set a local of main, the list path that the
    options leave (that of the last -f) and the action (-r anywhere). *)
Definition is_setting (g : getopt_result) : bool :=
  match g with OptF _ | OptR => true | _ => false end.

Definition chosen_path (results : list getopt_result) : option cstr :=
  fold_left (fun acc g => match g with OptF p => Some p | _ => acc end)
    results None.

Definition chosen_action (results : list getopt_result) : action_et :=
  if existsb (fun g => match g with OptR => true | _ => false end) results
  then REFRESH_COMMAND_LIST else LAUNCH_MENU.

(** The call that main makes once the list path is known. *)
Definition chosen_dispatch (results : list getopt_result) (path : cstr)
  (argv : list cstr) (optind : nat) : dispatch :=
  match chosen_action results with
  | REFRESH_COMMAND_LIST => Refresh path (skipn optind argv)
  | LAUNCH_MENU =>
      match menu_argv argv optind with
      | Some a => Menu path a
      | None => OutOfBounds
      end
  end.

(** ** Concrete inputs *)

(** A system in which "ls" resolves to /bin/ls and nothing else does. *)
Definition ls_env : environ :=
  {| PATH_MAX := 4096;
     getenv_PATH := Some (str "/bin");
     access_X_OK := fun p => cstr_eqb p (str "/bin/ls");
     stat := fun p => if cstr_eqb p (str "/bin/ls") then Some S_IFREG else None |}.

Definition empty_state : state :=
  {| commands := []; max_commands := 0; malloc_failed := false; heap := [];
     disk := fun _ => None; past := []; out := [] |}.

Definition no_faults : faults :=
  {| fopen_fault := fun _ => None; read_fault := fun _ => None |}.

(** Standard input holding the line "ls" twice. *)
Definition ls_twice : stream :=
  {| text := str "ls" ++ [LF] ++ str "ls" ++ [LF]; read_error := None |}.

(** An environment in which [$PATH] is one component of 4097 bytes and
    [PATH_MAX] is 4096. *)
Definition long_PATH_env : environ :=
  {| PATH_MAX := 4096;
     getenv_PATH := Some (repeat "a"%char 4097);
     access_X_OK := fun _ => false;
     stat := fun _ => None |}.

(** A desktop entry for "ls" that asks for a terminal between two Exec
    lines. *)
Definition terminal_entry : visit :=
  {| fpath := str "/usr/share/applications/ls.desktop";
     opened := Some (file_of [str "[Desktop Entry]"; str "Exec=ls";
                              str "Terminal=TRUE"; str "Exec=ls"]) |}.

(** The same entry without the Terminal line. *)
Definition plain_entry : visit :=
  {| fpath := str "/usr/share/applications/ls.desktop";
     opened := Some (file_of [str "[Desktop Entry]"; str "Exec=ls";
                              str "Exec=ls"]) |}.

(** The locals of the scan right after the section header. *)
Definition inside_section : entry_scan :=
  {| inside_desktop_entry := true; command := []; command_basename := None |}.

(** A system in which "env" resolves to /usr/bin/env. *)
Definition usr_bin_env : environ :=
  {| PATH_MAX := 4096;
     getenv_PATH := Some (str "/usr/bin");
     access_X_OK := fun p => cstr_eqb p (str "/usr/bin/env");
     stat := fun p =>
       if cstr_eqb p (str "/usr/bin/env") then Some S_IFREG else None |}.

(** A desktop entry whose Exec value is the word "env" alone. *)
Definition env_alone_entry : visit :=
  {| fpath := str "/usr/share/applications/printenv.desktop";
     opened := Some (file_of [str "[Desktop Entry]"; str "Exec=env"]) |}.

(** A menu that prints nothing, while waitpid fails. *)
Definition lost_menu : menu_oracle :=
  {| pipe_ok := true; fork_menu_ok := true; close_pipe_ok := true;
     fdopen_pipe_ok := true;
     menu_output := {| text := []; read_error := None |};
     forks := []; fclose_output_ok := true; waits := [WaitFailed] |}.

(** A menu that prints "xterm" and "ls" and is killed by the SIGHUP that
    follows the failure of the second fork. *)
Definition second_fork_fails : menu_oracle :=
  {| pipe_ok := true; fork_menu_ok := true; close_pipe_ok := true;
     fdopen_pipe_ok := true;
     menu_output := {| text := file_of [str "xterm"; str "ls"];
                       read_error := None |};
     forks := [true; false]; fclose_output_ok := true;
     waits := [WSignaled SIGHUP] |}.

(** A menu that prints two commands and a third without its newline, then
    exits with status 0. *)
Definition unfinished_line : menu_oracle :=
  {| pipe_ok := true; fork_menu_ok := true; close_pipe_ok := true;
     fdopen_pipe_ok := true;
     menu_output := {| text := file_of [str "xterm"; str "ls"] ++ str "fire";
                       read_error := None |};
     forks := []; fclose_output_ok := true; waits := [WExited 0] |}.

(** A refresh in which every system call succeeds: standard input is
    [input], the directories hold no file, mkstemp puts "a1B2c3". *)
Definition smooth_refresh (input : stdin_state) : refresh_oracle :=
  {| stdin := input;
     io_faults := no_faults;
     nftw_walk := fun _ => {| visits := []; walk_status := 0 |};
     mkstemp_suffix := Some (str "a1B2c3");
     mkstemp_left := str "XXXXXX";
     fdopen_ok := true;
     fprintf_ok := fun _ => true;
     fflush_ok := true; fsync_ok := true; fclose_ok := true;
     rename_ok := true; unlink_ok := true |}.



(** A system in which both "Foo" and "foo" are programs of /bin. *)
Definition foo_env : environ :=
  {| PATH_MAX := 4096;
     getenv_PATH := Some (str "/bin");
     access_X_OK := fun p =>
       cstr_eqb p (str "/bin/Foo") || cstr_eqb p (str "/bin/foo");
     stat := fun p =>
       if cstr_eqb p (str "/bin/Foo") || cstr_eqb p (str "/bin/foo")
       then Some S_IFREG else None |}.

Definition del_list : cstr := str "/home/u/.del".

(** A state whose registry holds the given commands, over a disk that has
    an old list. *)
Definition state_with (cmds : list cstr) : state :=
  {| commands := cmds; max_commands := 64; malloc_failed := false;
     heap := [];
     disk := fun p => if cstr_eqb p del_list then Some (file_of [str "old"])
                      else None;
     past := []; out := [] |}.

(** A desktop entry with an Exec line before the section header, and the
    same entry without that line. *)
Definition preamble_entry : list ascii :=
  file_of [str "Exec=xterm"; str "[Desktop Entry]"; str "Exec=ls"].

Definition bare_entry : list ascii :=
  file_of [str "[Desktop Entry]"; str "Exec=ls"].

(** A desktop entry whose command is spelled with a capital. *)
Definition mixed_case_entry : visit :=
  {| fpath := str "/usr/share/applications/foo.desktop";
     opened := Some (file_of [str "[Desktop Entry]";
                              str "Exec=/opt/Foo --start"]) |}.

(** A list of three lines, the last unfinished, whose reading ends on an
    input error. *)
Definition failing_list : stream :=
  {| text := file_of [str "ls"; str "xterm"] ++ str "ls";
     read_error := Some EIO |}.

(** The state of a new process over the files that [s] has left. *)
Definition next_run (s : state) : state :=
  {| commands := []; max_commands := 0; malloc_failed := false; heap := [];
     disk := disk s; past := []; out := [] |}.

(** A refresh in which nftw reports a failure for every directory. *)
Definition unreadable_root : refresh_oracle :=
  {| stdin := StdinTty;
     io_faults := no_faults;
     nftw_walk := fun _ => {| visits := []; walk_status := -1 |};
     mkstemp_suffix := Some (str "a1B2c3");
     mkstemp_left := str "XXXXXX";
     fdopen_ok := true;
     fprintf_ok := fun _ => true;
     fflush_ok := true; fsync_ok := true; fclose_ok := true;
     rename_ok := true; unlink_ok := true |}.

(** Three command lines: "del -- -sb red" with HOME set, "del -f
    /tmp/list -h -r", and "del -f /tmp/old -r -f /home/u/.del /usr/share"
    with HOME unset. *)
Definition del_dashes : main_oracle :=
  {| getopt_results := []; optind := 2;
     getenv_HOME := Some (str "/home/u");
     uninitialised := fun _ => "x"%char |}.

Definition help_after_f : main_oracle :=
  {| getopt_results := [OptF (str "/tmp/list"); OptH; OptR]; optind := 4;
     getenv_HOME := None;
     uninitialised := fun _ => "x"%char |}.

Definition refresh_with_f : main_oracle :=
  {| getopt_results := [OptF (str "/tmp/old"); OptR; OptF del_list];
     optind := 6;
     getenv_HOME := None;
     uninitialised := fun _ => "x"%char |}.

(** The locals of the scan after a line "Exec=xterm". *)
Definition xterm_scanned : entry_scan :=
  {| inside_desktop_entry := true; command := str "xterm";
     command_basename := Some (str "xterm") |}.

(* ===================================================================== *)
(** * Part II: properties                                                 *)
(* ===================================================================== *)

(** ** Bytes and string comparison *)

Lemma uchar_range (c : ascii) : 0 <= uchar c < 256.
Proof.
  unfold uchar. pose proof (N_ascii_bounded c). lia.
Qed.

Lemma uchar_inj (c d : ascii) : uchar c = uchar d -> c = d.
Proof.
  unfold uchar. intros H.
  rewrite <- (ascii_N_embedding c), <- (ascii_N_embedding d).
  f_equal. lia.
Qed.

Lemma uchar_NUL (c : ascii) : uchar c = 0 <-> c = NUL.
Proof.
  split; [intros H; apply uchar_inj; exact H | intros ->; reflexivity].
Qed.

Lemma ascii_eqb_NUL (c : ascii) : Ascii.eqb c NUL = (uchar c =? 0).
Proof.
  destruct (Ascii.eqb_spec c NUL) as [->|Hne]; [reflexivity|].
  symmetry. apply Z.eqb_neq. intros H. apply Hne, uchar_NUL, H.
Qed.

Lemma lower_tolower (c : ascii) : lower c = tolower c.
Proof. reflexivity. Qed.

Lemma uchar_tolower (c : ascii) :
  uchar (tolower c) = if is_upper c then uchar c + 32 else uchar c.
Proof.
  unfold tolower, is_upper. pose proof (uchar_range c) as Hr.
  destruct ((65 <=? uchar c) && (uchar c <=? 90)) eqn:E; [|reflexivity].
  apply andb_true_iff in E. destruct E as [E1 E2].
  apply Z.leb_le in E1, E2.
  unfold uchar in *. rewrite N_ascii_embedding; lia.
Qed.

Lemma tolower_NUL (c : ascii) : uchar (tolower c) = 0 <-> uchar c = 0.
Proof.
  rewrite uchar_tolower. unfold is_upper.
  destruct ((65 <=? uchar c) && (uchar c <=? 90)) eqn:E; [|tauto].
  apply andb_true_iff in E. destruct E as [E1 E2].
  apply Z.leb_le in E1, E2. lia.
Qed.

Lemma tolower_idem (c : ascii) : tolower (tolower c) = tolower c.
Proof.
  apply uchar_inj. rewrite (uchar_tolower (tolower c)).
  unfold is_upper. rewrite uchar_tolower. unfold is_upper.
  destruct ((65 <=? uchar c) && (uchar c <=? 90)) eqn:E.
  - apply andb_true_iff in E. destruct E as [E1 E2].
    apply Z.leb_le in E1, E2.
    replace ((65 <=? uchar c + 32) && (uchar c + 32 <=? 90)) with false;
      [reflexivity|].
    symmetry. apply andb_false_iff. right. apply Z.leb_gt. lia.
  - rewrite E. reflexivity.
Qed.

Lemma strcmp_eq (a b : cstr) : strcmp a b = 0 <-> c_str a = c_str b.
Proof.
  revert b. induction a as [|c a IH]; intros [|d b]; simpl.
  - tauto.
  - rewrite ascii_eqb_NUL. pose proof (uchar_range d).
    destruct (Z.eqb_spec (uchar d) 0); split; intros; try lia; try discriminate;
      reflexivity.
  - rewrite ascii_eqb_NUL. pose proof (uchar_range c).
    destruct (Z.eqb_spec (uchar c) 0); split; intros; try lia; try discriminate;
      reflexivity.
  - rewrite !ascii_eqb_NUL.
    destruct (Z.eqb_spec (uchar c) (uchar d)) as [E|E].
    + rewrite <- E. apply uchar_inj in E. subst d.
      destruct (Z.eqb_spec (uchar c) 0); [tauto|].
      rewrite IH. split; [intros ->; reflexivity | intros H; inversion H; reflexivity].
    + destruct (Z.eqb_spec (uchar c) 0), (Z.eqb_spec (uchar d) 0);
        split; intros H; try lia; try discriminate.
      inversion H; subst. contradiction.
Qed.

Lemma strcasecmp_eq (a b : cstr) : strcasecmp a b = 0 <-> casefold a = casefold b.
Proof.
  unfold casefold.
  revert b. induction a as [|c a IH]; intros [|d b]; simpl.
  - tauto.
  - rewrite ascii_eqb_NUL. pose proof (uchar_range (tolower d)).
    pose proof (tolower_NUL d).
    destruct (Z.eqb_spec (uchar d) 0); split; intros; try lia; try discriminate;
      reflexivity.
  - rewrite ascii_eqb_NUL. pose proof (uchar_range (tolower c)).
    pose proof (tolower_NUL c).
    destruct (Z.eqb_spec (uchar c) 0); split; intros; try lia; try discriminate;
      reflexivity.
  - rewrite !ascii_eqb_NUL.
    pose proof (tolower_NUL c) as Hc. pose proof (tolower_NUL d) as Hd.
    destruct (Z.eqb_spec (uchar (tolower c)) (uchar (tolower d))) as [E|E].
    + destruct (Z.eqb_spec (uchar (tolower c)) 0) as [Z0|Z0].
      * assert (uchar c = 0) by tauto. assert (uchar d = 0) by (apply Hd; lia).
        destruct (Z.eqb_spec (uchar c) 0); [|lia].
        destruct (Z.eqb_spec (uchar d) 0); [|lia]. tauto.
      * destruct (Z.eqb_spec (uchar c) 0); [tauto|].
        destruct (Z.eqb_spec (uchar d) 0); [lia|].
        simpl. rewrite IH. apply uchar_inj in E. rewrite E.
        split; [intros ->; reflexivity | intros H; inversion H; reflexivity].
    + destruct (Z.eqb_spec (uchar c) 0), (Z.eqb_spec (uchar d) 0);
        simpl; split; intros H; try lia; try discriminate.
      inversion H. rewrite H1 in E. contradiction.
Qed.

Lemma strcmp_strcasecmp (a b : cstr) : strcmp a b = 0 -> strcasecmp a b = 0.
Proof.
  rewrite strcmp_eq, strcasecmp_eq. unfold casefold. intros ->. reflexivity.
Qed.

Lemma strcasecmp_refl (a : cstr) : strcasecmp a a = 0.
Proof. apply strcasecmp_eq. reflexivity. Qed.

Lemma strcasecmp_sym (a b : cstr) : strcasecmp a b = 0 -> strcasecmp b a = 0.
Proof. rewrite !strcasecmp_eq. auto. Qed.

Lemma strcasecmp_trans_eq (a b c : cstr) :
  strcasecmp a b = 0 -> strcasecmp b c = 0 -> strcasecmp a c = 0.
Proof. rewrite !strcasecmp_eq. congruence. Qed.

Lemma strcmp_trans_eq (a b c : cstr) :
  strcmp a b = 0 -> strcmp b c = 0 -> strcmp a c = 0.
Proof. rewrite !strcmp_eq. congruence. Qed.

Lemma strcmp_refl (a : cstr) : strcmp a a = 0.
Proof. apply strcmp_eq. reflexivity. Qed.

Ltac uchar_bounds :=
  repeat match goal with
  | c : ascii |- _ =>
      lazymatch goal with
      | _ : 0 <= uchar (tolower c) < 256 |- _ => fail
      | _ => pose proof (uchar_range (tolower c))
      end
  end.

Ltac split_eqb :=
  repeat match goal with
  | |- context [?p =? ?q] => destruct (Z.eqb_spec p q)
  end.

Lemma strcasecmp_trans (a b c : cstr) :
  strcasecmp a b <= 0 -> strcasecmp b c <= 0 -> strcasecmp a c <= 0.
Proof.
  revert b c. induction a as [|x a IH]; intros [|y b] [|z c]; simpl;
    uchar_bounds; split_eqb; try lia.
  apply IH.
Qed.

Lemma strcasecmp_total (a b : cstr) : strcasecmp a b <= 0 \/ strcasecmp b a <= 0.
Proof.
  revert b. induction a as [|x a IH]; intros [|y b]; simpl;
    uchar_bounds; split_eqb; try lia.
  apply IH.
Qed.

Lemma ci_le_trans : forall a b c, ci_le a b -> ci_le b c -> ci_le a c.
Proof. unfold ci_le, stringcomparator. exact strcasecmp_trans. Qed.

(** ** Insertion sort is a qsort *)

Lemma insert_command_perm (x : cstr) (l : list cstr) :
  Permutation (x :: l) (insert_command x l).
Proof.
  induction l as [|y l IH]; simpl; [reflexivity|].
  destruct (stringcomparator x y <=? 0); [reflexivity|].
  rewrite perm_swap. apply perm_skip, IH.
Qed.

Lemma insert_command_sorted (x : cstr) (l : list cstr) :
  Sorted ci_le l -> Sorted ci_le (insert_command x l).
Proof.
  induction 1 as [|y l Hs IH Hhd]; simpl.
  - repeat constructor.
  - destruct (Z.leb_spec (stringcomparator x y) 0) as [Hle|Hgt].
    + constructor; [constructor; assumption|]. constructor. exact Hle.
    + constructor; [exact IH|].
      assert (Hyx : ci_le y x).
      { destruct (strcasecmp_total y x) as [H|H]; [exact H|].
        unfold stringcomparator in Hgt. lia. }
      destruct l as [|z l]; simpl.
      * constructor. exact Hyx.
      * destruct (stringcomparator x z <=? 0); constructor;
          [exact Hyx | inversion Hhd; assumption].
Qed.

Lemma insertion_sort_qsort : qsort_spec insertion_sort.
Proof.
  intros l. unfold insertion_sort. induction l as [|x l [IHp IHs]]; simpl.
  - split; constructor.
  - split.
    + rewrite <- insert_command_perm. apply perm_skip, IHp.
    + apply insert_command_sorted, IHs.
Qed.

(** ** PathResolver: command_path *)

Section PathResolver.
Variable env : environ.
Variable command : cstr.

Lemma split_colon_cons (s : cstr) : exists h t, split_colon s = h :: t.
Proof.
  induction s as [|c s [h [t IH]]]; simpl; [eauto|].
  destruct (Ascii.eqb c ":"); [eauto|]. rewrite IH. eauto.
Qed.

Lemma prefix_of_length (comp : cstr) :
  (length comp <= length (prefix_of comp))%nat.
Proof.
  destruct comp as [|c comp]; [simpl; lia|].
  unfold prefix_of. destruct (Ascii.eqb _ _); [lia|].
  rewrite length_app. lia.
Qed.

Lemma close_prefix_spec (dest : cstr) :
  (length dest <= PATH_MAX env)%nat ->
  close_prefix env dest =
  if fits env dest then Some (prefix_of dest) else None.
Proof.
  intros Hlen. unfold fits, close_prefix, prefix_of, store.
  destruct dest as [|c dest].
  - simpl.
    destruct (PATH_MAX env) as [|[|n]]; reflexivity.
  - destruct (Ascii.eqb (last (c :: dest) NUL) "/").
    + destruct (Nat.leb_spec (length (c :: dest)) (PATH_MAX env)); [reflexivity|lia].
    + rewrite length_app. simpl length.
      destruct (Nat.ltb_spec (S (length dest)) (PATH_MAX env));
        destruct (Nat.leb_spec (S (length dest) + 1) (PATH_MAX env));
        try lia; reflexivity.
Qed.

Lemma try_prefix_spec (dest : cstr) (at_end : bool) :
  (length dest <= PATH_MAX env)%nat ->
  try_prefix env command dest at_end =
  let candidate := prefix_of dest ++ command in
  if negb (fits env dest) then inl BufferOverrun
  else if (PATH_MAX env <=? length candidate)%nat then inl NameTooLong
  else if can_execute env candidate then inl (Found candidate)
  else if at_end then inl NotFound else inr tt.
Proof.
  intros Hlen. unfold try_prefix. rewrite close_prefix_spec by exact Hlen.
  destruct (fits env dest); simpl; [|reflexivity].
  unfold strlen. rewrite length_app. reflexivity.
Qed.

Lemma path_loop_search (src dest : cstr) :
  (length dest <= PATH_MAX env)%nat ->
  path_loop env command src dest =
  match split_colon src with
  | h :: t => search env command ((dest ++ h) :: t)
  | [] => NotFound
  end.
Proof.
  revert dest. induction src as [|c src IH]; intros dest Hlen.
  - simpl. rewrite try_prefix_spec by exact Hlen. rewrite app_nil_r. simpl.
    destruct (fits env dest); simpl; [|reflexivity].
    destruct (PATH_MAX env <=? _)%nat; [reflexivity|].
    destruct (can_execute env _); reflexivity.
  - simpl. destruct (Ascii.eqb c ":").
    + rewrite try_prefix_spec by exact Hlen. rewrite app_nil_r. simpl.
      destruct (fits env dest); simpl; [|reflexivity].
      destruct (PATH_MAX env <=? _)%nat; [reflexivity|].
      destruct (can_execute env _); [reflexivity|].
      rewrite IH by (simpl; lia).
      destruct (split_colon_cons src) as [h [t E]]. rewrite E. reflexivity.
    + destruct (split_colon_cons src) as [h [t E]]. rewrite E.
      unfold store. destruct (Nat.ltb_spec (length dest) (PATH_MAX env)) as [Hlt|Hge].
      * rewrite IH by (rewrite length_app; simpl; lia).
        rewrite E, <- app_assoc. reflexivity.
      * simpl. unfold fits.
        pose proof (prefix_of_length (dest ++ c :: h)) as Hp.
        rewrite length_app in Hp. simpl in Hp.
        destruct (Nat.leb_spec (length (prefix_of (dest ++ c :: h))) (PATH_MAX env));
          [lia | reflexivity].
Qed.

(** Without a slash in the command, the lookup is the search over the
    components of [$PATH], the bound of the buffer included. *)
Lemma command_path_search (env_value : cstr) :
  strchr command "/" = false ->
  getenv_PATH env = Some env_value ->
  command_path env command = search env command (split_colon env_value).
Proof.
  intros Hslash Hpath. unfold command_path. rewrite Hslash, Hpath.
  rewrite path_loop_search by (simpl; lia).
  destruct (split_colon_cons env_value) as [h [t E]]. rewrite E. reflexivity.
Qed.
End PathResolver.

Lemma search_first_match (env : environ) (command : cstr) (comps : list cstr) :
  Forall (fun comp => fits env comp = true) comps ->
  search env command comps = first_match env command comps.
Proof.
  induction 1 as [|comp comps Hfit _ IH]; simpl; [reflexivity|].
  rewrite Hfit, IH. reflexivity.
Qed.

Lemma split_colon_first (comp rest : cstr) :
  ~ In ":"%char comp ->
  split_colon (comp ++ ":"%char :: rest) = comp :: split_colon rest.
Proof.
  induction comp as [|c comp IH]; intros Hn; simpl; [reflexivity|].
  destruct (Ascii.eqb_spec c ":") as [->|_]; [exfalso; apply Hn; left; reflexivity|].
  rewrite IH; [reflexivity | intros H; apply Hn; right; exact H].
Qed.

Lemma split_colon_single (comp : cstr) :
  ~ In ":"%char comp -> split_colon comp = [comp].
Proof.
  induction comp as [|c comp IH]; intros Hn; simpl; [reflexivity|].
  destruct (Ascii.eqb_spec c ":") as [->|_]; [exfalso; apply Hn; left; reflexivity|].
  rewrite IH; [reflexivity | intros H; apply Hn; right; exact H].
Qed.

(** Whatever [PATH_MAX] is, a first component of [$PATH] longer than it is
    stored past the end of the buffer. *)
Lemma command_path_overrun (env : environ) (command comp rest : cstr) :
  strchr command "/" = false ->
  ~ In ":"%char comp ->
  (PATH_MAX env < length comp)%nat ->
  getenv_PATH env = Some comp \/
  getenv_PATH env = Some (comp ++ ":"%char :: rest) ->
  command_path env command = BufferOverrun.
Proof.
  intros Hslash Hcolon Hlong Hpath.
  assert (Hfit : fits env comp = false).
  { unfold fits. pose proof (prefix_of_length comp).
    apply Nat.leb_gt. lia. }
  destruct Hpath as [Hpath|Hpath];
    rewrite (command_path_search env command Hslash Hpath).
  - rewrite (@split_colon_single comp Hcolon). simpl. rewrite Hfit.
    reflexivity.
  - rewrite (@split_colon_first comp rest Hcolon). simpl. rewrite Hfit.
    reflexivity.
Qed.

(** What holds of claim C4 on the code: a command with a slash is tested
    as it is, whatever [$PATH] holds; without [$PATH] nothing resolves; and
    as long as the buffer holds the prefix of every component, the lookup is
    the search of the description over the components of [$PATH] in
    order, the empty one standing for "./", a join of [PATH_MAX] bytes or
    more ending it with the length error. *)
Lemma command_path_spec (env : environ) (command : cstr) :
  (strchr command "/" = true ->
   command_path env command =
   if can_execute env command then Found command else NotFound) /\
  (strchr command "/" = false -> getenv_PATH env = None ->
   command_path env command = NotFound) /\
  (forall env_value,
     strchr command "/" = false -> getenv_PATH env = Some env_value ->
     Forall (fun comp => fits env comp = true) (split_colon env_value) ->
     command_path env command =
     first_match env command (split_colon env_value)).
Proof.
  repeat split.
  - intros H. unfold command_path. rewrite H. reflexivity.
  - intros H1 H2. unfold command_path. rewrite H1, H2. reflexivity.
  - intros env_value H1 H2 Hfit.
    rewrite (command_path_search env command H1 H2).
    apply search_first_match, Hfit.
Qed.

(** With a slash in the command the value of [$PATH] is never looked at. *)
Lemma command_path_slash_ignores_PATH (env : environ) (command : cstr)
  (other : option cstr) :
  strchr command "/" = true ->
  command_path
    {| PATH_MAX := PATH_MAX env; getenv_PATH := other;
       access_X_OK := access_X_OK env; stat := stat env |} command =
  command_path env command.
Proof.
  intros H. unfold command_path. rewrite H. reflexivity.
Qed.

(** With [$PATH] set to ":/usr/bin" the current directory is tried before
    /usr/bin. *)
Example command_path_empty_component :
  let env := {| PATH_MAX := 4096; getenv_PATH := Some (str ":/usr/bin");
                access_X_OK := fun _ => true;
                stat := fun _ => Some S_IFREG |} in
  split_colon (str ":/usr/bin") = [ []; str "/usr/bin" ] /\
  command_path env (str "foo") = Found (str "./foo").
Proof. split; reflexivity. Qed.

(** C4 (code defect): on a [$PATH] component longer than the buffer the
    copy of lines 294-297 stores past the end of [path] before the length
    guard of line 308 is reached, where the description has the lookup
    fail with the length error. *)
Theorem C4_command_path_overruns_buffer :
  command_path long_PATH_env (str "x") = BufferOverrun /\
  first_match long_PATH_env (str "x")
    (split_colon (repeat "a"%char 4097)) = NameTooLong.
Proof. split; vm_compute; reflexivity. Qed.

(** The systems in which the callers of [command_path] are modelled: when
    the buffer holds the prefix of every component, no call stores past
    it. *)
Lemma first_match_defined (env : environ) (command : cstr)
  (comps : list cstr) :
  first_match env command comps <> BufferOverrun.
Proof.
  induction comps as [|comp rest IH]; simpl; [discriminate|].
  destruct (PATH_MAX env <=? length (prefix_of comp ++ command))%nat;
    [discriminate|].
  destruct (can_execute env (prefix_of comp ++ command));
    [discriminate|exact IH].
Qed.

Lemma path_fits_defined (env : environ) :
  path_fits env = true -> lookups_defined env.
Proof.
  intros H command.
  destruct (command_path_spec env command) as (Hs & Hn & Hv).
  destruct (strchr command "/") eqn:E.
  - rewrite (Hs eq_refl). destruct (can_execute env command); discriminate.
  - unfold path_fits in H. destruct (getenv_PATH env) as [value|] eqn:Hp.
    + rewrite (Hv value eq_refl eq_refl); [apply first_match_defined|].
      apply Forall_forall. intros comp Hin.
      rewrite forallb_forall in H. apply H, Hin.
    + rewrite (Hn eq_refl eq_refl). discriminate.
Qed.

(** In such a system a name that does not resolve is one for which the
    call returned NULL. *)
Lemma resolves_defined (env : environ) (command : cstr) :
  lookups_defined env ->
  resolves env command = false ->
  command_path env command = NotFound \/
  command_path env command = NameTooLong.
Proof.
  intros Hd. specialize (Hd command). unfold resolves.
  destruct (command_path env command);
    [discriminate|left; reflexivity|right; reflexivity|contradiction].
Qed.

(** ** The registry *)

Ltac run :=
  unfold bind, ret, get, emit, perror, allocate, set_max_commands,
    set_malloc_failed, set_commands, set_disk in *; simpl in *.

(** What one call of [add_command_to_list] does to the state. *)
Lemma add_command_to_list_spec (cmd : cstr) (s : state) :
  exists r s',
    add_command_to_list cmd s = (r, s') /\
    disk s' = disk s /\ past s' = past s /\
    ((r = 0 /\ commands s' = commands s ++ [cmd] /\
      malloc_failed s' = malloc_failed s) \/
     (r = 1 /\ commands s' = commands s /\ malloc_failed s' = true)) /\
    (heap s = [] -> r = 0 /\ heap s' = []).
Proof.
  unfold add_command_to_list. run.
  destruct (max_commands s <=? command_count s)%nat; run.
  - destruct (heap s) as [|[|] [|[|] h]] eqn:Hh; run;
      eexists; eexists; (split; [reflexivity|]); simpl;
      repeat split; auto; try discriminate.
  - destruct (heap s) as [|[|] h] eqn:Hh; run;
      eexists; eexists; (split; [reflexivity|]); simpl;
      repeat split; auto; try discriminate.
Qed.

(** The store [commands[command_count] = ...] of line 227 stays inside the
    array: the count never passes the capacity. *)
Lemma add_command_to_list_capacity (cmd : cstr) (s : state) :
  (command_count s <= max_commands s)%nat ->
  let s' := snd (add_command_to_list cmd s) in
  (command_count s' <= max_commands s')%nat.
Proof.
  unfold add_command_to_list, command_count, INCREMENTAL_ALLOCATION_SIZE.
  intros Hcap. run.
  destruct (Nat.leb_spec (max_commands s) (length (commands s))); run.
  - destruct (heap s) as [|[|] [|[|] h]] eqn:Hh; run;
      rewrite ?length_app; simpl; lia.
  - destruct (heap s) as [|[|] h] eqn:Hh; run;
      rewrite ?length_app; simpl; lia.
Qed.

Lemma registry_unique_NoDup (l : list cstr) :
  registry_unique l <-> NoDup (map casefold l).
Proof.
  split.
  - induction l as [|a l IH]; intros Hu; simpl; constructor.
    + intros Hin. apply in_map_iff in Hin. destruct Hin as [b [Hb Hin]].
      apply In_nth_error in Hin. destruct Hin as [j Hj].
      apply (Hu 0%nat (S j) a b); [lia | reflexivity | exact Hj |].
      apply strcasecmp_eq. symmetry. exact Hb.
    + apply IH. intros i j x y Hij Hi Hj.
      apply (Hu (S i) (S j) x y); [lia | exact Hi | exact Hj].
  - intros Hnd i j a b Hij Hi Hj Heq. apply Hij.
    rewrite NoDup_nth_error in Hnd. apply Hnd.
    + rewrite length_map. apply nth_error_Some. rewrite Hi. discriminate.
    + rewrite !nth_error_map, Hi, Hj. simpl. f_equal.
      apply strcasecmp_eq. exact Heq.
Qed.

Lemma NoDup_snoc {A} (l : list A) (x : A) :
  NoDup l -> ~ In x l -> NoDup (l ++ [x]).
Proof.
  induction 1 as [|y l Hy Hnd IH]; intros Hx; simpl.
  - constructor; [intros []|constructor].
  - constructor.
    + rewrite in_app_iff. intros [H|[H|[]]]; [contradiction|].
      apply Hx. left. symmetry. exact H.
    + apply IH. intros H. apply Hx. right. exact H.
Qed.

Lemma command_list_contains_false (s : state) (needle : cstr) :
  command_list_contains s needle = false ->
  forall c, In c (commands s) -> strcasecmp c needle <> 0.
Proof.
  unfold command_list_contains. intros H c Hin Heq.
  assert (existsb (fun c => strcasecmp c needle =? 0) (commands s) = true).
  { apply existsb_exists. exists c. split; [exact Hin|]. apply Z.eqb_eq, Heq. }
  congruence.
Qed.

(** Adding a name that is case-insensitively equal to a needle the list
    does not contain keeps the entries distinct. *)
Lemma registry_unique_add (s : state) (needle name : cstr) :
  registry_unique (commands s) ->
  command_list_contains s needle = false ->
  strcasecmp name needle = 0 ->
  registry_unique (commands s ++ [name]).
Proof.
  intros Hu Hc Heq. apply registry_unique_NoDup. rewrite map_app. simpl.
  apply NoDup_snoc; [apply registry_unique_NoDup, Hu|].
  intros Hin. apply in_map_iff in Hin. destruct Hin as [c [Hcf Hin]].
  apply (command_list_contains_false _ _ Hc c Hin).
  apply strcasecmp_trans_eq with name; [|exact Heq].
  apply strcasecmp_eq. exact Hcf.
Qed.

Lemma c_str_map_lower (s : cstr) : c_str (map lower s) = map lower (c_str s).
Proof.
  induction s as [|c s IH]; simpl; [reflexivity|].
  change (lower c) with (tolower c). rewrite !ascii_eqb_NUL.
  pose proof (tolower_NUL c) as H.
  destruct (Z.eqb_spec (uchar c) 0), (Z.eqb_spec (uchar (tolower c)) 0);
    try tauto; try reflexivity.
  simpl. rewrite IH. reflexivity.
Qed.

Lemma strcasecmp_map_lower (s : cstr) : strcasecmp (map lower s) s = 0.
Proof.
  apply strcasecmp_eq. unfold casefold. rewrite c_str_map_lower, map_map.
  apply map_ext. intros c. change (lower c) with (tolower c).
  apply tolower_idem.
Qed.

(** What [parse_desktop_entry] does to the list: nothing, or it adds one
    name that is case-insensitively equal to a base name the list does not
    contain. *)
Lemma parse_desktop_entry_commands (env : environ) (v : visit) (s : state)
  (r : Z) (s' : state) :
  parse_desktop_entry env v s = (r, s') ->
  disk s' = disk s /\ past s' = past s /\
  (commands s' = commands s \/
   exists name base,
     commands s' = commands s ++ [name] /\
     command_list_contains s base = false /\
     strcasecmp name base = 0).
Proof.
  unfold parse_desktop_entry.
  destruct (has_extension (fpath v)); simpl;
    [|intros E; inversion E; subst; auto].
  destruct (opened v) as [bytes|]; simpl;
    [|intros E; inversion E; subst; auto].
  set (st := scan_lines entry_scan_init (getlines bytes)).
  unfold bind at 1. unfold get at 1.
  destruct (command st) as [|c0 cmd]; [intros E; inversion E; subst; auto|].
  destruct (command_basename st) as [base|];
    [|intros E; inversion E; subst; auto].
  destruct (command_list_contains s base) eqn:Hc;
    [intros E; inversion E; subst; auto|].
  unfold bind at 1.
  destruct (allocate s) as [ok s0] eqn:Ha.
  assert (Hs0 : commands s0 = commands s /\ disk s0 = disk s /\ past s0 = past s).
  { unfold allocate in Ha. destruct (heap s) as [|b h];
      inversion Ha; subst; simpl; auto. }
  destruct Hs0 as (Hc0 & Hd0 & Hp0).
  cbv beta iota. destruct ok; unfold negb; cbv beta iota.
  2:{ intros E. run. inversion E; subst. simpl. auto. }
  assert (Hadd : forall name u s1,
            strcasecmp name base = 0 ->
            (emit (Added name (fpath v)) ;;
             r <- add_command_to_list name ;; ret tt) s0 = (u, s1) ->
            disk s1 = disk s /\ past s1 = past s /\
            (commands s1 = commands s \/
             exists name base,
               commands s1 = commands s ++ [name] /\
               command_list_contains s base = false /\
               strcasecmp name base = 0)).
  { intros name u s1 Hn. unfold bind, emit, ret.
    match goal with |- context [add_command_to_list name ?s1] =>
      destruct (add_command_to_list_spec name s1)
        as (r' & s2 & E & Hd & Hp & Hcmds & _) end.
    rewrite E. intros E'. inversion E'; subst s1.
    simpl in *. rewrite Hd, Hp.
    repeat split; auto.
    destruct Hcmds as [(_ & Hcm & _)|(_ & Hcm & _)]; rewrite Hcm, Hc0.
    - right. exists name, base. auto.
    - left. reflexivity. }
  unfold bind at 1.
  destruct (resolves env (map lower base)).
  - match goal with |- context [bind (emit ?e) ?k s0] =>
      destruct (bind (emit e) k s0) as [u s1] eqn:E1 end.
    intros E. run. inversion E; subst s'.
    apply (Hadd _ _ _ (strcasecmp_map_lower base) E1).
  - destruct (existsb is_upper base && resolves env base).
    + match goal with |- context [bind (emit ?e) ?k s0] =>
        destruct (bind (emit e) k s0) as [u s1] eqn:E1 end.
      intros E. run. inversion E; subst s'.
      apply (Hadd _ _ _ (strcasecmp_refl base) E1).
    + intros E. run. inversion E; subst. auto.
Qed.

(** ** StdinLoader: load_commands_from_file *)

Lemma load_loop_spec (env : environ) (lines : list (list ascii)) (s : state) :
  exists r s',
    load_loop env lines s = (r, s') /\
    disk s' = disk s /\ past s' = past s /\
    (r = 0 \/ r = 1) /\
    (exists k, commands s' =
               commands s ++ firstn k (filter (resolves env) (map entry_of lines))) /\
    (r = 0 -> commands s' =
              commands s ++ filter (resolves env) (map entry_of lines)) /\
    (heap s = [] -> r = 0 /\ heap s' = []).
Proof.
  revert s. induction lines as [|line rest IH]; intros s.
  - exists 0, s. simpl. unfold ret. repeat split; auto.
    + exists 0%nat. rewrite app_nil_r. reflexivity.
    + rewrite app_nil_r. reflexivity.
  - simpl load_loop. simpl map. simpl filter. fold (entry_of line).
    destruct (resolves env (entry_of line)).
    + unfold bind.
      destruct (add_command_to_list_spec (entry_of line) s)
        as (r & s1 & E & Hd & Hp & Hc & Hh).
      rewrite E.
      destruct Hc as [(-> & Hc & _)|(-> & Hc & _)]; simpl.
      * destruct (IH s1) as (r' & s' & E' & Hd' & Hp' & Hr' & (k & Hk) & H0 & Hh').
        exists r', s'. rewrite E'. repeat split; try congruence.
        -- exists (S k). rewrite Hk, Hc, <- app_assoc. reflexivity.
        -- intros Hz. rewrite (H0 Hz), Hc, <- app_assoc. reflexivity.
        -- apply Hh'. apply Hh. assumption.
        -- apply Hh'. apply Hh. assumption.
      * exists 1, s1. unfold ret.
        split; [reflexivity|]. split; [assumption|]. split; [assumption|].
        split; [right; reflexivity|]. split; [|split].
        -- exists 0%nat. rewrite Hc, app_nil_r. reflexivity.
        -- discriminate.
        -- intros Hh0. destruct (Hh Hh0). discriminate.
    + unfold bind, emit.
      match goal with |- context [load_loop env rest ?s1] =>
        destruct (IH s1) as (r' & s' & E' & Hd' & Hp' & Hr' & Hk & H0 & Hh') end.
      exists r', s'. rewrite E'. simpl in *. repeat split; auto.
      * apply Hh'. assumption.
      * apply Hh'. assumption.
Qed.

(** A call of [load_commands_from_file] appends the lines that resolve, in
    order and without looking at what the list holds, up to the point
    where an allocation fails. *)
Lemma load_commands_from_file_spec (env : environ) (fl : faults)
  (path : option cstr) (file : option stream) (s : state) :
  exists r s',
    load_commands_from_file env fl path file s = (r, s') /\
    disk s' = disk s /\ past s' = past s /\
    (exists k, commands s' =
               commands s ++
               firstn k (filter (resolves env)
                           (map entry_of (source_lines fl (disk s) path file)))) /\
    (fst r = 0 ->
     commands s' =
     commands s ++
     filter (resolves env) (map entry_of (source_lines fl (disk s) path file))).
Proof.
  assert (Hnil : forall r, exists r0 s',
            ret (A := Z * errno) r s = (r0, s') /\
            disk s' = disk s /\ past s' = past s /\
            (exists k, commands s' = commands s ++ firstn k (filter (resolves env) (map entry_of []))) /\
            (fst r0 = 0 -> commands s' = commands s ++ filter (resolves env) (map entry_of []))).
  { intros r. exists r, s. unfold ret. simpl. rewrite app_nil_r.
    repeat split; auto. exists 0%nat. rewrite app_nil_r. reflexivity. }
  assert (Hrun : forall f, exists r s',
            (failed <- load_loop env (getlines (text f)) ;;
             match failed, read_error f with
             | 0, Some e => ret (1, e)
             | _, _ => ret (failed, E0)
             end) s = (r, s') /\
            disk s' = disk s /\ past s' = past s /\
            (exists k, commands s' = commands s ++ firstn k (filter (resolves env) (map entry_of (getlines (text f))))) /\
            (fst r = 0 -> commands s' = commands s ++ filter (resolves env) (map entry_of (getlines (text f))))).
  { intros f. unfold bind.
    destruct (load_loop_spec env (getlines (text f)) s)
      as (r & s' & E & Hd & Hp & Hr & Hk & H0 & _).
    rewrite E.
    destruct Hr as [-> | ->].
    - destruct (read_error f); unfold ret; eexists; eexists;
        (split; [reflexivity|]); simpl; repeat split; auto; discriminate.
    - unfold ret; eexists; eexists;
        (split; [reflexivity|]); simpl; repeat split; auto; discriminate. }
  unfold load_commands_from_file, source_lines. unfold bind at 1. unfold get.
  destruct path as [p|], file as [f|]; try apply Hnil.
  - destruct (fopen_r fl (disk s) p) as [f|e]; [apply Hrun | apply Hnil].
  - apply Hrun.
Qed.

Lemma registry_unique_nil : registry_unique [].
Proof. intros [|i] j a b _ H; discriminate. Qed.

(** C2 (amended): where no lookup overruns the buffer, the insertions of
    [parse_desktop_entry] keep the entries of the registry distinct under
    case-insensitive comparison; [load_commands_from_file], for standard
    input as for the destination file, appends every line that resolves
    without a test of membership (all of them when it returns 0). *)
Theorem C2_parser_keeps_registry_unique (env : environ) (fl : faults)
  (v : visit) (path : option cstr) (file : option stream) (s : state) :
  lookups_defined env ->
  registry_unique (commands s) ->
  registry_unique (commands (snd (parse_desktop_entry env v s))) /\
  let lines := source_lines fl (disk s) path file in
  let r := load_commands_from_file env fl path file s in
  (exists k, commands (snd r) =
             commands s ++ firstn k (filter (resolves env) (map entry_of lines))) /\
  (fst (fst r) = 0 ->
   commands (snd r) =
   commands s ++ filter (resolves env) (map entry_of lines)).
Proof.
  intros _ Hu. split.
  - destruct (parse_desktop_entry env v s) as [r s'] eqn:E.
    destruct (parse_desktop_entry_commands _ _ _ E) as (_ & _ & [Hc|Hc]); simpl.
    + rewrite Hc. exact Hu.
    + destruct Hc as (name & base & -> & Hn & Heq).
      apply registry_unique_add with base; assumption.
  - intros lines r. subst lines r.
    destruct (load_commands_from_file_spec env fl path file s)
      as (r & s' & E & _ & _ & Hk & H0).
    rewrite E. simpl. split; assumption.
Qed.

(** C2 at a registry that holds "xterm": the entry for "ls" is parsed and
    "ls" is inserted; at a registry that holds "Foo", the entry for
    /opt/Foo inserts nothing; the entries stay distinct in both. Standard
    input holding "ls" twice is appended as it is. *)
Lemma C2_parser_keeps_registry_unique_witness :
  (commands (snd (parse_desktop_entry ls_env plain_entry
                    (state_with [str "xterm"]))) = [str "xterm"; str "ls"] /\
   registry_unique
     (commands (snd (parse_desktop_entry ls_env plain_entry
                       (state_with [str "xterm"]))))) /\
  (commands (snd (parse_desktop_entry foo_env mixed_case_entry
                    (state_with [str "Foo"]))) = [str "Foo"] /\
   registry_unique
     (commands (snd (parse_desktop_entry foo_env mixed_case_entry
                       (state_with [str "Foo"]))))) /\
  commands (snd (load_commands_from_file ls_env no_faults None
                   (Some ls_twice) (state_with [str "xterm"]))) =
  [str "xterm"] ++
  filter (resolves ls_env)
    (map entry_of (source_lines no_faults (disk (state_with [str "xterm"]))
                     None (Some ls_twice))).
Proof.
  assert (Hone : forall c : cstr, registry_unique [c]).
  { intros c. apply registry_unique_NoDup.
    constructor; [intros H; exact H|constructor]. }
  destruct (C2_parser_keeps_registry_unique no_faults plain_entry None
              (Some ls_twice) (state_with [str "xterm"])
              (path_fits_defined ls_env eq_refl) (Hone (str "xterm")))
    as [Hparse [_ Hload]].
  destruct (C2_parser_keeps_registry_unique no_faults mixed_case_entry None
              (Some ls_twice) (state_with [str "Foo"])
              (path_fits_defined foo_env eq_refl) (Hone (str "Foo")))
    as [Hrefuse _].
  split; [split; [reflexivity|exact Hparse]|].
  split; [split; [reflexivity|exact Hrefuse]|].
  exact (Hload eq_refl).
Defined.

(** C2 (counterexample): from the empty registry, standard input holding
    "ls" twice leaves two equal entries. *)
Lemma C2_loader_inserts_duplicates :
  registry_unique (commands empty_state) /\
  commands (snd (load_commands_from_file ls_env no_faults None
                   (Some ls_twice) empty_state)) = [str "ls"; str "ls"] /\
  ~ registry_unique [str "ls"; str "ls"].
Proof.
  split; [exact registry_unique_nil|]. split; [reflexivity|].
  intros H. apply (H 0%nat 1%nat (str "ls") (str "ls")); [lia | reflexivity..].
Qed.

(** ** EntryParser: the scan of a desktop entry *)

Lemma isspace_tolower (c : ascii) : isspace (tolower c) = isspace c.
Proof.
  unfold isspace. rewrite uchar_tolower. unfold is_upper.
  destruct ((65 <=? uchar c) && (uchar c <=? 90)) eqn:E; [|reflexivity].
  apply andb_true_iff in E. destruct E as [E1 E2]. apply Z.leb_le in E1, E2.
  destruct (Z.eqb_spec (uchar c + 32) 32); [lia|].
  destruct (Z.eqb_spec (uchar c) 32); [lia|].
  destruct (Z.leb_spec (uchar c + 32) 13); [lia|].
  destruct (Z.leb_spec (uchar c) 13); [lia|].
  rewrite !andb_false_r. reflexivity.
Qed.

Lemma skip_space_app (sp s : cstr) :
  Forall (fun c => isspace c = true) sp -> skip_space (sp ++ s) = skip_space s.
Proof.
  induction 1 as [|c sp Hc _ IH]; simpl; [reflexivity|]. rewrite Hc. exact IH.
Qed.

Lemma match_literal_app (lit s : cstr) : match_literal lit (lit ++ s) = Some s.
Proof.
  induction lit as [|c lit IH]; simpl; [destruct s; reflexivity|].
  rewrite Ascii.eqb_refl. exact IH.
Qed.

Lemma c_str_nul_free (s : list ascii) : ~ In NUL (c_str s).
Proof.
  induction s as [|c s IH]; simpl; [tauto|].
  destruct (Ascii.eqb_spec c NUL); simpl; [tauto|].
  intros [H|H]; [contradiction | exact (IH H)].
Qed.

Lemma c_str_id (s : cstr) : ~ In NUL s -> c_str s = s.
Proof.
  induction s as [|c s IH]; simpl; intros H; [reflexivity|].
  destruct (Ascii.eqb_spec c NUL) as [->|_]; [tauto|].
  rewrite IH; [reflexivity | tauto].
Qed.

(** A value that strcasecmp finds equal to "true" is a word of four bytes. *)
Lemma true_value_scan (value rest : cstr) :
  ~ In NUL value ->
  strcasecmp value (str "true") = 0 ->
  rest = [] \/ (exists c r, rest = c :: r /\ isspace c = true) ->
  scan_string 5 (value ++ rest) = Some (value, rest).
Proof.
  intros Hnul Heq Hrest.
  apply strcasecmp_eq in Heq. unfold casefold in Heq.
  rewrite (c_str_id _ Hnul) in Heq. simpl in Heq.
  destruct value as [|a [|b [|c [|d [|e value]]]]]; try discriminate.
  inversion Heq as [[Ha Hb Hc Hd]].
  assert (Hs : forall x y, tolower x = y -> isspace y = false -> isspace x = false).
  { intros x y <-. rewrite isspace_tolower. auto. }
  pose proof (Hs _ _ Ha eq_refl) as Sa. pose proof (Hs _ _ Hb eq_refl) as Sb.
  pose proof (Hs _ _ Hc eq_refl) as Sc. pose proof (Hs _ _ Hd eq_refl) as Sd.
  unfold scan_string. simpl. rewrite Sa. simpl. rewrite Sa, Sb, Sc, Sd.
  destruct Hrest as [->|(x & r & -> & Hx)]; [reflexivity|].
  rewrite Hx. reflexivity.
Qed.

Lemma key_true_disqualifying (line key sp1 sp2 value rest : cstr) :
  key = str "NoDisplay" \/ key = str "Terminal" ->
  line = key ++ sp1 ++ str "=" ++ sp2 ++ value ++ rest ->
  ~ In NUL line ->
  Forall (fun c => isspace c = true) sp1 ->
  Forall (fun c => isspace c = true) sp2 ->
  strcasecmp value (str "true") = 0 ->
  rest = [] \/ (exists c r, rest = c :: r /\ isspace c = true) ->
  disqualifying line = true.
Proof.
  intros Hkey -> Hnul Hsp1 Hsp2 Heq Hrest.
  assert (Hv : ~ In NUL value).
  { intros H. apply Hnul. rewrite !in_app_iff. tauto. }
  assert (Hscan : sscanf_key key 5 (key ++ sp1 ++ str "=" ++ sp2 ++ value ++ rest)
                  = Some (value, rest)).
  { unfold sscanf_key. rewrite match_literal_app.
    rewrite (skip_space_app _ Hsp1). simpl.
    unfold scan_string. rewrite (skip_space_app _ Hsp2).
    apply (true_value_scan _ Hv Heq Hrest). }
  unfold disqualifying.
  assert (Hsym : (strcasecmp (str "true") value =? 0) = true).
  { apply Z.eqb_eq, strcasecmp_sym, Heq. }
  destruct Hkey as [-> | ->].
  - rewrite Hscan. exact Hsym.
  - replace (sscanf_key (str "NoDisplay") 5
               (str "Terminal" ++ sp1 ++ str "=" ++ sp2 ++ value ++ rest))
      with (@None (cstr * cstr)) by reflexivity.
    rewrite Hscan. exact Hsym.
Qed.

Lemma scan_line_disqualifying (st : entry_scan) (line : cstr) :
  inside_desktop_entry st = true ->
  disqualifying line = true ->
  scan_line st line =
  ({| inside_desktop_entry := true; command := [];
      command_basename := command_basename st |}, true).
Proof.
  unfold scan_line, disqualifying. intros -> H. unfold negb.
  destruct (match sscanf_key (str "NoDisplay") 5 line with
            | Some v => Some v
            | None => sscanf_key (str "Terminal") 5 line
            end) as [[value r]|]; [|discriminate].
  rewrite H. reflexivity.
Qed.

Lemma scan_line_stop (st st' : entry_scan) (line : cstr) :
  scan_line st line = (st', true) ->
  command st' = [] /\ inside_desktop_entry st' = true.
Proof.
  unfold scan_line.
  destruct (inside_desktop_entry st); unfold negb; [|intros H; inversion H].
  destruct (match sscanf_key (str "NoDisplay") 5 line with
            | Some v => Some v
            | None => sscanf_key (str "Terminal") 5 line
            end) as [[value r]|].
  - destruct (strcasecmp (str "true") value =? 0); intros H; inversion H.
    split; reflexivity.
  - destruct (sscanf_exec line) as [[token rest]|]; [|intros H; inversion H].
    destruct (if strcmp (basename token) (str "env") =? 0
              then env_loop rest token (Some (basename token))
              else (token, Some (basename token))) as [cmd base'].
    intros H; inversion H.
Qed.

(** Once the scan is inside the section, a disqualifying line empties the
    command, and no line after it is looked at. *)
Lemma scan_lines_disqualified (st : entry_scan)
  (before after : list (list ascii)) (line : list ascii) :
  inside_desktop_entry (scan_lines st before) = true ->
  disqualifying (c_str line) = true ->
  command (scan_lines st (before ++ line :: after)) = [] /\
  scan_lines st (before ++ line :: after) = scan_lines st (before ++ [line]).
Proof.
  revert st. induction before as [|l before IH]; intros st Hin Hd; simpl in *.
  - rewrite (scan_line_disqualifying _ _ Hin Hd). split; reflexivity.
  - destruct (scan_line st (c_str l)) as [st' stop] eqn:E.
    destruct stop.
    + destruct (scan_line_stop _ _ E) as [Hc _]. split; [exact Hc | reflexivity].
    + apply IH; assumption.
Qed.

(** [command_basename] is not NULL when the command buffer is not empty:
    line 400 never passes a NULL pointer to [command_list_contains]. *)
Lemma env_loop_basename (rest cmd : cstr) (base : option cstr) :
  base <> None -> snd (env_loop rest cmd base) <> None.
Proof.
  funelim (env_loop rest cmd base); intros Hb.
  - destruct (is_command_word token); [discriminate | auto].
  - exact Hb.
Qed.

Lemma scan_line_basename (st : entry_scan) (line : cstr) :
  (command st <> [] -> command_basename st <> None) ->
  command (fst (scan_line st line)) <> [] ->
  command_basename (fst (scan_line st line)) <> None.
Proof.
  unfold scan_line. intros Hst.
  destruct (inside_desktop_entry st); unfold negb; [|exact Hst].
  destruct (match sscanf_key (str "NoDisplay") 5 line with
            | Some v => Some v
            | None => sscanf_key (str "Terminal") 5 line
            end) as [[value r]|].
  - destruct (strcasecmp (str "true") value =? 0); simpl; [congruence | exact Hst].
  - destruct (sscanf_exec line) as [[token rest]|]; [|exact Hst].
    cbv zeta.
    destruct (strcmp (basename token) (str "env") =? 0).
    + pose proof (@env_loop_basename rest token (Some (basename token))) as H.
      destruct (env_loop rest token (Some (basename token))) as [cmd base'].
      simpl in *. intros _. apply H. discriminate.
    + simpl. discriminate.
Qed.

Lemma scan_lines_basename (lines : list (list ascii)) :
  forall st,
    (command st <> [] -> command_basename st <> None) ->
    command (scan_lines st lines) <> [] ->
    command_basename (scan_lines st lines) <> None.
Proof.
  induction lines as [|line lines IH]; intros st Hst; simpl; [exact Hst|].
  pose proof (scan_line_basename st (c_str line) Hst) as H.
  destruct (scan_line st (c_str line)) as [st' stop]. simpl in H.
  destruct stop; [exact H | apply IH, H].
Qed.

Lemma parse_desktop_entry_no_command (env : environ) (v : visit)
  (bytes : list ascii) (s : state) :
  opened v = Some bytes ->
  command (scan_lines entry_scan_init (getlines bytes)) = [] ->
  parse_desktop_entry env v s = (0, s).
Proof.
  intros Ho Hc. unfold parse_desktop_entry.
  destruct (has_extension (fpath v)); [|reflexivity]. simpl.
  rewrite Ho. unfold bind, get. rewrite Hc. reflexivity.
Qed.

(** C5: in a descriptor file, once the scan is inside the section, a line
    that is a NoDisplay or Terminal key whose value compares equal to
    "true" under strcasecmp makes the parser produce no command (the call
    returns 0 and leaves the state as it was) and ends the scan: the lines
    after it are not looked at, whatever Exec lines stand before or after
    it. *)
Theorem C5_true_key_disqualifies_entry (env : environ) (v : visit)
  (bytes : list ascii) (before after : list (list ascii)) (line : list ascii)
  (key sp1 sp2 value rest : cstr) (s : state) :
  opened v = Some bytes ->
  getlines bytes = before ++ line :: after ->
  inside_desktop_entry (scan_lines entry_scan_init before) = true ->
  key = str "NoDisplay" \/ key = str "Terminal" ->
  c_str line = key ++ sp1 ++ str "=" ++ sp2 ++ value ++ rest ->
  Forall (fun c => isspace c = true) sp1 ->
  Forall (fun c => isspace c = true) sp2 ->
  strcasecmp value (str "true") = 0 ->
  rest = [] \/ (exists c r, rest = c :: r /\ isspace c = true) ->
  parse_desktop_entry env v s = (0, s) /\
  command (scan_lines entry_scan_init (getlines bytes)) = [] /\
  scan_lines entry_scan_init (getlines bytes) =
  scan_lines entry_scan_init (before ++ [line]).
Proof.
  intros Ho Hl Hin Hkey Hline Hsp1 Hsp2 Heq Hrest.
  assert (Hd : disqualifying (c_str line) = true).
  { apply (@key_true_disqualifying (c_str line) key sp1 sp2 value rest);
      try assumption.
    apply c_str_nul_free. }
  destruct (@scan_lines_disqualified entry_scan_init before after line Hin Hd)
    as [Hc Hstop].
  rewrite Hl. repeat split; try assumption.
  apply (@parse_desktop_entry_no_command env v bytes s Ho). rewrite Hl. exact Hc.
Qed.

(** C5 at an entry with "Terminal=TRUE" between two Exec lines; without
    that line the same entry adds "ls". *)
Lemma C5_true_key_disqualifies_entry_witness :
  parse_desktop_entry ls_env terminal_entry empty_state = (0, empty_state) /\
  commands (snd (parse_desktop_entry ls_env plain_entry empty_state)) =
  [str "ls"].
Proof.
  split; [|reflexivity].
  apply (@C5_true_key_disqualifies_entry ls_env terminal_entry
           (file_of [str "[Desktop Entry]"; str "Exec=ls";
                     str "Terminal=TRUE"; str "Exec=ls"])
           [str "[Desktop Entry]" ++ [LF]; str "Exec=ls" ++ [LF]]
           [str "Exec=ls" ++ [LF]]
           (str "Terminal=TRUE" ++ [LF])
           (str "Terminal") [] [] (str "TRUE") [LF] empty_state).
  - reflexivity.
  - reflexivity.
  - reflexivity.
  - right. reflexivity.
  - reflexivity.
  - constructor.
  - constructor.
  - reflexivity.
  - right. exists LF, []. split; reflexivity.
Defined.

(** *** Exec lines and the words of their value *)

Lemma scan_field_word (n : nat) (s : cstr) :
  (length (word s) <= n)%nat -> scan_field n s = (word s, after_word s).
Proof.
  revert s. induction n as [|n IH]; intros [|c s]; simpl; try reflexivity.
  - destruct (isspace c); simpl; [reflexivity | lia].
  - destruct (isspace c); simpl; [reflexivity|].
    intros H. rewrite IH by lia. reflexivity.
Qed.

Lemma words_from_false (s : cstr) : words_from false s = words (after_word s).
Proof.
  unfold words. induction s as [|c s IH]; simpl; [reflexivity|].
  destruct (isspace c) eqn:E; simpl; [rewrite E; reflexivity | exact IH].
Qed.

Lemma words_skip_space (s : cstr) : words (skip_space s) = words s.
Proof.
  unfold words. induction s as [|c s IH]; simpl; [reflexivity|].
  destruct (isspace c) eqn:E; [exact IH|]. simpl. rewrite E. reflexivity.
Qed.

Lemma skip_space_head (s : cstr) :
  skip_space s = [] \/
  exists c s', skip_space s = c :: s' /\ isspace c = false.
Proof.
  induction s as [|c s IH]; simpl; [auto|].
  destruct (isspace c) eqn:E; [exact IH|]. right. eauto.
Qed.

(** A [%s] conversion stores the first word of its input, when the word is
    no longer than the width, and leaves the input after it. *)
Lemma scan_string_words (n : nat) (s : cstr) :
  match words s with
  | [] => scan_string n s = None
  | w :: ws =>
      (length w <= n)%nat ->
      exists r, scan_string n s = Some (w, r) /\ words r = ws
  end.
Proof.
  rewrite <- words_skip_space. unfold scan_string.
  destruct (skip_space_head s) as [-> | (c & s' & -> & Hc)].
  - simpl. destruct n; reflexivity.
  - unfold words. simpl words_from. rewrite Hc.
    intros Hlen. rewrite scan_field_word by (simpl; rewrite Hc; exact Hlen).
    simpl word. rewrite Hc. simpl after_word. rewrite Hc.
    eexists. split; [reflexivity|]. rewrite words_from_false. reflexivity.
Qed.

Lemma sscanf_token_words (s : cstr) :
  match words s with
  | [] => sscanf_token s = None
  | w :: ws =>
      (length w <= command_width)%nat ->
      exists r, sscanf_token s = Some (w, r) /\ words r = ws
  end.
Proof.
  unfold sscanf_token. pose proof (scan_string_words command_width s) as H.
  destruct (words s) as [|w ws].
  - rewrite H. reflexivity.
  - intros Hlen. destruct (H Hlen) as (r & -> & Hr).
    eexists. split; [reflexivity|]. rewrite words_skip_space. exact Hr.
Qed.

(** The loop of lines 384-392 takes the first later word that is neither
    an assignment nor an option; when there are later words and none
    will do, it leaves the buffer empty; without later words it leaves the
    buffer as it was. *)
Lemma env_loop_words (rest cmd : cstr) (base : option cstr) :
  Forall (fun w => (length w <= command_width)%nat) (words rest) ->
  env_loop rest cmd base =
  match words rest with
  | [] => (cmd, base)
  | _ => match find is_command_word (words rest) with
         | Some w => (w, Some (basename w))
         | None => ([], base)
         end
  end.
Proof.
  funelim (env_loop rest cmd base); intros Hall.
  - pose proof (sscanf_token_words rest) as Htok.
    destruct (words rest) as [|w ws] eqn:Hw; [congruence|].
    destruct Htok as (r & Hr & Hws); [inversion Hall; assumption|].
    rewrite e in Hr. inversion Hr; subst w r. clear Hr.
    simpl find. destruct (is_command_word token); [reflexivity|].
    match goal with IH : Forall _ _ -> env_loop _ _ _ = _ |- _ =>
      rewrite IH by (rewrite Hws; inversion Hall; assumption) end.
    rewrite Hws. destruct ws as [|w' ws']; reflexivity.
  - pose proof (sscanf_token_words rest) as Htok.
    destruct (words rest) as [|w ws] eqn:Hw; [reflexivity|].
    destruct Htok as (r & Hr & _); [inversion Hall; assumption|].
    congruence.
Qed.

Lemma sscanf_exec_value (sp value : cstr) :
  Forall (fun c => isspace c = true) sp ->
  sscanf_exec (str "Exec" ++ sp ++ str "=" ++ value) = sscanf_token value.
Proof.
  intros Hsp. unfold sscanf_exec, sscanf_key, sscanf_token.
  rewrite match_literal_app, (skip_space_app _ Hsp). reflexivity.
Qed.

(** C6 (amended): for an Exec line whose words are no longer than 4095
    bytes, the candidate command is the first word of the value; if the
    base name of that word is "env", it is the first later word that
    neither holds '=' after its first byte nor begins with '-'; if there
    are later words and none will do, the command buffer is left empty and
    no command is produced. ([candidate] also says what the code does when
    "env" is the only word: the buffer keeps it.) *)
Theorem C6_exec_candidate (st : entry_scan) (sp value : cstr) :
  inside_desktop_entry st = true ->
  Forall (fun c => isspace c = true) sp ->
  Forall (fun w => (length w <= command_width)%nat) (words value) ->
  let line := str "Exec" ++ sp ++ str "=" ++ value in
  (candidate (words value) = None -> scan_line st line = (st, false)) /\
  (forall cmd,
     candidate (words value) = Some cmd ->
     snd (scan_line st line) = false /\
     command (fst (scan_line st line)) = cmd /\
     (cmd <> [] ->
      command_basename (fst (scan_line st line)) = Some (basename cmd))).
Proof.
  intros Hin Hsp Hall line.
  assert (Hscan : scan_line st line =
                  match sscanf_exec line with
                  | Some (token, rest) =>
                      let base := basename token in
                      let (cmd, base') :=
                        if strcmp base (str "env") =? 0
                        then env_loop rest token (Some base)
                        else (token, Some base) in
                      ({| inside_desktop_entry := true; command := cmd;
                          command_basename := base' |}, false)
                  | None => (st, false)
                  end).
  { unfold scan_line. rewrite Hin. reflexivity. }
  rewrite Hscan. unfold line. rewrite (sscanf_exec_value _ Hsp).
  pose proof (sscanf_token_words value) as Htok.
  destruct (words value) as [|first later] eqn:Hw.
  - rewrite Htok. split; [reflexivity | discriminate].
  - destruct Htok as (r & -> & Hr); [inversion Hall; assumption|].
    split; [unfold candidate; destruct (strcmp _ _ =? 0); [destruct later|];
            try discriminate; destruct (find _ _); discriminate|].
    intros cmd. unfold candidate. cbv zeta.
    destruct (strcmp (basename first) (str "env") =? 0).
    + rewrite env_loop_words by (rewrite Hr; inversion Hall; assumption).
      rewrite Hr. destruct later as [|w ws].
      * intros E; inversion E; subst. simpl. auto.
      * destruct (find is_command_word (w :: ws)) as [w'|];
          intros E; inversion E; subst; simpl; auto.
        repeat split; auto. congruence.
    + intros E; inversion E; subst. simpl. auto.
Qed.

(** C6 at the line "Exec=env FOO=bar -x mycmd --flag". *)
Lemma C6_exec_candidate_witness :
  command (fst (scan_line inside_section
                  (str "Exec" ++ [] ++ str "=" ++
                   str "env FOO=bar -x mycmd --flag" ++ [LF]))) = str "mycmd".
Proof.
  assert (Hall : Forall (fun w => (length w <= command_width)%nat)
                   (words (str "env FOO=bar -x mycmd --flag" ++ [LF]))).
  { rewrite Forall_forall. intros w Hw. apply Nat.leb_le.
    vm_compute in Hw.
    repeat (destruct Hw as [<-|Hw]; [vm_compute; reflexivity|]).
    destruct Hw. }
  exact (proj1 (proj2 (proj2 (@C6_exec_candidate inside_section []
                                (str "env FOO=bar -x mycmd --flag" ++ [LF])
                                eq_refl (Forall_nil _) Hall)
                         (str "mycmd") eq_refl))).
Defined.

(** C6 (counterexample): "env" alone is a first word whose base name is
    "env" and that no word follows; the scan keeps "env" as the command, and
    the entry adds "env" to the registry. *)
Lemma C6_env_alone_is_a_command :
  words (str "env" ++ [LF]) = [str "env"] /\
  strcmp (basename (str "env")) (str "env") = 0 /\
  command (fst (scan_line inside_section (str "Exec=env" ++ [LF]))) = str "env" /\
  commands (snd (parse_desktop_entry usr_bin_env env_alone_entry empty_state))
  = [str "env"].
Proof. repeat split; vm_compute; reflexivity. Qed.

(** ** Lines *)

Lemma getlines_line (name rest : list ascii) :
  no_newline name ->
  getlines (name ++ LF :: rest) = (name ++ [LF]) :: getlines rest.
Proof.
  unfold no_newline. induction name as [|c name IH]; intros Hn; simpl.
  - reflexivity.
  - destruct (Ascii.eqb_spec c LF) as [->|_]; [exfalso; apply Hn; left; reflexivity|].
    rewrite IH; [reflexivity|]. intros H. apply Hn. right. exact H.
Qed.

Lemma getlines_file_of (names : list cstr) (rest : list ascii) :
  Forall no_newline names ->
  getlines (file_of names ++ rest) =
  map (fun n => n ++ [LF]) names ++ getlines rest.
Proof.
  unfold file_of. induction 1 as [|n names Hn _ IH]; simpl; [reflexivity|].
  rewrite <- !app_assoc. simpl. rewrite getlines_line by exact Hn.
  rewrite IH. reflexivity.
Qed.

Lemma getlines_unfinished (tail : list ascii) :
  no_newline tail -> tail <> [] -> getlines tail = [tail].
Proof.
  unfold no_newline. induction tail as [|c tail IH]; intros Hn Hne; [congruence|].
  simpl. destruct (Ascii.eqb_spec c LF) as [->|_];
    [exfalso; apply Hn; left; reflexivity|].
  destruct tail as [|d tail]; [reflexivity|].
  rewrite IH; [reflexivity | intros H; apply Hn; right; exact H | discriminate].
Qed.

(** Every stream is a sequence of lines that end with a newline, followed
    by what is left without one. *)
Lemma stream_shape (bytes : list ascii) :
  exists names tail,
    bytes = file_of names ++ tail /\
    Forall no_newline names /\ no_newline tail.
Proof.
  unfold no_newline.
  induction bytes as [|c bytes (names & tail & -> & Hn & Ht)].
  - exists [], []. repeat split; [constructor | intros []].
  - destruct (Ascii.eqb_spec c LF) as [->|Hc].
    + exists ([] :: names), tail.
      repeat split; [constructor; [intros [] | exact Hn] | exact Ht].
    + destruct names as [|n names].
      * exists [], (c :: tail). repeat split; [constructor|].
        intros [H|H]; [congruence | exact (Ht H)].
      * exists ((c :: n) :: names), tail. inversion Hn; subst.
        repeat split; [|exact Ht].
        constructor; [|assumption].
        intros [H|H]; [congruence | contradiction].
Qed.

Lemma complete_line (name : list ascii) : complete (name ++ [LF]) = true.
Proof.
  unfold complete. rewrite length_app, last_last. simpl.
  destruct (length name + 1)%nat eqn:E; [lia | reflexivity].
Qed.

Lemma complete_unfinished (tail : list ascii) :
  no_newline tail -> complete tail = false.
Proof.
  unfold complete, no_newline. intros Hn.
  destruct tail as [|c tail]; [reflexivity|].
  destruct (Ascii.eqb_spec (last (c :: tail) NUL) LF) as [E|_];
    [|apply andb_false_r].
  exfalso. apply Hn. rewrite <- E.
  destruct (@exists_last _ (c :: tail)) as (l' & a & Hl); [discriminate|].
  rewrite Hl, last_last. apply in_or_app. right. left. reflexivity.
Qed.

Lemma chomp_line (name : list ascii) : chomp (name ++ [LF]) = name.
Proof.
  unfold chomp. rewrite complete_line. apply removelast_last.
Qed.

Lemma chomp_unfinished (tail : list ascii) : no_newline tail -> chomp tail = tail.
Proof.
  intros Hn. unfold chomp. rewrite (complete_unfinished Hn). reflexivity.
Qed.

Lemma selection_loop_launches (names : list cstr) (rest : list (list ascii))
  (fk : list bool) :
  Forall (fun b => b = true) fk ->
  selection_loop (map (fun n => n ++ [LF]) names ++ rest) fk =
  let (failure, evs) := selection_loop rest (skipn (length names) fk) in
  (failure, map Launch (map c_str names) ++ evs).
Proof.
  revert fk. induction names as [|n names IH]; intros fk Hfk.
  - simpl. destruct (selection_loop rest fk); reflexivity.
  - destruct fk as [|[|] fk]; simpl; rewrite ?complete_line, ?removelast_last.
    + rewrite (IH [] (Forall_nil _)), skipn_nil.
      destruct (selection_loop rest []); reflexivity.
    + inversion Hfk; subst. rewrite (IH fk) by assumption.
      destruct (selection_loop rest _); reflexivity.
    + inversion Hfk; discriminate.
Qed.

Lemma selection_loop_unfinished (tail : list ascii) (fk : list bool) :
  no_newline tail ->
  selection_loop [tail] fk = (0, [Stderr (ErrMissingNewline (c_str tail))]).
Proof.
  intros Hn. simpl. rewrite (complete_unfinished Hn). reflexivity.
Qed.

(** C10: where no lookup overruns the buffer, [load_commands_from_file]
    takes one final newline off each line (and no more than one), and a
    last line that the stream ends without a newline is an entry like the
    others: it is added when it resolves, and the call returns 0. The loop
    of [menu] launches nothing for such a line and reports it. *)
Theorem C10_loader_accepts_unfinished_line (env : environ) (fl : faults)
  (names : list cstr) (tail : list ascii) (s : state) :
  lookups_defined env ->
  Forall no_newline names -> no_newline tail -> tail <> [] ->
  heap s = [] ->
  let f := {| text := file_of names ++ tail; read_error := None |} in
  let r := load_commands_from_file env fl None (Some f) s in
  fst r = (0, E0) /\
  commands (snd r) =
  commands s ++ filter (resolves env) (map c_str names) ++
  (if resolves env (c_str tail) then [c_str tail] else []) /\
  (forall line, chomp (line ++ [LF]) = line) /\
  selection_loop (getlines (text f)) [] =
  (0, map Launch (map c_str names) ++
      [Stderr (ErrMissingNewline (c_str tail))]).
Proof.
  intros _ Hnames Htail Hne Hheap f r.
  assert (Hlines : getlines (text f) = map (fun n => n ++ [LF]) names ++ [tail]).
  { unfold f. simpl. rewrite (getlines_file_of _ Hnames).
    rewrite (getlines_unfinished Htail Hne). reflexivity. }
  assert (Hentries : map entry_of (getlines (text f)) =
                     map c_str names ++ [c_str tail]).
  { rewrite Hlines, map_app, map_map. simpl. unfold entry_of at 2.
    rewrite (chomp_unfinished Htail). f_equal.
    apply map_ext. intros n. unfold entry_of. rewrite chomp_line. reflexivity. }
  assert (Hr : r = load_commands_from_file env fl None (Some f) s) by reflexivity.
  unfold load_commands_from_file in Hr. unfold bind at 1 in Hr. unfold get in Hr.
  unfold bind in Hr.
  destruct (load_loop_spec env (getlines (text f)) s)
    as (r0 & s' & E & _ & _ & _ & _ & H0 & Hh).
  rewrite E in Hr. destruct (Hh Hheap) as [-> _]. simpl in Hr.
  unfold ret in Hr. rewrite Hr. simpl.
  repeat split.
  - rewrite (H0 eq_refl), Hentries, filter_app. simpl.
    destruct (resolves env (c_str tail)); reflexivity.
  - exact chomp_line.
  - change (file_of names ++ tail) with (text f).
    rewrite Hlines, (selection_loop_launches _ _ (Forall_nil _)).
    rewrite (selection_loop_unfinished _ Htail). reflexivity.
Qed.

(** C10 at a stream that holds "ls", a newline and "ls" again. *)
Lemma C10_loader_accepts_unfinished_line_witness :
  commands (snd (load_commands_from_file ls_env no_faults None
                   (Some {| text := file_of [str "ls"] ++ str "ls";
                            read_error := None |}) empty_state))
  = [str "ls"; str "ls"].
Proof.
  assert (Hls : no_newline (str "ls")).
  { unfold no_newline. simpl. intros [H|[H|[]]]; discriminate. }
  assert (H1 : Forall no_newline [str "ls"]) by (constructor; [exact Hls | constructor]).
  assert (H3 : str "ls" <> []) by discriminate.
  exact (proj1 (proj2 (@C10_loader_accepts_unfinished_line ls_env no_faults
                         [str "ls"] (str "ls") empty_state
                         (path_fits_defined ls_env eq_refl)
                         H1 Hls H3 eq_refl))).
Defined.

(** ** MenuOrchestrator: menu *)

Lemma selection_loop_failure (lines : list (list ascii)) (fk : list bool) :
  fst (selection_loop lines fk) =
  if existsb negb (firstn (length (filter complete lines)) fk) then 1 else 0.
Proof.
  revert fk. induction lines as [|line lines IH]; intros fk; simpl.
  - reflexivity.
  - destruct (complete line); simpl.
    + destruct fk as [|[|] fk]; simpl.
      * specialize (IH []). rewrite firstn_nil in IH. simpl in IH.
        destruct (selection_loop lines []); exact IH.
      * specialize (IH fk). destruct (selection_loop lines fk); exact IH.
      * reflexivity.
    + specialize (IH fk). destruct (selection_loop lines fk); exact IH.
Qed.

Lemma read_selections_failure (o : menu_oracle) :
  fst (read_selections o) =
  if negb (close_pipe_ok o) || negb (fdopen_pipe_ok o) || fork_fails o ||
     match read_error (menu_output o) with Some _ => true | None => false end
  then 1 else 0.
Proof.
  unfold read_selections, fork_fails.
  destruct (close_pipe_ok o); [|reflexivity].
  destruct (fdopen_pipe_ok o); [|reflexivity]. simpl.
  pose proof (selection_loop_failure (getlines (text (menu_output o))) (forks o)) as H.
  destruct (selection_loop _ _) as [failure evs]. simpl in H. rewrite H.
  destruct (existsb negb _); simpl; [reflexivity|].
  destruct (read_error (menu_output o)); reflexivity.
Qed.

Lemma wait_loop_skip (k : nat) (ws : list wait_result) (failure sig : Z) :
  wait_loop (repeat WOther k ++ ws) failure sig =
  match wait_loop ws failure sig with
  | Some (r, evs) => Some (r, repeat Waitpid k ++ evs)
  | None => None
  end.
Proof.
  induction k as [|k IH]; simpl.
  - destruct (wait_loop ws failure sig) as [[r evs]|]; reflexivity.
  - rewrite IH. destruct (wait_loop ws failure sig) as [[r evs]|]; reflexivity.
Qed.

(** What the wait loop makes of [failure], which is 0 or 1 when it starts,
    and of the first answer of waitpid that ends it. *)
Lemma wait_loop_reconcile (fatal : bool) (k : nat) (w : wait_result)
  (ws : list wait_result) :
  w <> WOther ->
  (forall n, w = WSignaled n -> n <> 0) ->
  let failure := if fatal then 1 else 0 in
  let sig := if failure =? 1 then SIGHUP else 0 in
  exists evs,
    wait_loop (repeat WOther k ++ w :: ws) failure sig =
    Some (reconcile fatal w, evs).
Proof.
  intros Hw Hsig failure sig. subst failure sig. rewrite wait_loop_skip.
  destruct w as [|status|signum|]; [| | |congruence]; destruct fatal; simpl.
  - eauto.
  - eauto.
  - eauto.
  - destruct (Z.eqb_spec status 0) as [->|_]; simpl; eauto.
  - destruct (signum =? SIGHUP); simpl; eauto.
  - specialize (Hsig signum eq_refl).
    destruct (Z.eqb_spec signum 0); [contradiction|]. simpl. eauto.
Qed.

Lemma menu_status (o : menu_oracle) (k : nat) (w : wait_result)
  (ws : list wait_result) :
  waits o = repeat WOther k ++ w :: ws ->
  w <> WOther ->
  (forall n, w = WSignaled n -> n <> 0) ->
  exists evs, menu o = Some (reconcile (fatal_error o) w, evs).
Proof.
  intros Hwaits Hw Hsig. unfold menu, fatal_error.
  destruct (pipe_ok o); simpl; [|eauto].
  destruct (fork_menu_ok o); simpl; [|eauto].
  pose proof (read_selections_failure o) as Hf.
  destruct (read_selections o) as [failure evs]. simpl in Hf.
  set (fatal := negb (close_pipe_ok o) || negb (fdopen_pipe_ok o) ||
                fork_fails o ||
                match read_error (menu_output o) with
                | Some _ => true
                | None => false
                end) in *.
  destruct (wait_loop_reconcile fatal k ws Hw Hsig) as [evs' Hwl].
  cbv zeta in Hwl. rewrite <- Hf in Hwl. rewrite Hwaits.
  destruct (failure =? 1); rewrite Hwl; eauto.
Qed.

Lemma selection_loop_fork_fails (names : list cstr) (rest : list (list ascii))
  (j : nat) (fk : list bool) :
  (j < length names)%nat ->
  selection_loop (map (fun n => n ++ [LF]) names ++ rest)
    (repeat true j ++ false :: fk) =
  (1, map Launch (map c_str (firstn j names)) ++ [Stderr ErrForkCommand]).
Proof.
  revert names. induction j as [|j IH]; intros [|n names] Hj; simpl in Hj;
    try lia; simpl; rewrite complete_line.
  - reflexivity.
  - rewrite removelast_last, IH by lia. reflexivity.
Qed.

(** C3 (amended): the status of [menu] by priority: 1 after a fatal error
    during the setup or the reading of the selections; else 2 when waiting
    for the menu fails; else the exit status of the menu; else, when a
    signal killed it, 128 plus the number of the signal; else 0. When the
    fork for a selection fails, no further selection is read, the menu is
    sent SIGHUP, the status is 1, and the death of the menu by that SIGHUP
    is not reported. *)
Theorem C3_menu_status_by_priority (o : menu_oracle) (k : nat)
  (w : wait_result) (ws : list wait_result) :
  waits o = repeat WOther k ++ w :: ws ->
  w <> WOther ->
  (forall n, w = WSignaled n -> n <> 0) ->
  option_map fst (menu o) = Some (reconcile (fatal_error o) w) /\
  (forall names rest j fk,
     pipe_ok o = true -> fork_menu_ok o = true ->
     close_pipe_ok o = true -> fdopen_pipe_ok o = true ->
     text (menu_output o) = file_of names ++ rest ->
     Forall no_newline names ->
     forks o = repeat true j ++ false :: fk ->
     (j < length names)%nat ->
     w = WSignaled SIGHUP ->
     menu o =
     Some (1, map Launch (map c_str (firstn j names)) ++
              [Stderr ErrForkCommand] ++
              (if fclose_output_ok o then [] else [Stderr ErrCloseOutput]) ++
              [Kill SIGHUP] ++ repeat Waitpid k ++ [Waitpid])).
Proof.
  intros Hwaits Hw Hsig. split.
  - destruct (menu_status o k ws Hwaits Hw Hsig) as [evs ->]. reflexivity.
  - intros names rest j fk Hp Hf Hc Hd Htext Hnames Hforks Hj ->.
    unfold menu, read_selections. rewrite Hp, Hf, Hc, Hd. simpl.
    rewrite Htext, (getlines_file_of _ Hnames), Hforks.
    rewrite (selection_loop_fork_fails _ _ _ Hj). simpl.
    rewrite Hwaits, wait_loop_skip. simpl.
    rewrite <- !app_assoc. reflexivity.
Qed.

(** C3 at a menu that prints two commands, when the second fork fails. *)
Lemma C3_menu_status_by_priority_witness :
  menu second_fork_fails =
  Some (1, [Launch (str "xterm"); Stderr ErrForkCommand; Kill SIGHUP; Waitpid]).
Proof.
  assert (Hw : WSignaled SIGHUP <> WOther) by discriminate.
  assert (Hs : forall n, WSignaled SIGHUP = WSignaled n -> n <> 0).
  { intros n H. inversion H. discriminate. }
  assert (Hn : Forall no_newline [str "xterm"; str "ls"]).
  { repeat constructor; unfold no_newline; simpl; intuition discriminate. }
  exact (proj2 (@C3_menu_status_by_priority second_fork_fails 0
                  (WSignaled SIGHUP) [] eq_refl Hw Hs)
           [str "xterm"; str "ls"] [] 1%nat [] eq_refl eq_refl eq_refl eq_refl
           eq_refl Hn eq_refl (le_n 2) eq_refl).
Defined.

(** C3 (counterexample): no fatal error occurs, the menu is not seen to
    exit or to die from a signal, and the status is 2, not 0. *)
Lemma C3_wait_failure_gives_2 :
  fatal_error lost_menu = false /\
  menu lost_menu = Some (2, [Waitpid; Stderr ErrWait]).
Proof. split; reflexivity. Qed.

(** C9: every line of the menu that ends with a newline is launched, in
    order, in a process that the parent never waits for (the only waitpid
    calls are those on the menu); a last line without its newline is
    reported and not launched; and when the menu then exits with status 0,
    the status of [menu] is 0. *)
Theorem C9_selections_launch_in_order (o : menu_oracle) (names : list cstr)
  (tail : list ascii) (k : nat) (ws : list wait_result) :
  pipe_ok o = true -> fork_menu_ok o = true ->
  close_pipe_ok o = true -> fdopen_pipe_ok o = true ->
  text (menu_output o) = file_of names ++ tail ->
  read_error (menu_output o) = None ->
  Forall no_newline names -> no_newline tail ->
  Forall (fun b => b = true) (forks o) ->
  waits o = repeat WOther k ++ WExited 0 :: ws ->
  menu o =
  Some (0, map Launch (map c_str names) ++
           match tail with
           | [] => []
           | _ => [Stderr (ErrMissingNewline (c_str tail))]
           end ++
           (if fclose_output_ok o then [] else [Stderr ErrCloseOutput]) ++
           repeat Waitpid k ++ [Waitpid]).
Proof.
  intros Hp Hf Hc Hd Htext Herr Hnames Htail Hforks Hwaits.
  unfold menu, read_selections. rewrite Hp, Hf, Hc, Hd, Herr. simpl.
  rewrite Htext, (getlines_file_of _ Hnames).
  rewrite (selection_loop_launches _ _ Hforks).
  assert (Hlast : forall fk,
            selection_loop (getlines tail) fk =
            (0, match tail with
                | [] => []
                | _ => [Stderr (ErrMissingNewline (c_str tail))]
                end)).
  { intros fk. destruct tail as [|c tail]; [reflexivity|].
    rewrite (getlines_unfinished Htail) by discriminate.
    apply (selection_loop_unfinished _ Htail). }
  rewrite Hlast. simpl. rewrite Hwaits, wait_loop_skip. simpl.
  rewrite <- !app_assoc. reflexivity.
Qed.

(** C9 at a menu that prints "xterm", "ls" and "fire" without newline. *)
Lemma C9_selections_launch_in_order_witness :
  menu unfinished_line =
  Some (0, [Launch (str "xterm"); Launch (str "ls");
            Stderr (ErrMissingNewline (str "fire")); Waitpid]).
Proof.
  assert (Hn : Forall no_newline [str "xterm"; str "ls"]).
  { repeat constructor; unfold no_newline; simpl; intuition discriminate. }
  assert (Ht : no_newline (str "fire")).
  { unfold no_newline; simpl; intuition discriminate. }
  exact (@C9_selections_launch_in_order unfinished_line
           [str "xterm"; str "ls"] (str "fire") 0 []
           eq_refl eq_refl eq_refl eq_refl eq_refl eq_refl Hn Ht
           (Forall_nil _) eq_refl).
Defined.

(** ** CommandRegistry: persistence *)

Lemma cstr_eqb_eq (a b : cstr) : cstr_eqb a b = true <-> a = b.
Proof.
  unfold cstr_eqb. destruct (list_eq_dec ascii_dec a b); split; congruence.
Qed.

Lemma fs_set_same (d : filesystem) (p : cstr) (v : option (list ascii)) :
  fs_set d p v p = v.
Proof.
  unfold fs_set. destruct (cstr_eqb p p) eqn:E; [reflexivity|].
  assert (cstr_eqb p p = true) by (apply cstr_eqb_eq; reflexivity). congruence.
Qed.

Lemma fs_set_other (d : filesystem) (p q : cstr) (v : option (list ascii)) :
  q <> p -> fs_set d p v q = d q.
Proof.
  intros H. unfold fs_set. destruct (cstr_eqb q p) eqn:E; [|reflexivity].
  apply cstr_eqb_eq in E. contradiction.
Qed.

Lemma tempname_fresh (path suffix : cstr) : suffix <> [] -> path <> path ++ suffix.
Proof.
  intros Hs H. apply Hs. apply (app_inv_head path).
  rewrite app_nil_r. symmetry. exact H.
Qed.

Lemma file_of_cons (c : cstr) (l : list cstr) :
  file_of (c :: l) = c ++ [LF] ++ file_of l.
Proof. unfold file_of. simpl. rewrite <- app_assoc. reflexivity. Qed.

(** When every fprintf succeeds the file receives the printed entries. *)
Lemma write_commands_true (o : refresh_oracle) (sorted : list cstr) :
  forall i prev written written',
    write_commands o i prev sorted written = (true, written') ->
    written' = written ++ file_of (printed prev sorted).
Proof.
  induction sorted as [|c sorted IH]; intros i prev written written'; simpl.
  - intros H. inversion H. rewrite app_nil_r. reflexivity.
  - destruct (match prev with
              | Some p => negb (strcmp p c =? 0)
              | None => true
              end).
    + destruct (fprintf_ok o i); [|discriminate].
      intros H. rewrite (IH _ _ _ _ H), file_of_cons, <- !app_assoc. reflexivity.
    + apply IH.
Qed.

Lemma write_commands_all_ok (o : refresh_oracle) (sorted : list cstr) :
  (forall i, fprintf_ok o i = true) ->
  forall i prev written,
    fst (write_commands o i prev sorted written) = true.
Proof.
  intros Hok. induction sorted as [|c sorted IH]; intros i prev written; simpl.
  - reflexivity.
  - destruct (match prev with
              | Some p => negb (strcmp p c =? 0)
              | None => true
              end); [rewrite Hok|]; apply IH.
Qed.

(** What one run of the persistence does: its value, the files and what it
    prints, by the first step that fails. Whatever happens, every content
    that the destination ever has is the old one or the new one. *)
Lemma persist_outcome (qsort : list cstr -> list cstr) (o : refresh_oracle)
  (path : cstr) (s : state) :
  (forall suffix, mkstemp_suffix o = Some suffix -> suffix <> []) ->
  let sorted := qsort (commands s) in
  let tempname := tempname_of o path in
  let new := Some (file_of (printed None sorted)) in
  let P := fun d : filesystem => d path = disk s path \/ d path = new in
  exists r s',
    persist qsort o path s = (r, s') /\
    (Forall P (past s) -> Forall P (disk s' :: past s')) /\
    match first_failure o sorted with
    | None =>
        r = 0 /\ disk s' path = new /\ disk s' tempname = None /\
        out s' = out s
    | Some step =>
        r = 1 /\ disk s' path = disk s path /\
        out s' =
        out s ++ reports step tempname path ++
        (if match step with StepMkstemp => false | _ => negb (unlink_ok o) end
         then [Stderr (ErrUnlink tempname)] else []) /\
        (step <> StepMkstemp -> unlink_ok o = true ->
         disk s' tempname = None)
    end.
Proof.
  intros Hfresh sorted tempname new P.
  unfold persist, first_failure, persist_error.
  subst tempname. unfold tempname_of.
  destruct (mkstemp_suffix o) as [suffix|] eqn:Hmk.
  2:{ run. eexists. eexists. split; [reflexivity|]. simpl.
      split; [intros H; constructor; [left; reflexivity | exact H]|].
      repeat split; auto. congruence. }
  assert (Hne : path <> path ++ suffix) by (apply tempname_fresh; eauto).
  assert (HP0 : P (disk s)) by (left; reflexivity).
  assert (HP1 : forall d v, P d -> P (fs_set d (path ++ suffix) v)).
  { intros d v Hd. unfold P. rewrite fs_set_other by exact Hne. exact Hd. }
  run. fold sorted.
  destruct (fdopen_ok o); simpl.
  2:{ destruct (unlink_ok o); run; eexists; eexists;
        (split; [reflexivity|]); simpl;
        (split; [intros H; repeat (constructor; auto)|]);
        rewrite ?fs_set_same, ?fs_set_other by exact Hne;
        repeat split; auto; try discriminate; rewrite <- ?app_assoc;
        reflexivity. }
  destruct (write_commands o 0 None sorted []) as [ok written] eqn:Hw.
  destruct ok; simpl.
  2:{ destruct (unlink_ok o); run; eexists; eexists;
        (split; [reflexivity|]); simpl;
        (split; [intros H; repeat (constructor; auto)|]);
        rewrite ?fs_set_same, ?fs_set_other by exact Hne;
        repeat split; auto; try discriminate; rewrite <- ?app_assoc;
        reflexivity. }
  apply write_commands_true in Hw. simpl in Hw. subst written.
  destruct (fflush_ok o && fsync_ok o && fclose_ok o); simpl.
  2:{ destruct (unlink_ok o); run; eexists; eexists;
        (split; [reflexivity|]); simpl;
        (split; [intros H; repeat (constructor; auto)|]);
        rewrite ?fs_set_same, ?fs_set_other by exact Hne;
        repeat split; auto; try discriminate; rewrite <- ?app_assoc;
        reflexivity. }
  destruct (rename_ok o); simpl.
  2:{ destruct (unlink_ok o); run; eexists; eexists;
        (split; [reflexivity|]); simpl;
        (split; [intros H; repeat (constructor; auto)|]);
        rewrite ?fs_set_same, ?fs_set_other by exact Hne;
        repeat split; auto; try discriminate; rewrite <- ?app_assoc;
        reflexivity. }
  run. eexists. eexists. split; [reflexivity|]. simpl.
  assert (Hnew : fs_set
                   (fs_set (fs_set (fs_set (disk s) (path ++ suffix) (Some []))
                              (path ++ suffix)
                              (Some (file_of (printed None sorted))))
                      path
                      (fs_set (fs_set (disk s) (path ++ suffix) (Some []))
                         (path ++ suffix)
                         (Some (file_of (printed None sorted)))
                         (path ++ suffix)))
                   (path ++ suffix) None path = new).
  { rewrite fs_set_other by exact Hne. rewrite fs_set_same, fs_set_same.
    reflexivity. }
  split.
  - intros H. constructor; [right; exact Hnew|]. repeat (constructor; auto).
  - repeat split; auto. apply fs_set_same.
Qed.




(** ** The persisted list *)

Lemma strcmp_sym (a b : cstr) : strcmp a b = 0 -> strcmp b a = 0.
Proof. rewrite !strcmp_eq. auto. Qed.

Lemma printed_incl (sorted : list cstr) :
  forall prev l, In l (printed prev sorted) -> In l sorted.
Proof.
  induction sorted as [|c sorted IH]; intros prev l; simpl; [tauto|].
  destruct (match prev with
            | Some p => negb (strcmp p c =? 0)
            | None => true
            end); simpl.
  - intros [H|H]; [left; exact H | right; exact (IH _ _ H)].
  - intros H. right. exact (IH _ _ H).
Qed.

Lemma printed_sorted (sorted : list cstr) :
  StronglySorted ci_le sorted ->
  forall prev, StronglySorted ci_le (printed prev sorted).
Proof.
  induction 1 as [|c sorted Hs IH Hall]; intros prev; simpl; [constructor|].
  destruct (match prev with
            | Some p => negb (strcmp p c =? 0)
            | None => true
            end); [|apply IH].
  constructor; [apply IH|].
  rewrite Forall_forall in *. intros l Hl. apply Hall.
  exact (printed_incl _ _ _ Hl).
Qed.

(** No printed entry is the same string as the one printed before it. *)
Lemma printed_adjacent (sorted : list cstr) :
  forall prev,
    (forall p a l, prev = Some p -> printed prev sorted = a :: l ->
                   strcmp p a <> 0) /\
    (forall l1 a b l2, printed prev sorted = l1 ++ a :: b :: l2 ->
                       strcmp a b <> 0).
Proof.
  induction sorted as [|c sorted IH]; intros prev; simpl.
  - split; [discriminate | intros [|x l1]; discriminate].
  - destruct (IH (Some c)) as [IHh IHa].
    destruct prev as [p|]; simpl.
    + destruct (Z.eqb_spec (strcmp p c) 0) as [E|E]; simpl.
      * split; [|exact IHa].
        intros p' a l Hp Hpr. inversion Hp; subst p'.
        intros Hpa. apply (IHh c a l eq_refl Hpr).
        apply strcmp_trans_eq with p; [apply strcmp_sym; exact E | exact Hpa].
      * split.
        -- intros p' a l Hp Hpr. inversion Hp; inversion Hpr; subst. exact E.
        -- intros [|x l1] a b l2 Hpr; inversion Hpr; subst.
           ++ apply (IHh a b l2 eq_refl). assumption.
           ++ apply (IHa l1 a b l2). assumption.
    + split; [discriminate|].
      intros [|x l1] a b l2 Hpr; inversion Hpr; subst.
      * apply (IHh a b l2 eq_refl). assumption.
      * apply (IHa l1 a b l2). assumption.
Qed.

(** Every entry has its string in the file. *)
Lemma printed_covers (sorted : list cstr) :
  forall prev c,
    In c sorted ->
    (exists l, In l (printed prev sorted) /\ strcmp l c = 0) \/
    (exists p, prev = Some p /\ strcmp p c = 0).
Proof.
  induction sorted as [|x sorted IH]; intros prev c; simpl; [tauto|].
  intros [->|Hin].
  - destruct prev as [p|]; simpl.
    + destruct (Z.eqb_spec (strcmp p c) 0) as [E|E]; simpl.
      * right. eauto.
      * left. exists c. split; [left; reflexivity | apply strcmp_refl].
    + left. exists c. split; [left; reflexivity | apply strcmp_refl].
  - destruct (IH (Some x) c Hin) as [(l & Hl & Hlc)|(p & Hp & Hpc)].
    + left. exists l. split; [|exact Hlc].
      destruct (match prev with
                | Some p => negb (strcmp p x =? 0)
                | None => true
                end); [right|]; exact Hl.
    + inversion Hp; subst p.
      destruct prev as [p|]; simpl.
      * destruct (Z.eqb_spec (strcmp p x) 0) as [E|E]; simpl.
        -- right. exists p. split; [reflexivity|].
           apply strcmp_trans_eq with x; assumption.
        -- left. exists x. split; [left; reflexivity | exact Hpc].
      * left. exists x. split; [left; reflexivity | exact Hpc].
Qed.

(** Over entries that strcasecmp tells apart nothing is skipped. *)
Lemma printed_unique (sorted : list cstr) :
  forall prev,
    NoDup (map casefold (match prev with
                         | Some p => p :: sorted
                         | None => sorted
                         end)) ->
    printed prev sorted = sorted.
Proof.
  induction sorted as [|c sorted IH]; intros prev Hnd; simpl; [reflexivity|].
  assert (Htail : NoDup (map casefold (c :: sorted))).
  { destruct prev; [inversion Hnd; assumption | exact Hnd]. }
  rewrite (IH (Some c) Htail).
  destruct prev as [p|]; [|reflexivity].
  destruct (Z.eqb_spec (strcmp p c) 0) as [E|E]; [|reflexivity].
  exfalso. inversion Hnd as [|? ? Hnotin _]; subst. apply Hnotin.
  left. symmetry. apply strcasecmp_eq, strcmp_strcasecmp, E.
Qed.

Lemma qsort_strongly_sorted (qsort : list cstr -> list cstr) (l : list cstr) :
  qsort_spec qsort -> StronglySorted ci_le (qsort l).
Proof.
  intros Hq. apply Sorted_StronglySorted; [exact ci_le_trans | apply Hq].
Qed.

(** C1 (amended): persist sorts the entries case-insensitively and writes
    them, skipping an entry that strcmp, which tells cases apart, finds
    equal to the one just before it in the sorted array. The file is
    in case-insensitive order, no line is the same string as the line
    before it, its lines are entries and every entry has its string among
    them; when the entries are distinct under case-insensitive comparison,
    each of them is there exactly once. *)
Theorem C1_persisted_list (qsort : list cstr -> list cstr)
  (o : refresh_oracle) (path : cstr) (s : state) :
  qsort_spec qsort ->
  (forall suffix, mkstemp_suffix o = Some suffix -> suffix <> []) ->
  first_failure o (qsort (commands s)) = None ->
  let lines := printed None (qsort (commands s)) in
  disk (snd (persist qsort o path s)) path = Some (file_of lines) /\
  StronglySorted ci_le lines /\
  (forall l1 a b l2, lines = l1 ++ a :: b :: l2 -> strcmp a b <> 0) /\
  (forall l, In l lines -> In l (commands s)) /\
  (forall c, In c (commands s) -> exists l, In l lines /\ strcmp l c = 0) /\
  (registry_unique (commands s) -> Permutation (commands s) lines).
Proof.
  intros Hq Hfresh Hok lines.
  destruct (Hq (commands s)) as [Hperm Hsorted].
  split; [|split; [|split; [|split; [|split]]]].
  - destruct (persist_outcome qsort o path s Hfresh) as (r & s' & E & _ & Hcase).
    rewrite Hok in Hcase. rewrite E. simpl. apply Hcase.
  - apply printed_sorted, qsort_strongly_sorted, Hq.
  - apply (printed_adjacent (qsort (commands s)) None).
  - intros l Hl. apply (Permutation_in l (Permutation_sym Hperm)).
    exact (printed_incl _ _ _ Hl).
  - intros c Hc.
    destruct (printed_covers (qsort (commands s)) None c
                (Permutation_in c Hperm Hc)) as [H|(p & Hp & _)];
      [exact H | discriminate].
  - intros Hu. unfold lines. rewrite printed_unique; [exact Hperm|].
    apply registry_unique_NoDup in Hu.
    apply (Permutation_NoDup (Permutation_map casefold Hperm) Hu).
Qed.

(** C1 at a registry that holds "xterm" twice and "ls" in two cases. *)
Lemma C1_persisted_list_witness :
  disk (snd (persist insertion_sort (smooth_refresh StdinTty) del_list
               (state_with [str "xterm"; str "ls"; str "xterm"; str "Ls"])))
    del_list
  = Some (file_of [str "ls"; str "Ls"; str "xterm"]).
Proof.
  assert (Hfresh : forall suffix,
            mkstemp_suffix (smooth_refresh StdinTty) = Some suffix ->
            suffix <> []).
  { intros suffix H. inversion H. discriminate. }
  exact (proj1 (@C1_persisted_list insertion_sort (smooth_refresh StdinTty)
                  del_list
                  (state_with [str "xterm"; str "ls"; str "xterm"; str "Ls"])
                  insertion_sort_qsort Hfresh eq_refl)).
Defined.

(** C1 (counterexample): a refresh whose standard input names the programs
    "Foo" and "foo" persists both, two lines that strcasecmp finds equal. *)
Lemma C1_case_variants_both_persisted :
  let o := smooth_refresh
             (StdinFile {| text := file_of [str "Foo"; str "foo"];
                           read_error := None |}) in
  let r := refresh_command_list insertion_sort foo_env o del_list []
             empty_state in
  fst r = 0 /\
  disk (snd r) del_list = Some (file_of [str "Foo"; str "foo"]) /\
  strcasecmp (str "Foo") (str "foo") = 0.
Proof. repeat split; vm_compute; reflexivity. Qed.

(** ** The refresh as a whole *)

Lemma nftw_visits_files (env : environ) (vs : list visit) :
  forall s r s',
    nftw_visits env vs s = (r, s') ->
    disk s' = disk s /\ past s' = past s.
Proof.
  induction vs as [|v vs IH]; intros s r s'; simpl.
  - unfold ret. intros H. inversion H. auto.
  - unfold bind. destruct (parse_desktop_entry env v s) as [r1 s1] eqn:E.
    destruct (parse_desktop_entry_commands _ _ _ E) as (Hd & Hp & _).
    destruct (r1 =? 0).
    + intros H. destruct (IH _ _ _ H) as [Hd' Hp']. split; congruence.
    + unfold ret. intros H. inversion H; subst. auto.
Qed.

Lemma walk_dirs_files (env : environ) (o : refresh_oracle) (dirs : list cstr) :
  forall s r s',
    walk_dirs env o dirs s = (r, s') ->
    disk s' = disk s /\ past s' = past s.
Proof.
  induction dirs as [|dir dirs IH]; intros s r s'; simpl.
  - unfold ret. intros H. inversion H. auto.
  - unfold bind at 1. unfold nftw. unfold bind at 1.
    destruct (nftw_visits env (visits (nftw_walk o dir)) s) as [r1 s1] eqn:E.
    destruct (nftw_visits_files _ _ _ E) as [Hd Hp].
    assert (Hnext : forall r2,
              (if r2 =? 0 then walk_dirs env o dirs
               else s0 <- get ;;
                    (if malloc_failed s0 then ret tt else perror (ErrWalk dir)) ;;
                    ret 1) s1 = (r, s') ->
              disk s' = disk s /\ past s' = past s).
    { intros r2. destruct (r2 =? 0).
      - intros H. destruct (IH _ _ _ H). split; congruence.
      - run. destruct (malloc_failed s1); intros H; inversion H; subst; auto. }
    destruct (r1 =? 0); unfold ret; apply Hnext.
Qed.

Lemma gather_files (env : environ) (o : refresh_oracle) (path : cstr)
  (dirs : list cstr) (s : state) (r : Z) (s' : state) :
  gather env o path dirs s = (r, s') ->
  disk s' = disk s /\ past s' = past s.
Proof.
  unfold gather. unfold bind at 1.
  assert (H1 : exists r1 s1,
            match stdin o with
            | StdinFile f =>
                r <- load_commands_from_file env (io_faults o) None (Some f) ;;
                if fst r =? 0 then ret 0 else perror ErrLoadStdin ;; ret 1
            | _ => ret 0
            end s = (r1, s1) /\ disk s1 = disk s /\ past s1 = past s).
  { destruct (stdin o) as [| |f];
      [exists 0, s; auto | exists 0, s; auto |].
    unfold bind at 1.
    destruct (load_commands_from_file_spec env (io_faults o) None (Some f) s)
      as (r0 & s0 & E & Hd & Hp & _).
    rewrite E. destruct (fst r0 =? 0); run; eexists; eexists; eauto. }
  destruct H1 as (r1 & s1 & E1 & Hd1 & Hp1). rewrite E1.
  destruct (r1 =? 0);
    [change (negb true) with false | change (negb false) with true];
    cbv iota.
  2:{ unfold ret. intros H. inversion H; subst. auto. }
  unfold bind at 1.
  destruct (load_commands_from_file_spec env (io_faults o) (Some path) None s1)
    as (r0 & s0 & E & Hd & Hp & _).
  rewrite E.
  destruct (negb (fst r0 =? 0) && negb (errno_eqb (snd r0) ENOENT)).
  - run. intros H. inversion H; subst. simpl. rewrite Hd, Hp. auto.
  - intros H.
    assert (Hw : exists ds, walk_dirs env o ds s0 = (r, s')).
    { destruct dirs; eauto. }
    destruct Hw as [ds Hw]. destruct (walk_dirs_files _ _ _ _ Hw).
    split; congruence.
Qed.

(** C8: where no lookup overruns the buffer, when the three sources of
    commands have been read without a fatal error and the registry is
    empty, the refresh prints "no commands found" and returns 1; no file
    has been created or changed. *)
Theorem C8_empty_registry_is_fatal (qsort : list cstr -> list cstr)
  (env : environ) (o : refresh_oracle) (path : cstr) (dirs : list cstr)
  (s s1 : state) :
  lookups_defined env ->
  gather env o path dirs s = (0, s1) ->
  commands s1 = [] ->
  let r := refresh_command_list qsort env o path dirs s in
  fst r = 1 /\
  out (snd r) = out s1 ++ [Stderr ErrNoCommands] /\
  disk (snd r) = disk s /\ past (snd r) = past s.
Proof.
  intros _ Hg Hc r. subst r. unfold refresh_command_list, bind. rewrite Hg.
  simpl. unfold get, command_count. rewrite Hc. simpl.
  destruct (gather_files _ _ _ _ _ Hg) as [Hd Hp]. run. auto.
Qed.

(** C8 at a refresh that finds nothing. *)
Lemma C8_empty_registry_is_fatal_witness :
  let r := refresh_command_list insertion_sort ls_env (smooth_refresh StdinTty)
             del_list [] empty_state in
  fst r = 1 /\ out (snd r) = [Stderr ErrNoCommands] /\
  disk (snd r) = disk empty_state /\ past (snd r) = [].
Proof.
  exact (@C8_empty_registry_is_fatal insertion_sort ls_env
           (smooth_refresh StdinTty) del_list [] empty_state empty_state
           (path_fits_defined ls_env eq_refl) eq_refl eq_refl).
Defined.

(** ** The registry and its comparator, further *)

Lemma strcasecmp_antisym (a : cstr) : forall b, strcasecmp b a = - strcasecmp a b.
Proof.
  induction a as [|c a IH]; intros [|d b]; simpl; try lia.
  rewrite (Z.eqb_sym (uchar (tolower d)) (uchar (tolower c))).
  destruct (Z.eqb_spec (uchar (tolower c)) (uchar (tolower d))) as [E|E].
  - rewrite E. destruct (uchar (tolower d) =? 0); [reflexivity|apply IH].
  - lia.
Qed.

Lemma strcasecmp_bound (a : cstr) : forall b, -255 <= strcasecmp a b <= 255.
Proof.
  induction a as [|c a IH]; intros [|d b]; simpl; uchar_bounds; try lia.
  destruct (uchar (tolower c) =? uchar (tolower d)).
  - destruct (uchar (tolower c) =? 0); [lia|apply IH].
  - lia.
Qed.

(** X1: [stringcomparator] is a consistent comparison function, as qsort(3)
    requires: swapping the arguments negates the value, the value is 0
    exactly when the two strings, cut at their terminator, are equal up to
    the case of ASCII letters, "not greater" is transitive, and the value
    is a difference of two bytes. *)
Theorem stringcomparator_consistent (a b c : cstr) :
  stringcomparator b a = - stringcomparator a b /\
  (stringcomparator a b = 0 <-> casefold a = casefold b) /\
  (stringcomparator a b <= 0 -> stringcomparator b c <= 0 ->
   stringcomparator a c <= 0) /\
  -255 <= stringcomparator a b <= 255.
Proof.
  unfold stringcomparator.
  split; [apply strcasecmp_antisym|].
  split; [apply strcasecmp_eq|].
  split; [apply strcasecmp_trans|apply strcasecmp_bound].
Qed.

Lemma command_list_contains_true (s : state) (needle : cstr) :
  command_list_contains s needle = true <->
  exists c, In c (commands s) /\ casefold c = casefold needle.
Proof.
  unfold command_list_contains. rewrite existsb_exists.
  split; intros (c & Hin & H); exists c; split; auto.
  - apply strcasecmp_eq. apply Z.eqb_eq. exact H.
  - apply Z.eqb_eq. apply strcasecmp_eq. exact H.
Qed.

(** X2: [command_list_contains] tells whether the registry holds an entry
    equal to the needle up to the case of ASCII letters; needles that
    strcasecmp cannot tell apart get the same answer. *)
Theorem command_list_contains_casefold (s : state) (needle : cstr) :
  (command_list_contains s needle = true <->
   In (casefold needle) (map casefold (commands s))) /\
  (forall other, strcasecmp needle other = 0 ->
     command_list_contains s other = command_list_contains s needle).
Proof.
  split.
  - rewrite command_list_contains_true, in_map_iff.
    split; intros (c & H1 & H2); exists c; auto.
  - intros other H. apply strcasecmp_eq in H.
    apply eq_true_iff_eq. rewrite !command_list_contains_true.
    rewrite H. reflexivity.
Qed.

(** X3: one call of [add_command_to_list] on a registry that fits its array.
    Either it returns 0, the command is the new last entry whether or not
    the registry holds it already, nothing is printed and the array has
    grown by one chunk of 64 exactly when it was full; or it returns 1, the
    registry is as before, [malloc_failed] is set and one message is
    printed, the capacity being restored when it is realloc that failed.
    In both cases the count stays within the capacity. *)
Theorem add_command_to_list_outcome (cmd : cstr) (s : state) :
  (command_count s <= max_commands s)%nat ->
  let r := fst (add_command_to_list cmd s) in
  let s' := snd (add_command_to_list cmd s) in
  (command_count s' <= max_commands s')%nat /\
  ((r = 0 /\ commands s' = commands s ++ [cmd] /\
    malloc_failed s' = malloc_failed s /\ out s' = out s /\
    max_commands s' =
    if (command_count s <? max_commands s)%nat then max_commands s
    else (max_commands s + INCREMENTAL_ALLOCATION_SIZE)%nat) \/
   (r = 1 /\ commands s' = commands s /\ malloc_failed s' = true /\
    ((out s' = out s ++ [Stderr ErrResize] /\
      max_commands s' = max_commands s) \/
     out s' = out s ++ [Stderr ErrUpdate]))).
Proof.
  intros Hcap. unfold add_command_to_list, command_count in *.
  unfold INCREMENTAL_ALLOCATION_SIZE.
  destruct (Nat.ltb_spec (length (commands s)) (max_commands s)) as [Hlt|Hge].
  - assert (Hle : (max_commands s <=? length (commands s))%nat = false)
      by (apply Nat.leb_gt; exact Hlt).
    run. rewrite Hle. simpl.
    destruct (heap s) as [|[|] h]; simpl; rewrite ?length_app; simpl;
      (split; [lia|]); auto 10.
  - assert (Hle : (max_commands s <=? length (commands s))%nat = true)
      by (apply Nat.leb_le; exact Hge).
    run. rewrite Hle. simpl.
    destruct (heap s) as [|[|] [|[|] h]]; simpl; rewrite ?length_app; simpl;
      (split; [lia|]); auto 10.
Qed.

(** X3 at the empty registry: the first command makes the array 64 wide. *)
Lemma add_command_to_list_outcome_witness :
  commands (snd (add_command_to_list (str "ls") empty_state)) = [str "ls"] /\
  max_commands (snd (add_command_to_list (str "ls") empty_state)) = 64%nat.
Proof.
  destruct (@add_command_to_list_outcome (str "ls") empty_state
              ltac:(vm_compute; lia)) as (_ & [H|H]).
  - split; [apply H|]. destruct H as (_ & _ & _ & _ & H). exact H.
  - exfalso. destruct H as (H & _). vm_compute in H. discriminate.
Defined.

(** X4: after [add_command_to_list], [command_list_contains] finds what it
    found before and, if the call returned 0, every needle that equals the
    added command up to case; a failed call changes no answer. *)
Theorem add_command_to_list_then_contains (cmd needle : cstr) (s : state) :
  let r := fst (add_command_to_list cmd s) in
  let s' := snd (add_command_to_list cmd s) in
  command_list_contains s' needle =
  command_list_contains s needle ||
  ((r =? 0) && (strcasecmp cmd needle =? 0)).
Proof.
  destruct (add_command_to_list_spec cmd s)
    as (r & s' & E & _ & _ & [(Hr & Hc & _)|(Hr & Hc & _)] & _);
    rewrite E; simpl; unfold command_list_contains; rewrite Hc, Hr.
  - rewrite existsb_app. simpl. rewrite orb_false_r. reflexivity.
  - simpl. rewrite orb_false_r. reflexivity.
Qed.

(** ** The PATH lookup, further *)

Lemma search_found (env : environ) (command p : cstr) (comps : list cstr) :
  search env command comps = Found p ->
  exists before comp after,
    comps = before ++ comp :: after /\
    p = prefix_of comp ++ command /\
    (length p < PATH_MAX env)%nat /\
    can_execute env p = true /\
    Forall (fun c => can_execute env (prefix_of c ++ command) = false) before.
Proof.
  induction comps as [|comp rest IH]; simpl; [discriminate|].
  destruct (fits env comp); simpl; [|discriminate].
  destruct (Nat.leb_spec (PATH_MAX env) (length (prefix_of comp ++ command)))
    as [Hl|Hl]; [discriminate|].
  destruct (can_execute env (prefix_of comp ++ command)) eqn:Hx.
  - intros E. inversion E; subst p.
    exists [], comp, rest.
    split; [reflexivity|]. split; [reflexivity|].
    split; [lia|]. split; [exact Hx|constructor].
  - intros E. destruct (IH E) as (b & c & a & -> & Hp & Hlen & Hc & Hb).
    exists (comp :: b), c, a.
    split; [reflexivity|]. split; [exact Hp|].
    split; [exact Hlen|]. split; [exact Hc|constructor; assumption].
Qed.

Lemma search_app (env : environ) (command : cstr) (l1 l2 : list cstr) :
  search env command (l1 ++ l2) =
  match search env command l1 with
  | NotFound => search env command l2
  | r => r
  end.
Proof.
  induction l1 as [|comp rest IH]; simpl; [reflexivity|].
  destruct (fits env comp); simpl; [|reflexivity].
  destruct (PATH_MAX env <=? length (prefix_of comp ++ command))%nat;
    [reflexivity|].
  destruct (can_execute env (prefix_of comp ++ command)); [reflexivity|].
  exact IH.
Qed.

Lemma split_colon_app (a b : cstr) :
  split_colon (a ++ ":"%char :: b) = split_colon a ++ split_colon b.
Proof.
  induction a as [|c a IH]; simpl; [reflexivity|].
  destruct (Ascii.eqb c ":"); [rewrite IH; reflexivity|].
  rewrite IH. destruct (split_colon_cons a) as (h & t & ->). reflexivity.
Qed.

Lemma can_execute_true (env : environ) (p : cstr) :
  can_execute env p = true ->
  access_X_OK env p = true /\ stat env p = Some S_IFREG.
Proof.
  unfold can_execute. destruct (access_X_OK env p); [|discriminate].
  destruct (stat env p) as [[| |]|]; try discriminate. auto.
Qed.

(** X5: a path returned by [command_path] is executable by the user and a
    regular file. For a name with a slash it is the name itself; else it
    is the name behind the directory prefix of a component of [$PATH], it
    is shorter than [PATH_MAX], and no earlier component gives an
    executable file. *)
Theorem command_path_found (env : environ) (command p : cstr) :
  command_path env command = Found p ->
  access_X_OK env p = true /\ stat env p = Some S_IFREG /\
  if strchr command "/" then p = command
  else exists value before comp after,
      getenv_PATH env = Some value /\
      split_colon value = before ++ comp :: after /\
      p = prefix_of comp ++ command /\
      (length p < PATH_MAX env)%nat /\
      Forall (fun c => can_execute env (prefix_of c ++ command) = false) before.
Proof.
  intros H.
  destruct (strchr command "/") eqn:Hs.
  - unfold command_path in H. rewrite Hs in H.
    destruct (can_execute env command) eqn:Hx; [|discriminate].
    inversion H; subst p.
    destruct (can_execute_true _ _ Hx). auto.
  - destruct (getenv_PATH env) as [value|] eqn:Hp.
    + rewrite (@command_path_search env command value Hs Hp) in H.
      destruct (search_found _ _ _ H) as (b & c & a & Hsp & Hpc & Hl & Hx & Hb).
      destruct (can_execute_true _ _ Hx).
      split; [assumption|]. split; [assumption|].
      exists value, b, c, a. auto.
    + unfold command_path in H. rewrite Hs, Hp in H. discriminate.
Qed.

(** X5 at the lookup of "ls" with /bin/ls executable. *)
Lemma command_path_found_witness :
  access_X_OK ls_env (str "/bin/ls") = true /\
  stat ls_env (str "/bin/ls") = Some S_IFREG.
Proof.
  destruct (@command_path_found ls_env (str "ls") (str "/bin/ls") eq_refl)
    as (H1 & H2 & _).
  split; assumption.
Defined.

Lemma search_finds (env : environ) (command : cstr) (comps : list cstr) :
  (exists p, search env command comps = Found p) <->
  exists before comp after,
    comps = before ++ comp :: after /\
    Forall (fun c => (length (prefix_of c ++ command) < PATH_MAX env)%nat /\
                     can_execute env (prefix_of c ++ command) = false)
           before /\
    (length (prefix_of comp ++ command) < PATH_MAX env)%nat /\
    can_execute env (prefix_of comp ++ command) = true.
Proof.
  induction comps as [|comp rest IH].
  - split.
    + intros [p H]. discriminate H.
    + intros (before & c & after & H & _). destruct before; discriminate H.
  - assert (Hhead : forall before c after,
              comp :: rest = before ++ c :: after ->
              Forall (fun c => (length (prefix_of c ++ command)
                                < PATH_MAX env)%nat /\
                               can_execute env (prefix_of c ++ command)
                               = false) before ->
              (length (prefix_of c ++ command) < PATH_MAX env)%nat ->
              (length (prefix_of comp ++ command) < PATH_MAX env)%nat).
    { intros [|b before] c after H Hb Hc; simpl in H; inversion H; subst.
      - exact Hc.
      - inversion Hb; subst. tauto. }
    simpl. unfold fits.
    destruct (Nat.leb_spec (length (prefix_of comp)) (PATH_MAX env))
      as [Hf|Hf]; simpl.
    + destruct (Nat.leb_spec (PATH_MAX env)
                  (length (prefix_of comp ++ command))) as [Hl|Hl].
      * split; [intros [p H]; discriminate H|].
        intros (before & c & after & H & Hb & Hc & _).
        pose proof (Hhead _ _ _ H Hb Hc). lia.
      * destruct (can_execute env (prefix_of comp ++ command)) eqn:Hx.
        -- split; [|intros _; eexists; reflexivity].
           intros _. exists [], comp, rest.
           split; [reflexivity|]. split; [constructor|]. split; assumption.
        -- rewrite IH. split.
           ++ intros (before & c & after & -> & Hb & Hc & Hxc).
              exists (comp :: before), c, after.
              split; [reflexivity|]. split; [|split; assumption].
              constructor; [split; assumption|exact Hb].
           ++ intros ([|b before] & c & after & H & Hb & Hc & Hxc);
                simpl in H; inversion H; subst.
              ** rewrite Hx in Hxc. discriminate Hxc.
              ** inversion Hb; subst.
                 exists before, c, after.
                 split; [reflexivity|]. split; [assumption|].
                 split; assumption.
    + split; [intros [p H]; discriminate H|].
      intros (before & c & after & H & Hb & Hc & _).
      pose proof (Hhead _ _ _ H Hb Hc) as Hlen.
      rewrite length_app in Hlen. lia.
Qed.

(** X6: for a name without a slash and a set [$PATH], [command_path]
    returns a path exactly when some component gives a candidate shorter
    than [PATH_MAX] that is an executable regular file, and every
    component before it a candidate shorter than [PATH_MAX] that is
    not. *)
Theorem command_path_finds_first_match (env : environ)
  (command value : cstr) :
  strchr command "/" = false ->
  getenv_PATH env = Some value ->
  ((exists p, command_path env command = Found p) <->
   exists before comp after,
     split_colon value = before ++ comp :: after /\
     Forall (fun c => (length (prefix_of c ++ command) < PATH_MAX env)%nat /\
                      can_execute env (prefix_of c ++ command) = false)
            before /\
     (length (prefix_of comp ++ command) < PATH_MAX env)%nat /\
     can_execute env (prefix_of comp ++ command) = true).
Proof.
  intros Hs Hp. rewrite (@command_path_search env command value Hs Hp).
  apply search_finds.
Qed.

(** X6 at the lookup of "ls" with /bin/ls executable. *)
Lemma command_path_finds_first_match_witness :
  exists p, command_path ls_env (str "ls") = Found p.
Proof.
  apply (@command_path_finds_first_match ls_env (str "ls") (str "/bin")
           eq_refl eq_refl).
  exists [], (str "/bin"), [].
  split; [reflexivity|]. split; [constructor|].
  split; [vm_compute; lia|reflexivity].
Defined.

Lemma search_with_PATH (env : environ) (command value : cstr)
  (comps : list cstr) :
  search (with_PATH env value) command comps = search env command comps.
Proof.
  induction comps as [|comp rest IH]; simpl; [reflexivity|].
  rewrite IH. reflexivity.
Qed.

(** X7: the components of [$PATH] are tried from left to right: the lookup
    with the value a:b gives what the lookup with a gives, unless that
    finds nothing, in which case it gives what the lookup with b gives. *)
Theorem command_path_concatenated_PATH (env : environ) (command a b : cstr) :
  command_path (with_PATH env (a ++ ":"%char :: b)) command =
  match command_path (with_PATH env a) command with
  | NotFound => command_path (with_PATH env b) command
  | r => r
  end.
Proof.
  destruct (strchr command "/") eqn:Hs.
  - assert (Hce : forall v, can_execute (with_PATH env v) command =
                            can_execute env command) by reflexivity.
    unfold command_path. rewrite Hs, !Hce.
    destruct (can_execute env command); reflexivity.
  - rewrite !(fun v => @command_path_search (with_PATH env v) command v Hs
                         eq_refl).
    rewrite split_colon_app, !search_with_PATH.
    apply search_app.
Qed.

(** ** The parser, further *)

Lemma add_command_to_list_effect (cmd : cstr) (s : state) :
  exists r s',
    add_command_to_list cmd s = (r, s') /\
    ((r = 0 /\ commands s' = commands s ++ [cmd] /\
      malloc_failed s' = malloc_failed s /\ out s' = out s) \/
     (r = 1 /\ commands s' = commands s /\ malloc_failed s' = true /\
      exists d, out s' = out s ++ [Stderr d])) /\
    (heap s = [] -> r = 0 /\ heap s' = []).
Proof.
  unfold add_command_to_list. run.
  destruct (max_commands s <=? command_count s)%nat; run.
  - destruct (heap s) as [|[|] [|[|] h]] eqn:Hh; run;
      eexists; eexists; (split; [reflexivity|]); simpl;
      (split; [|intros; try discriminate; auto]);
      first [left; repeat split; reflexivity
            |right; repeat split; eexists; reflexivity].
  - destruct (heap s) as [|[|] h] eqn:Hh; run;
      eexists; eexists; (split; [reflexivity|]); simpl;
      (split; [|intros; try discriminate; auto]);
      first [left; repeat split; reflexivity
            |right; repeat split; eexists; reflexivity].
Qed.

Lemma has_extension_suffix (stem : cstr) :
  has_extension (stem ++ str ".desktop") = true.
Proof.
  unfold has_extension, strlen. rewrite length_app.
  change (length (str ".desktop")) with 8%nat.
  replace (length stem + 8 - 8)%nat with (length stem + 0)%nat by lia.
  rewrite skipn_app, Nat.add_0_r, skipn_all.
  replace (length stem - length stem)%nat with 0%nat by lia.
  simpl skipn. rewrite strcmp_refl.
  destruct (Nat.leb_spec 8 (length stem + 8)); [reflexivity|lia].
Qed.

Lemma has_extension_stem (fpath : cstr) :
  ~ In NUL fpath -> has_extension fpath = true ->
  exists stem, fpath = stem ++ str ".desktop".
Proof.
  unfold has_extension, strlen. intros Hn H.
  apply andb_true_iff in H. destruct H as [_ H].
  apply Z.eqb_eq, strcmp_eq in H.
  rewrite c_str_id in H.
  - exists (firstn (length fpath - 8) fpath).
    change (c_str (str ".desktop")) with (str ".desktop") in H.
    rewrite <- H. symmetry. apply firstn_skipn.
  - intros Hin. apply Hn.
    rewrite <- (firstn_skipn (length fpath - 8) fpath).
    apply in_or_app. right. exact Hin.
Qed.

(** X8: the test of lines 362-363 accepts every name that ends with
    ".desktop", the bare ".desktop" included, and no other; a file with
    another name, or one that cannot be opened, is skipped: the call
    returns 0 and nothing changes. *)
Theorem parse_desktop_entry_extension (env : environ) (v : visit) (s : state) :
  (forall stem, has_extension (stem ++ str ".desktop") = true) /\
  (~ In NUL (fpath v) -> has_extension (fpath v) = true ->
   exists stem, fpath v = stem ++ str ".desktop") /\
  (has_extension (fpath v) = false \/ opened v = None ->
   parse_desktop_entry env v s = (0, s)).
Proof.
  split; [exact has_extension_suffix|].
  split; [apply has_extension_stem|].
  unfold parse_desktop_entry. intros [H|H]; rewrite H; simpl.
  - reflexivity.
  - destruct (has_extension (fpath v)); reflexivity.
Qed.

Lemma scan_lines_preamble (before rest : list (list ascii)) (st : entry_scan) :
  inside_desktop_entry st = false ->
  Forall (fun l => is_header l = false) before ->
  scan_lines st (before ++ rest) = scan_lines st rest.
Proof.
  intros Hst H. induction H as [|line before Hl _ IH]; [reflexivity|].
  change (scan_lines st ((line :: before) ++ rest))
    with (let (st', stop) := scan_line st (c_str line) in
          if stop then st' else scan_lines st' (before ++ rest)).
  assert (E : scan_line st (c_str line) = (st, false)).
  { unfold scan_line. rewrite Hst. unfold negb. cbv iota.
    unfold is_header in Hl. rewrite Hl.
    destruct st as [inside cmd base]. simpl in Hst. subst inside.
    reflexivity. }
  rewrite E. exact IH.
Qed.

(** X9: the lines before the first "[Desktop Entry]" line are ignored: a
    file is parsed as the file without them, and a file with no such line
    gives no command. *)
Theorem parse_desktop_entry_ignores_preamble (env : environ) (path : cstr)
  (bytes bytes' : list ascii) (before : list (list ascii)) (s : state) :
  getlines bytes = before ++ getlines bytes' ->
  Forall (fun l => is_header l = false) before ->
  parse_desktop_entry env {| fpath := path; opened := Some bytes |} s =
  parse_desktop_entry env {| fpath := path; opened := Some bytes' |} s /\
  (getlines bytes' = [] ->
   parse_desktop_entry env {| fpath := path; opened := Some bytes |} s = (0, s)).
Proof.
  intros Hb Hn.
  assert (E : scan_lines entry_scan_init (getlines bytes) =
              scan_lines entry_scan_init (getlines bytes')).
  { rewrite Hb. apply scan_lines_preamble; [reflexivity|exact Hn]. }
  split.
  - unfold parse_desktop_entry. cbn [fpath opened]. rewrite E.
    reflexivity.
  - intros H0.
    apply (@parse_desktop_entry_no_command env
             {| fpath := path; opened := Some bytes |} bytes s eq_refl).
    rewrite E, H0. reflexivity.
Qed.

(** X9 at an entry with an Exec line before its header: only the Exec
    line after the header counts. *)
Lemma parse_desktop_entry_ignores_preamble_witness :
  commands (snd (parse_desktop_entry ls_env
              {| fpath := str "/usr/share/applications/ls.desktop";
                 opened := Some preamble_entry |} empty_state)) = [str "ls"].
Proof.
  destruct (@parse_desktop_entry_ignores_preamble ls_env
              (str "/usr/share/applications/ls.desktop")
              preamble_entry bare_entry [str "Exec=xterm" ++ [LF]] empty_state
              eq_refl
              ltac:(constructor; [vm_compute; reflexivity|constructor]))
    as [H _].
  rewrite H. vm_compute. reflexivity.
Defined.

Lemma allocate_effect (s : state) (ok : bool) (s0 : state) :
  allocate s = (ok, s0) ->
  commands s0 = commands s /\ malloc_failed s0 = malloc_failed s /\
  out s0 = out s /\ disk s0 = disk s /\ past s0 = past s /\
  max_commands s0 = max_commands s /\
  (heap s = [] -> ok = true /\ heap s0 = []).
Proof.
  unfold allocate. destruct (heap s) as [|b h] eqn:Hh; intros E;
    inversion E; subst; simpl.
  - repeat (split; [reflexivity|]). auto.
  - repeat (split; [reflexivity|]). intros Hnil; discriminate Hnil.
Qed.

Lemma parse_desktop_entry_effect (env : environ) (v : visit) (s : state)
  (r : Z) (s' : state) :
  parse_desktop_entry env v s = (r, s') ->
  (r = 0 \/ r = 1) /\
  (r = 1 ->
   malloc_failed s' = true \/ out s' = out s ++ [Stderr ErrAllocName]) /\
  (heap s = [] -> malloc_failed s = false ->
   r = 0 /\ heap s' = [] /\ malloc_failed s' = false) /\
  (commands s' = commands s \/
   exists bytes base,
     opened v = Some bytes /\
     command_basename (scan_lines entry_scan_init (getlines bytes))
     = Some base /\
     command_list_contains s base = false /\
     let name :=
       if resolves env (map lower base) then map lower base else base in
     resolves env name = true /\
     commands s' = commands s ++ [name] /\
     out s' = out s ++ [Added name (fpath v)]).
Proof.
  assert (Hsame : (0, s) = (r, s') ->
    (r = 0 \/ r = 1) /\
    (r = 1 ->
     malloc_failed s' = true \/ out s' = out s ++ [Stderr ErrAllocName]) /\
    (heap s = [] -> malloc_failed s = false ->
     r = 0 /\ heap s' = [] /\ malloc_failed s' = false) /\
    (commands s' = commands s \/
     exists bytes base,
       opened v = Some bytes /\
       command_basename (scan_lines entry_scan_init (getlines bytes))
       = Some base /\
       command_list_contains s base = false /\
       let name :=
         if resolves env (map lower base) then map lower base else base in
       resolves env name = true /\
       commands s' = commands s ++ [name] /\
       out s' = out s ++ [Added name (fpath v)])).
  { intros E. inversion E; subst r s'.
    split; [left; reflexivity|].
    split; [intros H; discriminate H|].
    split; [auto|left; reflexivity]. }
  unfold parse_desktop_entry.
  destruct (has_extension (fpath v)); unfold negb; cbv iota;
    [|exact Hsame].
  destruct (opened v) as [bytes|] eqn:Hopen; [|exact Hsame].
  set (st := scan_lines entry_scan_init (getlines bytes)).
  unfold bind at 1. unfold get at 1.
  destruct (command st) as [|c0 cmd]; [exact Hsame|].
  destruct (command_basename st) as [base|] eqn:Hbase; [|exact Hsame].
  destruct (command_list_contains s base) eqn:Hc; [exact Hsame|].
  clear Hsame.
  unfold bind at 1.
  destruct (allocate s) as [ok s0] eqn:Ha.
  destruct (allocate_effect _ Ha) as (Hc0 & Hm0 & Ho0 & _ & _ & _ & Hh0).
  cbv beta iota. destruct ok; unfold negb; cbv beta iota.
  2:{ intros E. run. inversion E; subst r s'. simpl.
      split; [right; reflexivity|].
      split; [intros _; right; rewrite Ho0; reflexivity|].
      split; [intros Hh; destruct (Hh0 Hh); discriminate|].
      left. exact Hc0. }
  assert (Hadd : forall name u s1,
            (emit (Added name (fpath v)) ;;
             r <- add_command_to_list name ;; ret tt) s0 = (u, s1) ->
            ((commands s1 = commands s /\ malloc_failed s1 = true) \/
             (commands s1 = commands s ++ [name] /\
              out s1 = out s ++ [Added name (fpath v)] /\
              malloc_failed s1 = malloc_failed s)) /\
            (heap s0 = [] ->
             heap s1 = [] /\ malloc_failed s1 = malloc_failed s)).
  { intros name u s1. unfold bind, emit, ret.
    match goal with |- context [add_command_to_list name ?s1] =>
      destruct (add_command_to_list_effect name s1)
        as (r' & s2 & E & Hcmds & Hh) end.
    rewrite E. intros E'. inversion E'; subst s1.
    simpl in *.
    destruct Hcmds as [(_ & Hcm & Hmf & Hout)|(Hr1 & Hcm & Hmf & _)].
    - split.
      + right. rewrite Hcm, Hout, Hc0, Ho0, Hmf, Hm0. auto.
      + intros Hh1. destruct (Hh Hh1). rewrite Hmf, Hm0. auto.
    - split.
      + left. rewrite Hcm, Hc0. auto.
      + intros Hh1. destruct (Hh Hh1) as [Hr0 _]. subst r'. discriminate. }
  assert (Hfin : forall name u s1,
            (emit (Added name (fpath v)) ;;
             r <- add_command_to_list name ;; ret tt) s0 = (u, s1) ->
            ((if malloc_failed s1 then 1 else 0) = 0 \/
             (if malloc_failed s1 then 1 else 0) = 1) /\
            ((if malloc_failed s1 then 1 else 0) = 1 ->
             malloc_failed s1 = true \/
             out s1 = out s ++ [Stderr ErrAllocName]) /\
            (heap s = [] -> malloc_failed s = false ->
             (if malloc_failed s1 then 1 else 0) = 0 /\
             heap s1 = [] /\ malloc_failed s1 = false) /\
            (commands s1 = commands s \/
             (commands s1 = commands s ++ [name] /\
              out s1 = out s ++ [Added name (fpath v)]))).
  { intros name u s1 E1.
    destruct (Hadd _ _ _ E1) as [Hcases Hheap].
    split; [destruct (malloc_failed s1); auto|].
    split; [destruct (malloc_failed s1); [auto|intros H; discriminate H]|].
    split.
    - intros Hh Hmf. destruct (Hh0 Hh) as [_ Hh0'].
      destruct (Hheap Hh0') as [Hh1 Hm1].
      rewrite Hm1, Hmf. auto.
    - destruct Hcases as [[Hcm _]|(Hcm & Hout & _)]; [left; exact Hcm|].
      right. auto. }
  unfold bind at 1.
  destruct (resolves env (map lower base)) eqn:Hlow.
  - match goal with |- context [bind (emit ?e) ?k s0] =>
      destruct (bind (emit e) k s0) as [u s1] eqn:E1 end.
    intros E. unfold bind, get, ret in E. simpl in E.
    inversion E; subst r s'.
    destruct (Hfin _ _ _ E1) as (A & B & C & D).
    split; [exact A|]. split; [exact B|]. split; [exact C|].
    destruct D as [D|[D1 D2]]; [left; exact D|].
    right. exists bytes, base.
    split; [reflexivity|]. split; [exact Hbase|]. split; [exact Hc|].
    cbv zeta. rewrite Hlow. auto.
  - destruct (existsb is_upper base && resolves env base) eqn:Hup.
    + match goal with |- context [bind (emit ?e) ?k s0] =>
        destruct (bind (emit e) k s0) as [u s1] eqn:E1 end.
      intros E. unfold bind, get, ret in E. simpl in E.
      inversion E; subst r s'.
      apply andb_true_iff in Hup. destruct Hup as [_ Hup].
      destruct (Hfin _ _ _ E1) as (A & B & C & D).
      split; [exact A|]. split; [exact B|]. split; [exact C|].
      destruct D as [D|[D1 D2]]; [left; exact D|].
      right. exists bytes, base.
      split; [reflexivity|]. split; [exact Hbase|]. split; [exact Hc|].
      cbv zeta. rewrite Hlow. auto.
    + intros E. unfold bind, get, ret in E. simpl in E.
      inversion E; subst r s'.
      split; [destruct (malloc_failed s0); auto|].
      split; [destruct (malloc_failed s0); [auto|intros H; discriminate H]|].
      split.
      * intros Hh Hmf. destruct (Hh0 Hh) as [_ Hh0'].
        rewrite Hm0, Hmf. auto.
      * left. exact Hc0.
Qed.

(** X10: where no lookup overruns the buffer, when [parse_desktop_entry]
    changes the registry, it appends one name: the base name of the
    entry's command in lower case if that resolves, else the base name as
    written; the name resolves, the registry did not hold the base name in
    any case, and one line "+ name (fpath)" is printed. *)
Theorem parse_desktop_entry_registers (env : environ) (v : visit) (s : state)
  (r : Z) (s' : state) :
  lookups_defined env ->
  parse_desktop_entry env v s = (r, s') ->
  commands s' = commands s \/
  exists bytes base,
    opened v = Some bytes /\
    command_basename (scan_lines entry_scan_init (getlines bytes))
    = Some base /\
    command_list_contains s base = false /\
    let name :=
      if resolves env (map lower base) then map lower base else base in
    resolves env name = true /\
    commands s' = commands s ++ [name] /\
    out s' = out s ++ [Added name (fpath v)].
Proof.
  intros _ E.
  destruct (parse_desktop_entry_effect _ _ _ E) as (_ & _ & _ & H).
  exact H.
Qed.

(** X10 at an entry for /opt/Foo where both Foo and foo resolve: foo is
    registered. *)
Lemma parse_desktop_entry_registers_witness :
  commands (snd (parse_desktop_entry foo_env mixed_case_entry empty_state))
  = [str "foo"].
Proof.
  destruct (@parse_desktop_entry_registers foo_env mixed_case_entry
              empty_state _ _ (path_fits_defined foo_env eq_refl)
              (surjective_pairing _))
    as [H|(bytes & base & Ho & Hb & _ & H)].
  - vm_compute in H. discriminate H.
  - vm_compute in Ho. inversion Ho; subst bytes.
    vm_compute in Hb. inversion Hb; subst base.
    cbv zeta in H. destruct H as (_ & H & _).
    rewrite H. vm_compute. reflexivity.
Defined.

(** X11: where no lookup overruns the buffer, [parse_desktop_entry]
    returns 0 or 1; 1 only when [malloc_failed] is set at the end or the
    copy of the base name could not be allocated; and 0, leaving
    [malloc_failed] clear, when it was clear and no allocation fails. *)
Theorem parse_desktop_entry_status (env : environ) (v : visit) (s : state) :
  lookups_defined env ->
  let r := fst (parse_desktop_entry env v s) in
  let s' := snd (parse_desktop_entry env v s) in
  (r = 0 \/ r = 1) /\
  (r = 1 ->
   malloc_failed s' = true \/ out s' = out s ++ [Stderr ErrAllocName]) /\
  (heap s = [] -> malloc_failed s = false ->
   r = 0 /\ heap s' = [] /\ malloc_failed s' = false).
Proof.
  intros _.
  destruct (parse_desktop_entry env v s) as [r s'] eqn:E. simpl.
  destruct (parse_desktop_entry_effect _ _ _ E) as (A & B & C & _). auto.
Qed.

(** X11 at the entry for "ls", parsed while no allocation fails. *)
Lemma parse_desktop_entry_status_witness :
  fst (parse_desktop_entry ls_env plain_entry empty_state) = 0 /\
  malloc_failed (snd (parse_desktop_entry ls_env plain_entry empty_state))
  = false.
Proof.
  destruct (@parse_desktop_entry_status ls_env plain_entry empty_state
              (path_fits_defined ls_env eq_refl)) as (_ & _ & H).
  destruct (H eq_refl eq_refl) as (H0 & _ & Hm). split; assumption.
Defined.

Lemma exec_line_keys (line : cstr) :
  sscanf_exec line <> None ->
  sscanf_key (str "NoDisplay") 5 line = None /\
  sscanf_key (str "Terminal") 5 line = None.
Proof.
  intros H. destruct line as [|c line].
  - elim H. reflexivity.
  - destruct (Ascii.eqb_spec "E"%char c) as [<-|Hc].
    + split; reflexivity.
    + elim H. unfold sscanf_exec, sscanf_key.
      change (match_literal (str "Exec") (c :: line))
        with (if Ascii.eqb "E"%char c then match_literal (str "xec") line
              else None).
      destruct (Ascii.eqb_spec "E"%char c) as [E|_]; [contradiction|].
      reflexivity.
Qed.

(** X28: inside the section, a line that the Exec format matches is not
    taken for a NoDisplay or Terminal key, and what it leaves in the
    locals does not depend on what they held: the command of an earlier
    Exec line is replaced. The loop goes on, and [command_basename] is
    set. *)
Theorem exec_line_overrides (st1 st2 : entry_scan) (line : cstr) :
  inside_desktop_entry st1 = true -> inside_desktop_entry st2 = true ->
  sscanf_exec line <> None ->
  scan_line st1 line = scan_line st2 line /\
  snd (scan_line st1 line) = false /\
  command_basename (fst (scan_line st1 line)) <> None.
Proof.
  intros H1 H2 Hx. destruct (exec_line_keys line Hx) as [Hn Ht].
  unfold scan_line. rewrite H1, H2, Hn, Ht. unfold negb. cbv iota.
  destruct (sscanf_exec line) as [[token rest]|]; [|elim Hx; reflexivity].
  destruct (strcmp (basename token) (str "env") =? 0).
  - pose proof (@env_loop_basename rest token (Some (basename token))
                  ltac:(discriminate)) as Hb.
    destruct (env_loop rest token (Some (basename token))) as [cmd base'].
    simpl in *. auto.
  - simpl. split; [reflexivity|]. split; [reflexivity|discriminate].
Qed.

(** X28 at "Exec=ls" after "Exec=xterm". *)
Lemma exec_line_overrides_witness :
  command (fst (scan_line xterm_scanned (str "Exec=ls" ++ [LF]))) = str "ls".
Proof.
  destruct (@exec_line_overrides xterm_scanned
              inside_section (str "Exec=ls" ++ [LF]) eq_refl eq_refl
              ltac:(vm_compute; discriminate)) as [H _].
  rewrite H. vm_compute. reflexivity.
Defined.

(** ** The loader, further *)

Lemma load_loop_effect (env : environ) (lines : list (list ascii)) :
  forall s,
    heap s = [] ->
    exists s',
      load_loop env lines s = (0, s') /\ heap s' = [] /\
      malloc_failed s' = malloc_failed s /\
      commands s' =
      commands s ++ filter (resolves env) (map entry_of lines) /\
      out s' =
      out s ++ map Dropped (filter (fun e => negb (resolves env e))
                              (map entry_of lines)).
Proof.
  induction lines as [|line rest IH]; intros s Hh.
  - exists s. simpl. unfold ret. rewrite !app_nil_r. auto.
  - simpl load_loop. simpl map. simpl filter. fold (entry_of line).
    destruct (resolves env (entry_of line)) eqn:Hres;
      unfold negb; cbv iota.
    + unfold bind.
      destruct (add_command_to_list_effect (entry_of line) s)
        as (r & s1 & E & Hcases & Hheap).
      rewrite E. destruct (Hheap Hh) as [Hr Hh1]. subst r.
      destruct Hcases as [(_ & Hc & Hm & Ho)|(Hr & _)];
        [|discriminate Hr].
      simpl. destruct (IH s1 Hh1) as (s' & E' & Hh' & Hm' & Hc' & Ho').
      exists s'. rewrite E', Hc', Ho', Hc, Ho, Hm', Hm, <- app_assoc.
      auto.
    + unfold bind, emit.
      match goal with |- context [load_loop env rest ?s1] =>
        destruct (IH s1 Hh) as (s' & E' & Hh' & Hm' & Hc' & Ho') end.
      exists s'. rewrite E', Hc', Ho'. simpl. rewrite <- app_assoc.
      auto.
Qed.

Lemma load_commands_from_file_opened (env : environ) (fl : faults)
  (p : cstr) (f : stream) (s : state) :
  fopen_r fl (disk s) p = Opened f ->
  load_commands_from_file env fl (Some p) None s =
  load_commands_from_file env fl None (Some f) s.
Proof.
  intros H. unfold load_commands_from_file, bind, get. rewrite H. reflexivity.
Qed.

Lemma load_commands_from_file_effect (env : environ) (fl : faults)
  (f : stream) (s : state) :
  heap s = [] ->
  exists s',
    load_commands_from_file env fl None (Some f) s =
    (match read_error f with Some e => (1, e) | None => (0, E0) end, s') /\
    heap s' = [] /\ malloc_failed s' = malloc_failed s /\
    commands s' =
    commands s ++ filter (resolves env) (map entry_of (getlines (text f))) /\
    out s' =
    out s ++ map Dropped (filter (fun e => negb (resolves env e))
                            (map entry_of (getlines (text f)))).
Proof.
  intros Hh. unfold load_commands_from_file, bind, get.
  destruct (load_loop_effect env (getlines (text f)) s Hh)
    as (s' & E & H).
  rewrite E. exists s'. split; [|exact H].
  destruct (read_error f); reflexivity.
Qed.

(** X12: where no lookup overruns the buffer and no allocation fails,
    [load_commands_from_file] goes through the whole stream: the entries
    that resolve are appended to the registry in order, the others are
    printed as "- entry" in order, and the call returns 0, or 1 with the
    errno of the read error that ended the stream. A file opened by its
    path is read in the same way. *)
Theorem load_commands_from_file_partition (env : environ) (fl : faults)
  (f : stream) (s : state) :
  lookups_defined env ->
  heap s = [] ->
  let entries := map entry_of (getlines (text f)) in
  let r := load_commands_from_file env fl None (Some f) s in
  fst r = match read_error f with Some e => (1, e) | None => (0, E0) end /\
  commands (snd r) = commands s ++ filter (resolves env) entries /\
  out (snd r) =
  out s ++ map Dropped (filter (fun e => negb (resolves env e)) entries) /\
  (forall p, fopen_r fl (disk s) p = Opened f ->
     load_commands_from_file env fl (Some p) None s = r).
Proof.
  intros _ Hh.
  destruct (load_commands_from_file_effect env fl f s Hh)
    as (s' & E & _ & _ & Hc & Ho).
  cbv zeta. rewrite E. simpl.
  split; [reflexivity|]. split; [exact Hc|]. split; [exact Ho|].
  intros p Hp. rewrite (@load_commands_from_file_opened env fl p f s Hp).
  exact E.
Qed.

(** X12 at a stream of three lines that ends on an input error. *)
Lemma load_commands_from_file_partition_witness :
  let r := load_commands_from_file ls_env no_faults None (Some failing_list)
             empty_state in
  fst r = (1, EIO) /\
  commands (snd r) = [str "ls"; str "ls"] /\
  out (snd r) = [Dropped (str "xterm")].
Proof.
  destruct (@load_commands_from_file_partition ls_env no_faults failing_list
              empty_state (path_fits_defined ls_env eq_refl) eq_refl)
    as (H1 & H2 & H3 & _).
  cbv zeta. rewrite H1, H2, H3. repeat split; vm_compute; reflexivity.
Defined.


(** ** Relations that the gathering preserves *)

Section Preservation.
Variable env : environ.
Variable R : state -> state -> Prop.
Hypothesis R_refl : forall s, R s s.
Hypothesis R_trans : forall a b c, R a b -> R b c -> R a c.
Hypothesis R_emit : forall e s, R s (snd (emit e s)).

Lemma preserves_ret {A} (a : A) : preserves R (ret a).
Proof. intros s. apply R_refl. Qed.

Lemma preserves_bind {A B} (m : M A) (k : A -> M B) :
  preserves R m -> (forall a, preserves R (k a)) -> preserves R (bind m k).
Proof.
  intros Hm Hk s. unfold bind. specialize (Hm s).
  destruct (m s) as [a s1]. simpl in Hm.
  eapply R_trans; [exact Hm|apply Hk].
Qed.

Lemma preserves_get : preserves R get.
Proof. intros s. apply R_refl. Qed.

Lemma preserves_perror (d : diagnostic) : preserves R (perror d).
Proof. intros s. apply R_emit. Qed.

Section Registering.
Hypothesis R_allocate : preserves R allocate.
Hypothesis R_add : forall c, preserves R (add_command_to_list c).

Lemma parse_desktop_entry_preserves (v : visit) :
  preserves R (parse_desktop_entry env v).
Proof.
  unfold parse_desktop_entry.
  destruct (negb (has_extension (fpath v))); [apply preserves_ret|].
  destruct (opened v) as [bytes|]; [|apply preserves_ret].
  apply preserves_bind; [apply preserves_get|]. intros s.
  destruct (command (scan_lines entry_scan_init (getlines bytes)));
    [apply preserves_ret|].
  destruct (command_basename (scan_lines entry_scan_init (getlines bytes)))
    as [base|]; [|apply preserves_ret].
  destruct (command_list_contains s base); [apply preserves_ret|].
  apply preserves_bind; [exact R_allocate|]. intros ok.
  destruct (negb ok).
  - apply preserves_bind; [apply preserves_perror|].
    intros _. apply preserves_ret.
  - apply preserves_bind.
    + destruct (resolves env (map lower base));
        [|destruct (existsb is_upper base && resolves env base);
          [|apply preserves_ret]];
        (apply preserves_bind; [intros s0; apply R_emit|]; intros _;
         apply preserves_bind; [apply R_add|]; intros _; apply preserves_ret).
    + intros _. apply preserves_bind; [apply preserves_get|].
      intros s'. apply preserves_ret.
Qed.

Lemma load_loop_preserves (lines : list (list ascii)) :
  preserves R (load_loop env lines).
Proof.
  induction lines as [|line rest IH]; simpl; [apply preserves_ret|].
  destruct (resolves env (c_str (chomp line))).
  - apply preserves_bind; [apply R_add|].
    intros failed. destruct (failed =? 0); [exact IH|apply preserves_ret].
  - apply preserves_bind; [intros s; apply R_emit|]. intros _. exact IH.
Qed.

Lemma load_commands_from_file_preserves (fl : faults) (path : option cstr)
  (file : option stream) :
  preserves R (load_commands_from_file env fl path file).
Proof.
  assert (Hrun : forall f,
            preserves R
              (failed <- load_loop env (getlines (text f)) ;;
               match failed, read_error f with
               | 0, Some e => ret (1, e)
               | _, _ => ret (failed, E0)
               end)).
  { intros f. apply preserves_bind; [apply load_loop_preserves|].
    intros [|p|p]; [destruct (read_error f)| |]; apply preserves_ret. }
  unfold load_commands_from_file.
  apply preserves_bind; [apply preserves_get|]. intros s.
  destruct path as [p|], file as [f|]; try apply preserves_ret.
  - destruct (fopen_r fl (disk s) p); [apply Hrun|apply preserves_ret].
  - apply Hrun.
Qed.

End Registering.

Section Gathering.
Hypothesis R_parse : forall v, preserves R (parse_desktop_entry env v).
Hypothesis R_load : forall fl path file,
  preserves R (load_commands_from_file env fl path file).

Lemma nftw_visits_preserves (vs : list visit) :
  preserves R (nftw_visits env vs).
Proof.
  induction vs as [|v vs IH]; simpl; [apply preserves_ret|].
  apply preserves_bind; [exact (R_parse v)|].
  intros r. destruct (r =? 0); [exact IH|apply preserves_ret].
Qed.

Lemma walk_dirs_preserves (o : refresh_oracle) (dirs : list cstr) :
  preserves R (walk_dirs env o dirs).
Proof.
  induction dirs as [|dir dirs IH]; simpl; [apply preserves_ret|].
  apply preserves_bind.
  - unfold nftw. apply preserves_bind; [apply nftw_visits_preserves|].
    intros r. destruct (r =? 0); apply preserves_ret.
  - intros r. destruct (r =? 0); [exact IH|].
    apply preserves_bind; [apply preserves_get|]. intros s.
    apply preserves_bind; [|intros _; apply preserves_ret].
    destruct (malloc_failed s); [apply preserves_ret|apply preserves_perror].
Qed.

Lemma gather_preserves (o : refresh_oracle) (path : cstr) (dirs : list cstr) :
  preserves R (gather env o path dirs).
Proof.
  unfold gather. apply preserves_bind.
  - destruct (stdin o) as [| |f]; try apply preserves_ret.
    apply preserves_bind; [apply R_load|].
    intros r. destruct (fst r =? 0); [apply preserves_ret|].
    apply preserves_bind; [apply preserves_perror|].
    intros _. apply preserves_ret.
  - intros r1. destruct (negb (r1 =? 0)); [apply preserves_ret|].
    apply preserves_bind; [apply R_load|].
    intros r.
    destruct (negb (fst r =? 0) && negb (errno_eqb (snd r) ENOENT)).
    + apply preserves_bind; [apply preserves_perror|].
      intros _. apply preserves_ret.
    + destruct dirs; apply walk_dirs_preserves.
Qed.

End Gathering.

End Preservation.

Lemma appends_resolving_refl (env : environ) (s : state) :
  appends_resolving env s s.
Proof. exists []. rewrite app_nil_r. auto. Qed.

Lemma appends_resolving_trans (env : environ) (a b c : state) :
  appends_resolving env a b -> appends_resolving env b c ->
  appends_resolving env a c.
Proof.
  intros (l1 & H1 & F1) (l2 & H2 & F2). exists (l1 ++ l2).
  rewrite H2, H1, app_assoc. split; [reflexivity|].
  apply Forall_app. auto.
Qed.

Lemma appends_resolving_emit (env : environ) (e : event) (s : state) :
  appends_resolving env s (snd (emit e s)).
Proof. exists []. simpl. rewrite app_nil_r. auto. Qed.

Lemma appends_resolving_parse (env : environ) (v : visit) (s : state) :
  appends_resolving env s (snd (parse_desktop_entry env v s)).
Proof.
  destruct (parse_desktop_entry env v s) as [r s'] eqn:E. simpl.
  destruct (parse_desktop_entry_effect _ _ _ E)
    as (_ & _ & _ & [H|(bytes & base & _ & _ & _ & H)]).
  - exists []. rewrite app_nil_r. auto.
  - cbv zeta in H. destruct H as (Hres & Hc & _).
    eexists. split; [exact Hc|]. constructor; [exact Hres|constructor].
Qed.

Lemma Forall_firstn {A} (P : A -> Prop) (k : nat) (l : list A) :
  Forall P l -> Forall P (firstn k l).
Proof.
  intros H. revert k. induction H as [|x l Hx _ IH]; intros [|k]; simpl;
    constructor; auto.
Qed.

Lemma Forall_filter_true {A} (f : A -> bool) (l : list A) :
  Forall (fun x => f x = true) (filter f l).
Proof.
  induction l as [|x l IH]; simpl; [constructor|].
  destruct (f x) eqn:E; [constructor; assumption|assumption].
Qed.

Lemma appends_resolving_load (env : environ) (fl : faults)
  (path : option cstr) (file : option stream) (s : state) :
  appends_resolving env s (snd (load_commands_from_file env fl path file s)).
Proof.
  destruct (load_commands_from_file_spec env fl path file s)
    as (r & s' & E & _ & _ & (k & Hk) & _).
  rewrite E. simpl. eexists. split; [exact Hk|].
  apply Forall_firstn, Forall_filter_true.
Qed.

Lemma gather_appends (env : environ) (o : refresh_oracle) (path : cstr)
  (dirs : list cstr) (s : state) :
  appends_resolving env s (snd (gather env o path dirs s)).
Proof.
  apply gather_preserves.
  - apply appends_resolving_refl.
  - apply appends_resolving_trans.
  - apply appends_resolving_emit.
  - intros v s0. apply appends_resolving_parse.
  - intros fl p f s0. apply appends_resolving_load.
Qed.

(** X13: where no lookup overruns the buffer, while the three sources of
    commands are read (lines 517-548), the registry only grows at its end,
    and every name added resolves. *)
Theorem gather_registers_resolving_commands (env : environ)
  (o : refresh_oracle) (path : cstr) (dirs : list cstr) (s : state) :
  lookups_defined env ->
  let s' := snd (gather env o path dirs s) in
  exists added,
    commands s' = commands s ++ added /\
    Forall (fun c => resolves env c = true) added.
Proof. intros _. exact (gather_appends env o path dirs s). Qed.

(** X13 at the gathering of two lines of standard input into a registry
    that holds "xterm". *)
Lemma gather_registers_resolving_commands_witness :
  exists added,
    commands (snd (gather ls_env (smooth_refresh (StdinFile ls_twice))
                     del_list [] (state_with [str "xterm"]))) =
    [str "xterm"] ++ added /\
    Forall (fun c => resolves ls_env c = true) added.
Proof.
  exact (@gather_registers_resolving_commands ls_env
           (smooth_refresh (StdinFile ls_twice)) del_list []
           (state_with [str "xterm"]) (path_fits_defined ls_env eq_refl)).
Defined.

(** ** The capacity of the array *)

Lemma keeps_capacity_add (c : cstr) :
  preserves keeps_capacity (add_command_to_list c).
Proof.
  intros s (H1 & H2 & k & Hk).
  unfold capacity_ok, add_command_to_list, command_count,
    INCREMENTAL_ALLOCATION_SIZE in *.
  run.
  destruct (Nat.leb_spec (max_commands s) (length (commands s))); run.
  - destruct (heap s) as [|[|] [|[|] h]] eqn:Hh; run;
      rewrite ?length_app; simpl;
      (split; [lia|]); (split; [lia|]);
      first [exists (S k); lia | exists k; lia].
  - destruct (heap s) as [|[|] h] eqn:Hh; run;
      rewrite ?length_app; simpl;
      (split; [lia|]); (split; [lia|]); exists k; lia.
Qed.

Lemma keeps_capacity_allocate : preserves keeps_capacity allocate.
Proof.
  intros s H. destruct (allocate s) as [ok s0] eqn:E.
  destruct (allocate_effect _ E) as (Hc & _ & _ & _ & _ & Hm & _).
  unfold capacity_ok, command_count in *. simpl. rewrite Hc, Hm. exact H.
Qed.

Lemma keeps_capacity_trans (a b c : state) :
  keeps_capacity a b -> keeps_capacity b c -> keeps_capacity a c.
Proof. unfold keeps_capacity. auto. Qed.

(** X14: where no lookup overruns the buffer, the store of line 227 stays
    inside the array: if the count is within the capacity, the capacity
    within one chunk of the count and a multiple of the chunk size, then
    the same holds after [add_command_to_list], after
    [parse_desktop_entry], after [load_commands_from_file] and after the
    whole gathering of a refresh. *)
Theorem registry_capacity_invariant (env : environ) (o : refresh_oracle)
  (path : cstr) (dirs : list cstr) (s : state) :
  lookups_defined env ->
  capacity_ok s ->
  (forall c, capacity_ok (snd (add_command_to_list c s))) /\
  (forall v, capacity_ok (snd (parse_desktop_entry env v s))) /\
  (forall fl p f, capacity_ok (snd (load_commands_from_file env fl p f s))) /\
  capacity_ok (snd (gather env o path dirs s)).
Proof.
  intros _ H.
  assert (Hrefl : forall s0, keeps_capacity s0 s0) by (intros s0 H0; exact H0).
  assert (Hemit : forall e s0, keeps_capacity s0 (snd (emit e s0)))
    by (intros e s0 H0; exact H0).
  assert (Hparse : forall v,
            preserves keeps_capacity (parse_desktop_entry env v)).
  { intros v.
    exact (@parse_desktop_entry_preserves env keeps_capacity Hrefl
             keeps_capacity_trans Hemit keeps_capacity_allocate
             keeps_capacity_add v). }
  assert (Hload : forall fl p f,
            preserves keeps_capacity (load_commands_from_file env fl p f)).
  { intros fl p f.
    exact (@load_commands_from_file_preserves env keeps_capacity Hrefl
             keeps_capacity_trans Hemit keeps_capacity_add fl p f). }
  split; [intros c; apply keeps_capacity_add; exact H|].
  split; [intros v; apply Hparse; exact H|].
  split; [intros fl p f; apply Hload; exact H|].
  apply (@gather_preserves env keeps_capacity Hrefl keeps_capacity_trans
           Hemit Hparse Hload o path dirs s H).
Qed.

(** X14 at the gathering of two lines of standard input into the empty
    registry. *)
Lemma registry_capacity_invariant_witness :
  capacity_ok (snd (gather ls_env (smooth_refresh (StdinFile ls_twice))
                      del_list [] empty_state)).
Proof.
  apply (@registry_capacity_invariant ls_env
           (smooth_refresh (StdinFile ls_twice)) del_list [] empty_state
           (path_fits_defined ls_env eq_refl)).
  unfold capacity_ok. split; [vm_compute; lia|].
  split; [vm_compute; lia|]. exists 0%nat. reflexivity.
Defined.

(** ** The refresh, further *)

Lemma entry_of_line (n : cstr) : ~ In NUL n -> entry_of (n ++ [LF]) = n.
Proof. intros H. unfold entry_of. rewrite chomp_line. apply c_str_id, H. Qed.

Lemma entries_of_file (names : list cstr) :
  Forall clean names -> map entry_of (getlines (file_of names)) = names.
Proof.
  intros H. rewrite <- (app_nil_r (file_of names)), getlines_file_of.
  - simpl getlines. rewrite app_nil_r, map_map.
    induction H as [|n names [Hn _] _ IH]; simpl; [reflexivity|].
    rewrite IH. fold (n ++ [LF]). rewrite (entry_of_line n Hn). reflexivity.
  - revert H. apply Forall_impl. intros c [_ H]. exact H.
Qed.

Lemma persist_success (qsort : list cstr -> list cstr) (o : refresh_oracle)
  (path : cstr) (s s1 : state) :
  (forall suffix, mkstemp_suffix o = Some suffix -> suffix <> []) ->
  persist qsort o path s = (0, s1) ->
  disk s1 path = Some (file_of (printed None (qsort (commands s)))) /\
  disk s1 (tempname_of o path) = None.
Proof.
  intros Hfresh E.
  destruct (persist_outcome qsort o path s Hfresh) as (r & s' & E' & _ & H).
  rewrite E in E'. inversion E'; subst r s'.
  destruct (first_failure o (qsort (commands s))).
  - destruct H as [H _]. discriminate H.
  - destruct H as (_ & H1 & H2 & _). auto.
Qed.

Lemma printed_clean (qsort : list cstr -> list cstr) (cmds : list cstr)
  (P : cstr -> Prop) :
  qsort_spec qsort -> Forall P cmds ->
  Forall P (printed None (qsort cmds)).
Proof.
  intros Hq H. rewrite Forall_forall in *. intros c Hc.
  apply H. apply printed_incl in Hc.
  destruct (Hq cmds) as [Hp _].
  apply (Permutation_in _ (Permutation_sym Hp) Hc).
Qed.

(** X15: where no lookup overruns the buffer, the file that a successful
    persistence writes is read back line for line: when no registry entry
    contains a newline or a NUL, the entries that a later
    [load_commands_from_file] of the destination makes are the lines
    written, those that resolve are registered and the others reported,
    and the call returns 0. *)
Theorem persisted_list_loads_back (qsort : list cstr -> list cstr)
  (env : environ) (fl : faults) (o : refresh_oracle) (path : cstr)
  (s s1 s2 : state) :
  lookups_defined env ->
  qsort_spec qsort ->
  (forall suffix, mkstemp_suffix o = Some suffix -> suffix <> []) ->
  Forall clean (commands s) ->
  persist qsort o path s = (0, s1) ->
  fopen_fault fl path = None -> read_fault fl path = None ->
  disk s2 = disk s1 -> heap s2 = [] ->
  let lines := printed None (qsort (commands s)) in
  let r := load_commands_from_file env fl (Some path) None s2 in
  map entry_of (getlines (file_of lines)) = lines /\
  fst r = (0, E0) /\
  commands (snd r) = commands s2 ++ filter (resolves env) lines /\
  out (snd r) =
  out s2 ++ map Dropped (filter (fun e => negb (resolves env e)) lines).
Proof.
  intros _ Hq Hfresh Hclean E Hof Hrf Hd Hh lines r.
  assert (Hl : map entry_of (getlines (file_of lines)) = lines).
  { apply entries_of_file. apply printed_clean; assumption. }
  split; [exact Hl|].
  destruct (@persist_success qsort o path s s1 Hfresh E) as [Hnew _].
  assert (Hopen : fopen_r fl (disk s2) path =
                  Opened {| text := file_of lines; read_error := None |}).
  { unfold fopen_r. rewrite Hof, Hd, Hnew, Hrf. reflexivity. }
  subst r. rewrite (@load_commands_from_file_opened env fl path _ s2 Hopen).
  destruct (load_commands_from_file_effect env fl
              {| text := file_of lines; read_error := None |} s2 Hh)
    as (s' & E' & _ & _ & Hc & Ho).
  rewrite E'. simpl in *. rewrite Hl in Hc, Ho. auto.
Qed.

Ltac clean_names :=
  repeat (constructor;
          [split; intros Hin; vm_compute in Hin;
           repeat (destruct Hin as [Hin|Hin]; [discriminate Hin|]);
           exact Hin|]);
  try constructor.

(** X15 at a list of two commands of which one resolves in the next run. *)
Lemma persisted_list_loads_back_witness :
  let s1 := snd (persist insertion_sort (smooth_refresh StdinTty) del_list
                   (state_with [str "xterm"; str "ls"])) in
  commands (snd (load_commands_from_file ls_env no_faults (Some del_list)
                   None (next_run s1))) = [str "ls"].
Proof.
  intros s1.
  destruct (@persisted_list_loads_back insertion_sort ls_env no_faults
              (smooth_refresh StdinTty) del_list
              (state_with [str "xterm"; str "ls"]) s1 (next_run s1)
              (path_fits_defined ls_env eq_refl)
              insertion_sort_qsort
              ltac:(intros suffix H; inversion H; discriminate)
              ltac:(clean_names)
              ltac:(vm_compute; reflexivity)
              eq_refl eq_refl eq_refl eq_refl) as (_ & _ & H & _).
  rewrite H. vm_compute. reflexivity.
Defined.

(** X16: where no lookup overruns the buffer, when
    [refresh_command_list] returns 0 from a registry whose entries resolve
    (the empty one of a new process), the destination holds a list that is
    not empty, every line of it resolves, and the temporary file is
    gone. *)
Theorem refresh_command_list_success (qsort : list cstr -> list cstr)
  (env : environ) (o : refresh_oracle) (path : cstr) (dirs : list cstr)
  (s s' : state) :
  lookups_defined env ->
  qsort_spec qsort ->
  (forall suffix, mkstemp_suffix o = Some suffix -> suffix <> []) ->
  Forall (fun c => resolves env c = true) (commands s) ->
  refresh_command_list qsort env o path dirs s = (0, s') ->
  exists lines,
    disk s' path = Some (file_of lines) /\ lines <> [] /\
    Forall (fun c => resolves env c = true) lines /\
    disk s' (tempname_of o path) = None.
Proof.
  intros _ Hq Hfresh Hres. unfold refresh_command_list. unfold bind at 1.
  pose proof (gather_appends env o path dirs s) as (added & Ha & Hadd).
  destruct (gather env o path dirs s) as [r s1] eqn:Eg. simpl in Ha.
  destruct (r =? 0); unfold negb; cbv iota;
    [|intros E; inversion E].
  unfold bind at 1, get at 1.
  destruct (Nat.eqb_spec (command_count s1) 0) as [Hz|Hnz].
  - unfold bind, perror, emit, ret. intros E; inversion E.
  - intros E.
    destruct (@persist_success qsort o path s1 s' Hfresh E) as [Hnew Htmp].
    exists (printed None (qsort (commands s1))).
    split; [exact Hnew|]. split; [|split; [|exact Htmp]].
    + destruct (Hq (commands s1)) as [Hp _].
      destruct (qsort (commands s1)) as [|c rest] eqn:Es.
      * apply Permutation_sym, Permutation_nil in Hp.
        unfold command_count in Hnz. rewrite Hp in Hnz. elim Hnz. reflexivity.
      * simpl. discriminate.
    + apply printed_clean; [exact Hq|]. rewrite Ha.
      apply Forall_app. auto.
Qed.

(** X16 at a refresh that reads "ls" twice from standard input. *)
Lemma refresh_command_list_success_witness :
  let o := smooth_refresh (StdinFile ls_twice) in
  exists lines,
    disk (snd (refresh_command_list insertion_sort ls_env o del_list []
                 empty_state)) del_list = Some (file_of lines) /\
    lines <> [] /\
    Forall (fun c => resolves ls_env c = true) lines /\
    disk (snd (refresh_command_list insertion_sort ls_env o del_list []
                 empty_state)) (tempname_of o del_list) = None.
Proof.
  exact (@refresh_command_list_success insertion_sort ls_env
           (smooth_refresh (StdinFile ls_twice)) del_list [] empty_state _
           (path_fits_defined ls_env eq_refl)
           insertion_sort_qsort
           ltac:(intros suffix H; inversion H; discriminate)
           (Forall_nil _)
           ltac:(vm_compute; reflexivity)).
Defined.

(** ** The files that a refresh changes *)

Section PointwiseSteps.
Variable R : state -> state -> Prop.
Hypothesis R_refl : forall s, R s s.
Hypothesis R_trans : forall a b c, R a b -> R b c -> R a c.

Lemma preserves_get_bind {B} (k : state -> M B) :
  (forall s, R s (snd (k s s))) -> preserves R (bind get k).
Proof. intros H s. unfold bind, get. apply H. Qed.

Lemma step_bind {A B} (m : M A) (k : A -> M B) (s : state) :
  R s (snd (m s)) -> (forall a, preserves R (k a)) -> R s (snd (bind m k s)).
Proof.
  intros Hm Hk. unfold bind. destruct (m s) as [a s1]. simpl in Hm.
  eapply R_trans; [exact Hm|apply Hk].
Qed.

End PointwiseSteps.

Lemma frame_same (keep : cstr -> Prop) (s s' : state) :
  disk s' = disk s -> past s' = past s -> frame keep s s'.
Proof. intros Hd Hp. exists []. rewrite Hd, Hp. split; [reflexivity|constructor]. Qed.

Lemma frame_disk (keep : cstr -> Prop) (s s' : state) :
  frame keep s s' -> forall q, keep q -> disk s' q = disk s q.
Proof.
  intros ([|d mids] & E & F) q Hq; simpl in E; inversion E; subst.
  - reflexivity.
  - inversion F; subst. auto.
Qed.

Lemma frame_trans (keep : cstr -> Prop) (a b c : state) :
  frame keep a b -> frame keep b c -> frame keep a c.
Proof.
  intros Hab (m2 & E2 & F2).
  pose proof (frame_disk Hab) as Hd.
  destruct Hab as (m1 & E1 & F1).
  exists (m2 ++ m1). rewrite E2, E1, app_assoc. split; [reflexivity|].
  apply Forall_app. split; [|exact F1].
  revert F2. apply Forall_impl. intros d H q Hq.
  rewrite (H q Hq). apply Hd, Hq.
Qed.

Lemma frame_touch (keep : cstr -> Prop) (f : filesystem -> filesystem)
  (s : state) :
  (forall d q, keep q -> f d q = d q) ->
  frame keep s (snd (set_disk (f (disk s)) s)).
Proof.
  intros H. exists [f (disk s)]. simpl. split; [reflexivity|].
  constructor; [|constructor]. intros q Hq. apply H, Hq.
Qed.

Lemma frame_perror (keep : cstr -> Prop) (d : diagnostic) :
  preserves (frame keep) (perror d).
Proof. intros s. apply frame_same; reflexivity. Qed.

Lemma persist_error_frame (o : refresh_oracle) (created : bool)
  (path tempname : cstr) :
  preserves (frame (fun q => q <> path /\ q <> tempname))
    (persist_error o created tempname).
Proof.
  set (keep := fun q => q <> path /\ q <> tempname).
  assert (Hrefl : forall s, frame keep s s)
    by (intros s; apply frame_same; reflexivity).
  unfold persist_error.
  apply (preserves_bind (@frame_trans keep));
    [|intros _; apply (preserves_ret _ Hrefl)].
  destruct (negb created); [apply frame_perror|].
  apply (preserves_bind (@frame_trans keep)); [apply frame_perror|].
  intros _. destruct (unlink_ok o); [|apply frame_perror].
  apply preserves_get_bind. intros s.
  apply (frame_touch keep (fun d => fs_set d tempname None)).
  intros d q [_ Hq]. apply fs_set_other, Hq.
Qed.

Lemma persist_frame (qsort : list cstr -> list cstr) (o : refresh_oracle)
  (path : cstr) :
  preserves (frame (fun q => q <> path /\ q <> tempname_of o path))
    (persist qsort o path).
Proof.
  set (keep := fun q => q <> path /\ q <> tempname_of o path).
  assert (Hrefl : forall s, frame keep s s)
    by (intros s; apply frame_same; reflexivity).
  assert (Hother : forall v d q, keep q ->
            fs_set d (tempname_of o path) v q = d q).
  { intros v d q [_ Hq]. apply fs_set_other, Hq. }
  pose proof (persist_error_frame o) as Herr.
  unfold persist. subst keep. unfold tempname_of in *.
  destruct (mkstemp_suffix o) as [suffix|]; [|apply Herr].
  set (keep := fun q => q <> path /\ q <> path ++ suffix) in *.
  apply preserves_get_bind. intros s.
  apply (step_bind (@frame_trans keep));
    [apply (frame_touch keep (fun d => fs_set d (path ++ suffix) (Some [])));
     apply Hother|].
  intros _. destruct (negb (fdopen_ok o)); [apply Herr|].
  apply (preserves_bind (@frame_trans keep));
    [intros s0; apply frame_same; reflexivity|].
  intros _.
  destruct (write_commands o 0 None (qsort (commands s)) []) as [ok written].
  apply preserves_get_bind. intros s1.
  apply (step_bind (@frame_trans keep));
    [apply (frame_touch keep
              (fun d => fs_set d (path ++ suffix) (Some written)));
     apply Hother|].
  intros _. destruct (negb ok); [apply Herr|].
  destruct (negb (fflush_ok o && fsync_ok o && fclose_ok o)).
  { apply (preserves_bind (@frame_trans keep)); [apply frame_perror|].
    intros _. apply Herr. }
  destruct (negb (rename_ok o)).
  { apply (preserves_bind (@frame_trans keep)); [apply frame_perror|].
    intros _. apply Herr. }
  apply preserves_get_bind. intros s2.
  apply (step_bind (@frame_trans keep));
    [|intros _; apply (preserves_ret _ Hrefl)].
  apply (frame_touch keep
           (fun d => fs_set (fs_set d path (d (path ++ suffix)))
                       (path ++ suffix) None)).
  intros d q [Hp Hq]. rewrite fs_set_other by exact Hq.
  apply fs_set_other, Hp.
Qed.

Lemma returns_ret {A} (P : A -> Prop) (a : A) : P a -> returns P (ret a).
Proof. intros H s. exact H. Qed.

Lemma returns_bind {A B} (P : B -> Prop) (m : M A) (k : A -> M B) :
  (forall a, returns P (k a)) -> returns P (bind m k).
Proof. intros H s. unfold bind. destruct (m s) as [a s1]. apply H. Qed.

Lemma persist_error_status (o : refresh_oracle) (created : bool)
  (tempname : cstr) :
  returns (fun r => r = 0 \/ r = 1) (persist_error o created tempname).
Proof.
  unfold persist_error. apply returns_bind. intros _.
  apply returns_ret. right. reflexivity.
Qed.

Lemma persist_status (qsort : list cstr -> list cstr) (o : refresh_oracle)
  (path : cstr) :
  returns (fun r => r = 0 \/ r = 1) (persist qsort o path).
Proof.
  pose proof (persist_error_status o) as Herr.
  unfold persist.
  destruct (mkstemp_suffix o) as [suffix|]; [|apply Herr].
  apply returns_bind. intros s. apply returns_bind. intros _.
  destruct (negb (fdopen_ok o)); [apply Herr|].
  apply returns_bind. intros _.
  destruct (write_commands o 0 None (qsort (commands s)) []) as [ok written].
  apply returns_bind. intros s1. apply returns_bind. intros _.
  destruct (negb ok); [apply Herr|].
  destruct (negb (fflush_ok o && fsync_ok o && fclose_ok o));
    [apply returns_bind; intros _; apply Herr|].
  destruct (negb (rename_ok o));
    [apply returns_bind; intros _; apply Herr|].
  apply returns_bind. intros s2. apply returns_bind. intros _.
  apply returns_ret. left. reflexivity.
Qed.

Lemma refresh_command_list_status (qsort : list cstr -> list cstr)
  (env : environ) (o : refresh_oracle) (path : cstr) (dirs : list cstr) :
  returns (fun r => r = 0 \/ r = 1)
    (refresh_command_list qsort env o path dirs).
Proof.
  unfold refresh_command_list. apply returns_bind. intros r.
  destruct (negb (r =? 0)); [apply returns_ret; right; reflexivity|].
  apply returns_bind. intros s.
  destruct (command_count s =? 0)%nat; [|apply persist_status].
  apply returns_bind. intros _. apply returns_ret. right. reflexivity.
Qed.

Lemma refresh_command_list_frame (qsort : list cstr -> list cstr)
  (env : environ) (o : refresh_oracle) (path : cstr) (dirs : list cstr) :
  preserves (frame (fun q => q <> path /\ q <> tempname_of o path))
    (refresh_command_list qsort env o path dirs).
Proof.
  set (keep := fun q => q <> path /\ q <> tempname_of o path).
  assert (Hrefl : forall s, frame keep s s)
    by (intros s; apply frame_same; reflexivity).
  unfold refresh_command_list.
  apply (preserves_bind (@frame_trans keep)).
  - intros s. destruct (gather env o path dirs s) as [r1 s1] eqn:Eg.
    destruct (gather_files _ _ _ _ _ Eg) as [Hd Hp].
    apply frame_same; assumption.
  - intros r. destruct (negb (r =? 0)); [apply (preserves_ret _ Hrefl)|].
    apply (preserves_bind (@frame_trans keep));
      [apply (preserves_get _ Hrefl)|].
    intros s. destruct (command_count s =? 0)%nat; [|apply persist_frame].
    apply (preserves_bind (@frame_trans keep)); [apply frame_perror|].
    intros _. apply (preserves_ret _ Hrefl).
Qed.

(** X17: [refresh_command_list] returns 0 or 1, and at no step does it
    change a file other than the destination and the temporary file. *)
Theorem refresh_command_list_touches_two_files
  (qsort : list cstr -> list cstr) (env : environ) (o : refresh_oracle)
  (path : cstr) (dirs : list cstr) (s : state) :
  let r := refresh_command_list qsort env o path dirs s in
  (fst r = 0 \/ fst r = 1) /\
  frame (fun q => q <> path /\ q <> tempname_of o path) s (snd r) /\
  (forall q, q <> path -> q <> tempname_of o path ->
     disk (snd r) q = disk s q).
Proof.
  cbv zeta.
  split; [apply (refresh_command_list_status qsort env o path dirs s)|].
  pose proof (refresh_command_list_frame qsort env o path dirs s) as H.
  split; [exact H|].
  intros q Hp Hq. apply (frame_disk H). split; assumption.
Qed.

(** ** Failures of the gathering *)



Lemma walk_dirs_app (env : environ) (o : refresh_oracle) (l1 l2 : list cstr) :
  forall s,
    walk_dirs env o (l1 ++ l2) s =
    let (r, s1) := walk_dirs env o l1 s in
    if r =? 0 then walk_dirs env o l2 s1 else (r, s1).
Proof.
  induction l1 as [|dir l1 IH]; intros s; [reflexivity|].
  simpl walk_dirs. unfold bind.
  destruct (nftw env o dir s) as [r s1].
  destruct (r =? 0) eqn:E; [apply IH|].
  unfold get, ret, perror, emit.
  destruct (malloc_failed s1); simpl; reflexivity.
Qed.

(** X19: where no lookup overruns the buffer, when nftw fails for a
    directory, after the directories before it were walked, the loop of
    lines 535-542 returns 1 without walking the directories after it;
    "unable to walk" is printed unless [malloc_failed] is set. *)
Theorem walk_dirs_stops_at_failure (env : environ) (o : refresh_oracle)
  (before after : list cstr) (dir : cstr) (s : state) :
  lookups_defined env ->
  let s1 := snd (walk_dirs env o before s) in
  let s2 := snd (nftw env o dir s1) in
  fst (walk_dirs env o before s) = 0 ->
  fst (nftw env o dir s1) <> 0 ->
  walk_dirs env o (before ++ dir :: after) s =
  (1, if malloc_failed s2 then s2 else snd (perror (ErrWalk dir) s2)).
Proof.
  intros _ s1 s2 H0 H1. subst s1 s2. rewrite walk_dirs_app.
  destruct (walk_dirs env o before s) as [r s1]. simpl in *. subst r.
  simpl. unfold bind at 1.
  destruct (nftw env o dir s1) as [r2 s2]. simpl in *.
  destruct (Z.eqb_spec r2 0) as [E|E]; [contradiction|].
  unfold bind, get, ret, perror, emit.
  destruct (malloc_failed s2) eqn:Hm; simpl; rewrite ?Hm; reflexivity.
Qed.

(** X19 at a walk of "/" that fails before "/usr" is walked. *)
Lemma walk_dirs_stops_at_failure_witness :
  walk_dirs ls_env unreadable_root ([] ++ str "/" :: [str "/usr"])
    empty_state =
  (1, snd (perror (ErrWalk (str "/")) empty_state)).
Proof.
  exact (@walk_dirs_stops_at_failure ls_env unreadable_root [] [str "/usr"]
           (str "/") empty_state (path_fits_defined ls_env eq_refl) eq_refl
           ltac:(intros H; discriminate H)).
Defined.

(** ** The menu, further *)

Lemma selection_loop_events (lines : list (list ascii)) :
  forall fk, Forall reading_event (snd (selection_loop lines fk)).
Proof.
  induction lines as [|line lines IH]; intros fk; simpl; [constructor|].
  destruct (complete line).
  - destruct fk as [|[|] fk]; simpl.
    + specialize (IH []). destruct (selection_loop lines []).
      constructor; [exact I|exact IH].
    + specialize (IH fk). destruct (selection_loop lines fk).
      constructor; [exact I|exact IH].
    + constructor; [exact I|constructor].
  - specialize (IH fk). destruct (selection_loop lines fk).
    constructor; [exact I|exact IH].
Qed.

Lemma read_selections_events (o : menu_oracle) :
  Forall reading_event (snd (read_selections o)).
Proof.
  unfold read_selections.
  destruct (close_pipe_ok o); simpl; [|constructor; [exact I|constructor]].
  destruct (fdopen_pipe_ok o); simpl; [|constructor; [exact I|constructor]].
  pose proof (selection_loop_events (getlines (text (menu_output o)))
                (forks o)) as H.
  destruct (selection_loop _ _) as [failure evs]. simpl in H.
  assert (Hc : Forall reading_event
                 (if fclose_output_ok o then [] else [Stderr ErrCloseOutput])).
  { destruct (fclose_output_ok o); repeat constructor. }
  destruct failure as [|p|p]; [destruct (read_error (menu_output o))| |];
    simpl; apply Forall_app; split; auto; try constructor; auto; exact I.
Qed.

Lemma wait_loop_events (ws : list wait_result) (failure sig : Z) :
  forall r evs,
    wait_loop ws failure sig = Some (r, evs) ->
    Forall waiting_event evs /\ In Waitpid evs.
Proof.
  induction ws as [|w ws IH]; intros r evs; simpl; [discriminate|].
  destruct w as [|status|signum|].
  - intros H. inversion H; subst. split; [repeat constructor|left; reflexivity].
  - destruct ((failure =? 0) && negb (status =? 0)); intros H;
      inversion H; subst; (split; [repeat constructor|left; reflexivity]).
  - destruct (negb (signum =? sig)); intros H;
      inversion H; subst; (split; [repeat constructor|left; reflexivity]).
  - destruct (wait_loop ws failure sig) as [[r' evs']|]; [|discriminate].
    intros H. inversion H; subst. destruct (IH _ _ eq_refl) as [H1 H2].
    split; [constructor; [exact I|exact H1]|left; reflexivity].
Qed.

Lemma menu_fatal_error (o : menu_oracle) :
  pipe_ok o = true -> fork_menu_ok o = true ->
  (fst (read_selections o) =? 1) = fatal_error o.
Proof.
  intros Hp Hf. rewrite read_selections_failure. unfold fatal_error.
  rewrite Hp, Hf. simpl.
  destruct (negb (close_pipe_ok o) || negb (fdopen_pipe_ok o) ||
            fork_fails o ||
            match read_error (menu_output o) with
            | Some _ => true
            | None => false
            end); reflexivity.
Qed.

(** X20: once the menu process exists, a run of [menu] that returns has
    three phases: launches and messages while the pipe is read, then
    kill(menu_pid, SIGHUP) exactly when a fatal error occurred, then the
    calls of waitpid and their messages, of which there is at least
    one. *)
Theorem menu_trace (o : menu_oracle) (r : Z) (evs : list event) :
  pipe_ok o = true -> fork_menu_ok o = true ->
  menu o = Some (r, evs) ->
  exists reading waiting,
    evs = reading ++ (if fatal_error o then [Kill SIGHUP] else []) ++ waiting /\
    Forall reading_event reading /\
    Forall waiting_event waiting /\ In Waitpid waiting.
Proof.
  intros Hp Hf. unfold menu. rewrite Hp, Hf. simpl.
  pose proof (menu_fatal_error o Hp Hf) as Hfatal.
  pose proof (read_selections_events o) as Hr.
  destruct (read_selections o) as [failure evs0]. simpl in Hfatal, Hr.
  rewrite Hfatal.
  destruct (fatal_error o).
  - destruct (wait_loop (waits o) failure SIGHUP) as [[r' evs']|] eqn:Hw;
      [|discriminate].
    intros H. inversion H; subst.
    destruct (wait_loop_events _ _ _ Hw) as [H1 H2].
    exists evs0, evs'. auto.
  - destruct (wait_loop (waits o) failure 0) as [[r' evs']|] eqn:Hw;
      [|discriminate].
    intros H. inversion H; subst.
    destruct (wait_loop_events _ _ _ Hw) as [H1 H2].
    exists evs0, evs'. auto.
Qed.

(** X20 at the run in which the second fork fails. *)
Lemma menu_trace_witness :
  exists reading waiting,
    [Launch (str "xterm"); Stderr ErrForkCommand; Kill SIGHUP; Waitpid] =
    reading ++
    (if fatal_error second_fork_fails then [Kill SIGHUP] else []) ++ waiting /\
    Forall reading_event reading /\
    Forall waiting_event waiting /\ In Waitpid waiting.
Proof.
  exact (@menu_trace second_fork_fails 1
           [Launch (str "xterm"); Stderr ErrForkCommand; Kill SIGHUP; Waitpid]
           eq_refl eq_refl eq_refl).
Defined.

Lemma launched_app (a b : list event) :
  launched (a ++ b) = launched a ++ launched b.
Proof.
  induction a as [|e a IH]; simpl; [reflexivity|].
  destruct e; simpl; rewrite IH; reflexivity.
Qed.

Lemma launched_waiting (evs : list event) :
  Forall waiting_event evs -> launched evs = [].
Proof.
  intros H. induction H as [|e evs He _ IH]; simpl; [reflexivity|].
  destruct e; simpl in *; try contradiction; exact IH.
Qed.

Lemma selection_loop_launched (lines : list (list ascii)) :
  forall fk,
    (exists k, launched (snd (selection_loop lines fk)) =
               firstn k (map entry_of (filter complete lines))) /\
    (fst (selection_loop lines fk) = 0 ->
     launched (snd (selection_loop lines fk)) =
     map entry_of (filter complete lines)).
Proof.
  induction lines as [|line lines IH]; intros fk; simpl.
  - split; [exists 0%nat|]; reflexivity.
  - destruct (complete line) eqn:Hc.
    + assert (He : entry_of line = c_str (removelast line)).
      { unfold entry_of, chomp. rewrite Hc. reflexivity. }
      assert (Hgo : forall fk',
                (exists k,
                   launched
                     (snd (let (failure, evs) := selection_loop lines fk' in
                           (failure, Launch (c_str (removelast line)) :: evs)))
                   = firstn k (map entry_of (line :: filter complete lines))) /\
                (fst (let (failure, evs) := selection_loop lines fk' in
                      (failure, Launch (c_str (removelast line)) :: evs)) = 0 ->
                 launched
                   (snd (let (failure, evs) := selection_loop lines fk' in
                         (failure, Launch (c_str (removelast line)) :: evs)))
                 = map entry_of (line :: filter complete lines))).
      { intros fk'. destruct (IH fk') as [[k Hk] H0].
        destruct (selection_loop lines fk') as [failure evs]. simpl in *.
        rewrite He. split.
        - exists (S k). simpl. rewrite Hk. reflexivity.
        - intros Hz. rewrite (H0 Hz). reflexivity. }
      destruct fk as [|[|] fk]; simpl tl.
      * apply Hgo.
      * apply Hgo.
      * simpl. split; [exists 0%nat; reflexivity|discriminate].
    + destruct (IH fk) as [[k Hk] H0].
      destruct (selection_loop lines fk) as [failure evs]. simpl in *.
      split; [exists k; exact Hk|exact H0].
Qed.

Lemma read_selections_launched (o : menu_oracle) :
  (exists k, launched (snd (read_selections o)) = firstn k (selections o)) /\
  (fst (read_selections o) = 0 ->
   launched (snd (read_selections o)) = selections o).
Proof.
  unfold read_selections, selections.
  destruct (close_pipe_ok o); simpl;
    [|split; [exists 0%nat; reflexivity|discriminate]].
  destruct (fdopen_pipe_ok o); simpl;
    [|split; [exists 0%nat; reflexivity|discriminate]].
  destruct (selection_loop_launched (getlines (text (menu_output o)))
              (forks o)) as [[k Hk] H0].
  destruct (selection_loop _ _) as [failure evs]. simpl in *.
  assert (Hc : launched
                 (if fclose_output_ok o then [] else [Stderr ErrCloseOutput])
               = []) by (destruct (fclose_output_ok o); reflexivity).
  destruct failure as [|p|p]; [destruct (read_error (menu_output o))| |];
    simpl; rewrite !launched_app; simpl; rewrite ?Hc, ?app_nil_r;
    (split; [exists k; exact Hk|intros Hz; try discriminate Hz; auto]).
Qed.

(** X21: [menu] launches nothing but the lines that the menu printed with
    their newline, in the order printed: the commands launched are the
    first k of them, and all of them when no fatal error occurs. *)
Theorem menu_launches_selections (o : menu_oracle) (r : Z)
  (evs : list event) :
  menu o = Some (r, evs) ->
  (exists k, launched evs = firstn k (selections o)) /\
  (fatal_error o = false -> launched evs = selections o).
Proof.
  unfold menu.
  destruct (pipe_ok o) eqn:Hp; simpl.
  2:{ intros H. inversion H; subst. unfold fatal_error. rewrite Hp. simpl.
      split; [exists 0%nat; reflexivity|discriminate]. }
  destruct (fork_menu_ok o) eqn:Hf; simpl.
  2:{ intros H. inversion H; subst. unfold fatal_error. rewrite Hp, Hf. simpl.
      split; [exists 0%nat; reflexivity|discriminate]. }
  pose proof (menu_fatal_error o Hp Hf) as Hfatal.
  pose proof (read_selections_launched o) as [[k Hk] H0].
  pose proof (read_selections_failure o) as Hrf.
  destruct (read_selections o) as [failure evs0]. simpl in *.
  destruct (Z.eqb_spec failure 1) as [E1|E1].
  - destruct (wait_loop (waits o) failure SIGHUP) as [[r' evs']|] eqn:Hw;
      [|discriminate].
    intros H. inversion H; subst r' evs.
    destruct (wait_loop_events _ _ _ Hw) as [Hev _].
    rewrite launched_app. simpl. rewrite (launched_waiting Hev), app_nil_r.
    split; [exists k; exact Hk|].
    intros Hfe. rewrite Hfe in Hfatal. discriminate Hfatal.
  - destruct (wait_loop (waits o) failure 0) as [[r' evs']|] eqn:Hw;
      [|discriminate].
    intros H. inversion H; subst r' evs.
    destruct (wait_loop_events _ _ _ Hw) as [Hev _].
    rewrite launched_app. simpl. rewrite (launched_waiting Hev), app_nil_r.
    split; [exists k; exact Hk|].
    intros _. apply H0. rewrite Hrf in *.
    destruct (negb (close_pipe_ok o) || negb (fdopen_pipe_ok o) ||
              fork_fails o ||
              match read_error (menu_output o) with
              | Some _ => true
              | None => false
              end); [elim E1|]; reflexivity.
Qed.

(** X21 at the run with an unfinished third line. *)
Lemma menu_launches_selections_witness :
  launched [Launch (str "xterm"); Launch (str "ls");
            Stderr (ErrMissingNewline (str "fire")); Waitpid] =
  selections unfinished_line.
Proof.
  apply (@menu_launches_selections unfinished_line 0
           [Launch (str "xterm"); Launch (str "ls");
            Stderr (ErrMissingNewline (str "fire")); Waitpid] eq_refl).
  reflexivity.
Defined.

Lemma wait_loop_some (ws : list wait_result) (failure sig : Z) :
  forall x,
    wait_loop ws failure sig = Some x ->
    exists k w rest, ws = repeat WOther k ++ w :: rest /\ w <> WOther.
Proof.
  induction ws as [|w ws IH]; intros x; simpl; [discriminate|].
  destruct w as [|status|signum|];
    try (intros _; exists 0%nat; eexists; eexists;
         split; [reflexivity|discriminate]).
  destruct (wait_loop ws failure sig) as [[r evs]|]; [|discriminate].
  intros _. destruct (IH _ eq_refl) as (k & w & rest & -> & Hw).
  exists (S k), w, rest. split; [reflexivity|exact Hw].
Qed.

Lemma reconcile_zero (fatal : bool) (w : wait_result) :
  valid_wait w -> w <> WOther ->
  0 <= reconcile fatal w /\
  (reconcile fatal w = 0 <-> fatal = false /\ w = WExited 0).
Proof.
  intros Hv Hw. destruct fatal; cbn [reconcile].
  - split; [lia|]. split; [discriminate|intros [H _]; discriminate H].
  - destruct w as [|status|signum|]; cbn [reconcile valid_wait] in *.
    + split; [lia|]. split; [discriminate|intros [_ H]; discriminate H].
    + split; [lia|]. split; [intros ->; auto|intros [_ H]; inversion H; auto].
    + split; [lia|]. split; [intros H; lia|intros [_ H]; discriminate H].
    + elim Hw. reflexivity.
Qed.

(** X22: with exit statuses and signal numbers as <sys/wait.h> gives them,
    [menu] never returns a negative value, and it returns 0 exactly when
    no fatal error occurred and the menu exited with status 0. *)
Theorem menu_succeeds_iff (o : menu_oracle) (r : Z) (evs : list event) :
  Forall valid_wait (waits o) ->
  menu o = Some (r, evs) ->
  0 <= r /\
  (r = 0 <->
   fatal_error o = false /\
   exists k ws, waits o = repeat WOther k ++ WExited 0 :: ws).
Proof.
  intros Hv Hm.
  destruct (pipe_ok o && fork_menu_ok o) eqn:Hpf.
  - apply andb_true_iff in Hpf. destruct Hpf as [Hp Hf].
    assert (Hw : exists k w rest,
               waits o = repeat WOther k ++ w :: rest /\ w <> WOther).
    { unfold menu in Hm. rewrite Hp, Hf in Hm. simpl in Hm.
      destruct (read_selections o) as [failure evs0].
      destruct (failure =? 1).
      - destruct (wait_loop (waits o) failure SIGHUP) as [x|] eqn:E;
          [|discriminate]. apply (wait_loop_some _ _ _ E).
      - destruct (wait_loop (waits o) failure 0) as [x|] eqn:E;
          [|discriminate]. apply (wait_loop_some _ _ _ E). }
    destruct Hw as (k & w & rest & Hw & Hne).
    assert (Hvw : valid_wait w).
    { rewrite Hw in Hv. apply Forall_app in Hv. destruct Hv as [_ Hv].
      inversion Hv; assumption. }
    assert (Hsig : forall n, w = WSignaled n -> n <> 0).
    { intros n ->. simpl in Hvw. lia. }
    destruct (menu_status o k rest Hw Hne Hsig) as [evs' Hm'].
    rewrite Hm in Hm'. inversion Hm'; subst r.
    destruct (reconcile_zero (fatal_error o) Hvw Hne) as [Hpos Hzero].
    split; [exact Hpos|]. rewrite Hzero. split.
    + intros [Hfe ->]. split; [exact Hfe|]. exists k, rest. exact Hw.
    + intros [Hfe (k' & ws' & Hw')]. split; [exact Hfe|].
      rewrite Hw in Hw'. clear -Hw' Hne.
      revert k' Hw'. induction k as [|k IH]; intros [|k'] Hw'; simpl in Hw'.
      * inversion Hw'. reflexivity.
      * inversion Hw'. subst w. elim Hne. reflexivity.
      * inversion Hw'. 
      * inversion Hw'. eauto.
  - assert (Hr : r = 1 /\ fatal_error o = true).
    { unfold menu in Hm. unfold fatal_error.
      destruct (pipe_ok o); simpl in *.
      - destruct (fork_menu_ok o); [discriminate Hpf|]. simpl in *.
        inversion Hm. auto.
      - inversion Hm. auto. }
    destruct Hr as [-> Hfe]. split; [lia|].
    split; [discriminate|]. rewrite Hfe. intros [H _]. discriminate H.
Qed.

(** X22 at the same run, which returns 0. *)
Lemma menu_succeeds_iff_witness :
  0 = 0 <->
  fatal_error unfinished_line = false /\
  exists k ws, waits unfinished_line = repeat WOther k ++ WExited 0 :: ws.
Proof.
  apply (@menu_succeeds_iff unfinished_line 0
           [Launch (str "xterm"); Launch (str "ls");
            Stderr (ErrMissingNewline (str "fire")); Waitpid]).
  - repeat constructor; simpl; lia.
  - reflexivity.
Defined.

(** ** main *)

Lemma c_str_app_NUL (a r : list ascii) :
  ~ In NUL a -> c_str (a ++ NUL :: r) = a.
Proof.
  induction a as [|c a IH]; intros H; simpl; [reflexivity|].
  destruct (Ascii.eqb_spec c NUL) as [->|_].
  - elim H. left. reflexivity.
  - rewrite IH; [reflexivity|]. intros Hin. apply H. right. exact Hin.
Qed.

Lemma skipn_app_exact {A} (a r : list A) (n : nat) :
  length a = n -> skipn n (a ++ r) = r.
Proof.
  intros <-. rewrite skipn_app, skipn_all, Nat.sub_diag. reflexivity.
Qed.

Lemma firstn_app_exact {A} (a r : list A) (n : nat) :
  length a = n -> firstn n (a ++ r) = a.
Proof.
  intros <-. rewrite firstn_app, firstn_all, Nat.sub_diag. simpl.
  apply app_nil_r.
Qed.

Lemma poke_app (a r : list ascii) (x c : ascii) (i : nat) :
  length a = i -> poke (a ++ x :: r) i c = Some (a ++ c :: r).
Proof.
  intros Hi. unfold poke. rewrite length_app. cbn [length].
  destruct (Nat.ltb_spec i (length a + S (length r))); [|lia].
  rewrite (firstn_app_exact a (x :: r) Hi).
  replace (S i) with (length (a ++ [x])) by (rewrite length_app; simpl; lia).
  replace (a ++ x :: r) with ((a ++ [x]) ++ r)
    by (rewrite <- app_assoc; reflexivity).
  rewrite (skipn_app_exact (a ++ [x]) r eq_refl). reflexivity.
Qed.

Lemma strcpy_at_app (a r : list ascii) (src : cstr) (off : nat) :
  length a = off -> (strlen src + 1 <= length r)%nat ->
  strcpy_at (a ++ r) off src =
  Some (a ++ src ++ NUL :: skipn (strlen src + 1) r).
Proof.
  intros Ha Hr. unfold strcpy_at. rewrite length_app.
  destruct (Nat.leb_spec (off + strlen src + 1) (length a + length r));
    [|lia].
  rewrite (firstn_app_exact a r Ha).
  replace (off + strlen src + 1)%nat with ((strlen src + 1) + off)%nat by lia.
  rewrite <- skipn_skipn, (skipn_app_exact a r Ha). reflexivity.
Qed.

Lemma strcat_at_app (a r : list ascii) (src : cstr) (off : nat) :
  length a = off -> (strlen src + 1 <= S (length r))%nat ->
  strcat_at (a ++ NUL :: r) off src =
  Some (a ++ src ++ NUL :: skipn (strlen src) r).
Proof.
  intros Ha Hr. unfold strcat_at.
  rewrite (skipn_app_exact a (NUL :: r) Ha).
  change (strlen_in (NUL :: r)) with (Some 0%nat). cbv iota.
  rewrite Nat.add_0_r.
  rewrite (strcpy_at_app a (NUL :: r) src Ha) by (simpl; lia).
  rewrite Nat.add_1_r. reflexivity.
Qed.

Lemma nth_error_last (a r : list ascii) (n : nat) :
  length a = S n -> nth_error (a ++ r) n = Some (last a NUL).
Proof.
  revert n. induction a as [|c a IH]; intros n H; [discriminate H|].
  destruct a as [|d a].
  - simpl in H. inversion H. reflexivity.
  - destruct n as [|n]; [simpl in H; discriminate H|].
    change (nth_error ((c :: d :: a) ++ r) (S n))
      with (nth_error ((d :: a) ++ r) n).
    change (last (c :: d :: a) NUL) with (last (d :: a) NUL).
    apply IH. simpl in *. lia.
Qed.

Lemma default_command_list_path_value (home : cstr) (fresh : block) :
  home <> [] -> ~ In NUL home ->
  length fresh =
  (S (strlen DEFAULT_COMMAND_LIST_BASENAME) + strlen home + 1)%nat ->
  exists b,
    default_command_list_path home fresh = Some b /\
    length b = length fresh /\
    c_str b = prefix_of home ++ DEFAULT_COMMAND_LIST_BASENAME.
Proof.
  intros Hne Hnul Hlen. unfold default_command_list_path.
  change (strlen DEFAULT_COMMAND_LIST_BASENAME) with 4%nat in Hlen.
  unfold strlen in *.
  assert (Hn : exists n, length home = S n).
  { destruct home; [contradiction|]. simpl. eauto. }
  destruct Hn as [n Hn].
  set (t := skipn (length home + 1) fresh).
  assert (Ht : length t = 5%nat) by (subst t; rewrite length_skipn; lia).
  pose proof (@strcpy_at_app [] fresh home 0 eq_refl) as Hcp.
  cbn [app] in Hcp. unfold strlen in Hcp. rewrite Hcp by lia. clear Hcp.
  fold t. rewrite Hn.
  rewrite (nth_error_last home (NUL :: t) Hn).
  destruct t as [|x1 [|x2 [|x3 [|x4 [|x5 [|x6 t]]]]]]; try discriminate Ht.
  assert (Hdel : ~ In NUL (home ++ str "/" ++ DEFAULT_COMMAND_LIST_BASENAME)).
  { intros H. apply in_app_or in H. destruct H as [H|H]; [auto|].
    vm_compute in H.
    repeat (destruct H as [H|H]; [discriminate H|]). exact H. }
  assert (Hdel' : ~ In NUL (home ++ DEFAULT_COMMAND_LIST_BASENAME)).
  { intros H. apply in_app_or in H. destruct H as [H|H]; [auto|].
    vm_compute in H.
    repeat (destruct H as [H|H]; [discriminate H|]). exact H. }
  unfold prefix_of. destruct home as [|h0 home']; [contradiction|].
  set (home := h0 :: home') in *.
  destruct (Ascii.eqb (last home NUL) "/"); unfold negb; cbv iota.
  - rewrite (strcat_at_app home [x1; x2; x3; x4; x5]
               DEFAULT_COMMAND_LIST_BASENAME Hn)
      by (vm_compute; lia).
    eexists. split; [reflexivity|]. split.
    + rewrite Hlen, !length_app. simpl. unfold home in *. simpl in *. lia.
    + rewrite app_assoc. apply c_str_app_NUL. exact Hdel'.
  - rewrite <- Hn.
    rewrite (poke_app home [x1; x2; x3; x4; x5] NUL "/" eq_refl).
    replace (home ++ "/"%char :: [x1; x2; x3; x4; x5])
      with ((home ++ str "/") ++ x1 :: [x2; x3; x4; x5])
      by (rewrite <- app_assoc; reflexivity).
    assert (Hl1 : length (home ++ str "/") = (length home + 1)%nat)
      by (rewrite length_app; reflexivity).
    rewrite (poke_app (home ++ str "/") [x2; x3; x4; x5] x1 NUL Hl1).
    rewrite (strcat_at_app (home ++ str "/") [x2; x3; x4; x5]
               DEFAULT_COMMAND_LIST_BASENAME Hl1)
      by (vm_compute; lia).
    eexists. split; [reflexivity|]. split.
    + rewrite Hlen, !length_app. simpl. unfold home in *. simpl in *. lia.
    + rewrite app_assoc. rewrite <- (app_assoc home).
      apply c_str_app_NUL. exact Hdel.
Qed.

(** X23: lines 783-789 on a block of [sizeof(".del") + strlen(home) + 1]
    bytes. For a [$HOME] that is not empty every access stays inside the
    block, and the string built is [$HOME], one '/' unless [$HOME] ends
    with one, and ".del". For the empty [$HOME], and for no other, the
    read [command_list_path[strlen_home - 1]] falls outside the block. *)
Theorem default_command_list_path_in_bounds (home : cstr) (fresh : block) :
  ~ In NUL home ->
  length fresh =
  (S (strlen DEFAULT_COMMAND_LIST_BASENAME) + strlen home + 1)%nat ->
  (home = [] <-> default_command_list_path home fresh = None) /\
  (home <> [] ->
   exists b,
     default_command_list_path home fresh = Some b /\
     length b = length fresh /\
     c_str b = prefix_of home ++ DEFAULT_COMMAND_LIST_BASENAME).
Proof.
  intros Hnul Hlen. split.
  - split.
    + intros ->. unfold default_command_list_path.
      destruct (strcpy_at fresh 0 []); reflexivity.
    + intros H. destruct home as [|c home]; [reflexivity|].
      destruct (@default_command_list_path_value (c :: home) fresh
                  ltac:(discriminate) Hnul Hlen) as (b & Hb & _).
      rewrite Hb in H. discriminate H.
  - intros Hne. apply default_command_list_path_value; assumption.
Qed.

(** X23 at HOME=/home/u and a block of 13 bytes. *)
Lemma default_command_list_path_in_bounds_witness :
  exists b,
    default_command_list_path (str "/home/u") (repeat "x"%char 13) = Some b /\
    length b = 13%nat /\
    c_str b = str "/home/u/.del".
Proof.
  destruct (@default_command_list_path_in_bounds (str "/home/u")
              (repeat "x"%char 13)
              ltac:(intros H; vm_compute in H;
                    repeat (destruct H as [H|H]; [discriminate H|]); exact H)
              eq_refl) as [_ H].
  apply H. discriminate.
Defined.

Lemma option_loop_settings (self : option cstr)
  (results : list getopt_result) :
  forallb is_setting results = true ->
  forall path action,
    option_loop self results path action =
    inr (fold_left (fun acc g => match g with OptF p => Some p | _ => acc end)
           results path,
         if existsb (fun g => match g with OptR => true | _ => false end)
              results
         then REFRESH_COMMAND_LIST else action).
Proof.
  induction results as [|g results IH]; intros H path action;
    [reflexivity|].
  simpl in H. apply andb_true_iff in H. destruct H as [Hg H].
  destruct g; try discriminate Hg; simpl; rewrite (IH H).
  - reflexivity.
  - destruct (existsb _ results); reflexivity.
Qed.

Lemma option_loop_stops (self : option cstr)
  (pre post : list getopt_result) (x : getopt_result) :
  forallb is_setting pre = true -> is_setting x = false ->
  forall path action,
    option_loop self (pre ++ x :: post) path action =
    inl (match x with OptH => 0 | _ => 1 end,
         match x with
         | OptH => [Usage self]
         | OptPlus => [ErrInvalidOption]
         | _ => []
         end).
Proof.
  intros Hpre Hx. induction pre as [|g pre IH]; intros path action.
  - destruct x; try discriminate Hx; reflexivity.
  - simpl in Hpre. apply andb_true_iff in Hpre. destruct Hpre as [Hg Hpre].
    destruct g; try discriminate Hg; simpl; apply (IH Hpre).
Qed.

(** X24: the first option that is not -f or -r ends main inside the option
    loop: -h prints the usage text and returns 0 even after other options,
    any other value returns 1, with a message of main for '+'. Nothing is
    loaded, written or launched, and [$HOME] is not looked at. *)
Theorem main_stops_at_help_or_invalid_option
  (qsort : list cstr -> list cstr) (env : environ) (mo : main_oracle)
  (ro : refresh_oracle) (uo : menu_oracle) (argv : list cstr)
  (pre post : list getopt_result) (x : getopt_result) (s : state) :
  getopt_results mo = pre ++ x :: post ->
  forallb is_setting pre = true -> is_setting x = false ->
  let status := match x with OptH => 0 | _ => 1 end in
  main_dispatch mo argv s =
  (Return status
     match x with
     | OptH => [Usage (hd_error argv)]
     | OptPlus => [ErrInvalidOption]
     | _ => []
     end, s) /\
  main qsort env mo ro uo argv s = (Exit status, s).
Proof.
  intros Hr Hpre Hx status.
  assert (Hd : main_dispatch mo argv s =
               (Return status
                  match x with
                  | OptH => [Usage (hd_error argv)]
                  | OptPlus => [ErrInvalidOption]
                  | _ => []
                  end, s)).
  { unfold main_dispatch. rewrite Hr.
    rewrite (option_loop_stops (hd_error argv) pre post x Hpre Hx).
    reflexivity. }
  split; [exact Hd|]. unfold main, bind. rewrite Hd. reflexivity.
Qed.

(** X24 at "del -f /tmp/list -h -r". *)
Lemma main_stops_at_help_or_invalid_option_witness :
  main insertion_sort ls_env help_after_f (smooth_refresh StdinTty)
    lost_menu [str "del"; str "-f"; str "/tmp/list"; str "-h"; str "-r"]
    empty_state = (Exit 0, empty_state).
Proof.
  apply (@main_stops_at_help_or_invalid_option insertion_sort ls_env
           help_after_f (smooth_refresh StdinTty) lost_menu
           [str "del"; str "-f"; str "/tmp/list"; str "-h"; str "-r"]
           [OptF (str "/tmp/list")] [OptR] OptH empty_state
           eq_refl eq_refl eq_refl).
Defined.

Lemma main_dispatch_with_path (mo : main_oracle) (argv : list cstr)
  (p : cstr) (s : state) :
  forallb is_setting (getopt_results mo) = true ->
  chosen_path (getopt_results mo) = Some p ->
  (optind mo <= length argv)%nat ->
  main_dispatch mo argv s =
  (chosen_dispatch (getopt_results mo) p argv (optind mo), s).
Proof.
  intros Hset Hp Hopt. unfold main_dispatch.
  rewrite (option_loop_settings (hd_error argv) (getopt_results mo) Hset).
  unfold chosen_path in Hp. rewrite Hp.
  unfold bind, ret, chosen_dispatch, chosen_action.
  destruct (Nat.ltb_spec (length argv) (optind mo)); [lia|].
  destruct (existsb _ (getopt_results mo)); [reflexivity|].
  destruct (menu_argv argv (optind mo)); reflexivity.
Qed.

(** X25: when the options are -f and -r only and -f occurs, main uses the
    argument of the last -f; [$HOME] is not looked at and nothing is
    allocated. With -r it calls [refresh_command_list] on that path and
    the arguments left, and returns its status, 0 or 1. *)
Theorem main_with_list_path (qsort : list cstr -> list cstr) (env : environ)
  (mo : main_oracle) (ro : refresh_oracle) (uo : menu_oracle)
  (argv : list cstr) (p : cstr) (s : state) :
  forallb is_setting (getopt_results mo) = true ->
  chosen_path (getopt_results mo) = Some p ->
  (optind mo <= length argv)%nat ->
  main_dispatch mo argv s =
  (chosen_dispatch (getopt_results mo) p argv (optind mo), s) /\
  (chosen_action (getopt_results mo) = REFRESH_COMMAND_LIST ->
   let r := refresh_command_list qsort env ro p (skipn (optind mo) argv) s in
   main qsort env mo ro uo argv s = (Exit (fst r), snd r) /\
   (fst r = 0 \/ fst r = 1)).
Proof.
  intros Hset Hp Hopt.
  pose proof (main_dispatch_with_path mo argv s Hset Hp Hopt) as Hd.
  split; [exact Hd|]. intros Ha r. split.
  - unfold main. unfold bind at 1. rewrite Hd.
    unfold chosen_dispatch. rewrite Ha. unfold bind, ret. subst r.
    destruct (refresh_command_list qsort env ro p (skipn (optind mo) argv) s).
    reflexivity.
  - apply (refresh_command_list_status qsort env ro p
             (skipn (optind mo) argv) s).
Qed.

(** X25 at "del -f /tmp/old -r -f /home/u/.del /usr/share". *)
Lemma main_with_list_path_witness :
  main_dispatch refresh_with_f
    [str "del"; str "-f"; str "/tmp/old"; str "-r"; str "-f";
     str "/home/u/.del"; str "/usr/share"] empty_state =
  (Refresh del_list [str "/usr/share"], empty_state).
Proof.
  apply (@main_with_list_path insertion_sort ls_env refresh_with_f
           (smooth_refresh StdinTty) lost_menu
           [str "del"; str "-f"; str "/tmp/old"; str "-r"; str "-f";
            str "/home/u/.del"; str "/usr/share"] del_list empty_state
           eq_refl eq_refl ltac:(vm_compute; lia)).
Defined.

(** X26: without -f, when malloc succeeds: an unset [$HOME] ends main with
    status 1 and a message, an empty [$HOME] makes it read outside the
    block, and any other [$HOME] gives the list path [$HOME]/.del, with
    which the chosen action is called. *)
Theorem main_without_list_path (mo : main_oracle) (argv : list cstr)
  (s : state) :
  forallb is_setting (getopt_results mo) = true ->
  chosen_path (getopt_results mo) = None ->
  (optind mo <= length argv)%nat ->
  fst (allocate s) = true ->
  (forall home, getenv_HOME mo = Some home -> ~ In NUL home) ->
  fst (main_dispatch mo argv s) =
  match getenv_HOME mo with
  | None => Return 1 [ErrHomeUnset]
  | Some [] => OutOfBounds
  | Some home =>
      chosen_dispatch (getopt_results mo)
        (prefix_of home ++ DEFAULT_COMMAND_LIST_BASENAME) argv (optind mo)
  end.
Proof.
  intros Hset Hp Hopt Halloc Hnul. unfold main_dispatch.
  rewrite (option_loop_settings (hd_error argv) (getopt_results mo) Hset).
  unfold chosen_path in Hp. rewrite Hp.
  destruct (getenv_HOME mo) as [home|]; [|reflexivity].
  specialize (Hnul home eq_refl).
  unfold bind at 1. unfold bind at 1.
  destruct (allocate s) as [ok s0]. simpl in Halloc. subst ok.
  unfold negb. cbv iota.
  set (fresh := map (uninitialised mo)
                  (seq 0 (S (strlen DEFAULT_COMMAND_LIST_BASENAME) +
                          strlen home + 1))).
  assert (Hlen : length fresh =
                 (S (strlen DEFAULT_COMMAND_LIST_BASENAME) + strlen home + 1)%nat)
    by (subst fresh; rewrite length_map, length_seq; reflexivity).
  destruct home as [|c home].
  - unfold default_command_list_path.
    destruct (strcpy_at fresh 0 []); reflexivity.
  - destruct (@default_command_list_path_value (c :: home) fresh
                ltac:(discriminate) Hnul Hlen) as (b & Hb & _ & Hc).
    rewrite Hb. unfold ret. rewrite Hc.
    unfold chosen_dispatch, chosen_action. simpl fst.
    destruct (Nat.ltb_spec (length argv) (optind mo)); [lia|].
    destruct (existsb _ (getopt_results mo)); [reflexivity|].
    destruct (menu_argv argv (optind mo)); reflexivity.
Qed.

(** X26 at "del -- -sb red" with HOME=/home/u. *)
Lemma main_without_list_path_witness :
  fst (main_dispatch del_dashes
         [str "del"; str "--"; str "-sb"; str "red"] empty_state) =
  Menu (str "/home/u/.del") [str "dmenu"; str "-sb"; str "red"].
Proof.
  rewrite (@main_without_list_path del_dashes
             [str "del"; str "--"; str "-sb"; str "red"] empty_state
             eq_refl eq_refl ltac:(vm_compute; lia) eq_refl
             ltac:(intros home H; inversion H; subst home; intros Hin;
                   vm_compute in Hin;
                   repeat (destruct Hin as [Hin|Hin]; [discriminate Hin|]);
                   exact Hin)).
  reflexivity.
Defined.


